(** * Copilot Money decoder: a shallow embedding of [core/decoder.py],
    [models/transaction.py], [models/account.py] and [core/database.py].

    Python values are modelled as follows.
    - [int]   : [Z] (unbounded, as in Python).
    - [bytes] : [list byte]; [len], indexing, slicing and [find] follow
      Python, negative indices included where the code can receive them.
    - [str]   : the list of its Unicode code points.
    - [float] : an IEEE-754 binary64 value, given by sign, integer
      significand and binary exponent (see [float]).
    - [None]-able values : [option]. *)

From Stdlib Require Import ZArith List Bool Lia Permutation Sorted.
From Stdlib.Strings Require Import Byte.
From Stdlib.Strings Require String Ascii.
Import String.StringSyntax.
Delimit Scope string_scope with string.
Import ListNotations.
Local Open Scope Z_scope.

(* ================================================================== *)
(** * Python [bytes] *)
(* ================================================================== *)

Definition bytes := list byte.

Definition byte_val (b : byte) : Z := Z.of_N (Byte.to_N b).

Definition byte_of_Z (z : Z) : byte :=
  match Byte.of_N (Z.to_N z) with
  | Some b => b
  | None => x00
  end.

Definition len {A} (l : list A) : Z := Z.of_nat (length l).

(** [data[i]]: a negative index counts from the end; [None] is
    [IndexError]. *)
Definition py_getitem {A} (data : list A) (i : Z) : option A :=
  if i <? 0
  then if i + len data <? 0 then None
       else nth_error data (Z.to_nat (i + len data))
  else nth_error data (Z.to_nat i).

(** Normalisation of a slice bound, as [PySlice_AdjustIndices] does for
    step 1. *)
Definition slice_bound {A} (data : list A) (i : Z) : Z :=
  if i <? 0 then Z.max 0 (i + len data) else Z.min i (len data).

(** [data[lo:hi]] *)
Definition slice {A} (data : list A) (lo hi : Z) : list A :=
  let l := slice_bound data lo in
  let h := slice_bound data hi in
  firstn (Z.to_nat (h - l)) (skipn (Z.to_nat l) data).

(** [data[lo:]] *)
Definition slice_from {A} (data : list A) (lo : Z) : list A :=
  skipn (Z.to_nat (slice_bound data lo)) data.

(** [data[:hi]] *)
Definition slice_to {A} (data : list A) (hi : Z) : list A :=
  firstn (Z.to_nat (slice_bound data hi)) data.

Fixpoint bytes_eqb (a b : bytes) : bool :=
  match a, b with
  | [], [] => true
  | x :: a', y :: b' => Byte.eqb x y && bytes_eqb a' b'
  | _, _ => false
  end.

Fixpoint starts_with (data pat : bytes) : bool :=
  match pat, data with
  | [], _ => true
  | _ :: _, [] => false
  | p :: pat', d :: data' => Byte.eqb p d && starts_with data' pat'
  end.

(** First offset [>= off] (relative to the list [off] stands at) where
    [pat] occurs. *)
Fixpoint find_from (data pat : bytes) (off : Z) : option Z :=
  if starts_with data pat then Some off
  else match data with
       | [] => None
       | _ :: data' => find_from data' pat (off + 1)
       end.

(** [data.find(pat, start)] for [0 <= start]; [None] is Python's [-1]. *)
Definition bytes_find (data pat : bytes) (start : Z) : option Z :=
  if len data <? start then None
  else find_from (skipn (Z.to_nat start) data) pat start.

(** [pat in data] *)
Definition contains (data pat : bytes) : bool :=
  match bytes_find data pat 0 with Some _ => true | None => false end.

(** A bytes literal from its ASCII text. *)
Definition b_ (s : String.string) : bytes := String.list_byte_of_string s.
Arguments b_ s%_string.

(* ================================================================== *)
(** * [decode_varint] *)
(* ================================================================== *)

(** The [while pos < len(data)] loop.  [fuel] is [len(data) - pos]: the
    loop body runs at most that often, and with no fuel left the loop
    condition is false, so both exits return [(result, pos)]. *)
Fixpoint decode_varint_loop (fuel : nat) (data : bytes)
    (result shift pos : Z) : option (Z * Z) :=
  match fuel with
  | O => Some (result, pos)
  | S fuel' =>
      if pos <? len data then
        match py_getitem data pos with
        | None => None
        | Some b =>
            let byte := byte_val b in
            let result := Z.lor result (Z.shiftl (Z.land byte 0x7F) shift) in
            let pos := pos + 1 in
            if Z.land byte 0x80 =? 0 then Some (result, pos)
            else decode_varint_loop fuel' data result (shift + 7) pos
        end
      else Some (result, pos)
  end.

(** [decode_varint(data, pos)]; [None] is the [IndexError] of
    [data[pos]] for [pos < -len(data)]. *)
Definition decode_varint (data : bytes) (pos : Z) : option (Z * Z) :=
  decode_varint_loop (Z.to_nat (len data - pos)) data 0 0 pos.

(** The standard base-128 varint encoder of protocol buffers (not part
    of the repository; the round-trip property refers to it):
    [while n >= 0x80: emit((n & 0x7F) | 0x80); n >>= 7] then [emit(n)]. *)
Fixpoint encode_varint_loop (fuel : nat) (n : Z) : bytes :=
  match fuel with
  | O => [byte_of_Z n]
  | S fuel' =>
      if n <? 0x80 then [byte_of_Z n]
      else byte_of_Z (Z.lor (Z.land n 0x7F) 0x80)
             :: encode_varint_loop fuel' (Z.shiftr n 7)
  end.

Definition encode_varint (n : Z) : bytes :=
  encode_varint_loop (Z.to_nat (Z.log2 n)) n.

(** The integer a varint byte sequence denotes: seven bits per byte,
    least significant group first. *)
Fixpoint varint_value (bs : bytes) : Z :=
  match bs with
  | [] => 0
  | b :: bs' => Z.lor (Z.land (byte_val b) 0x7F) (Z.shiftl (varint_value bs') 7)
  end.

Definition high_bit_set (b : byte) : Prop := Z.land (byte_val b) 0x80 <> 0.
Definition high_bit_clear (b : byte) : Prop := Z.land (byte_val b) 0x80 = 0.

(* ================================================================== *)
(** * Python [float]: IEEE-754 binary64 *)
(* ================================================================== *)

(** [FFin neg m e] is the finite number [(-1)^neg * m * 2^e] with
    [0 <= m < 2^53]; values read from bytes or produced by rounding are
    in canonical form ([2^52 <= m] and [-1074 < e], or [e = -1074]). *)
Inductive float :=
| FNaN
| FInf (neg : bool)
| FFin (neg : bool) (m e : Z).

(** The 64-bit pattern of eight bytes, least significant byte first. *)
Fixpoint le_uint (bs : bytes) : Z :=
  match bs with
  | [] => 0
  | b :: bs' => byte_val b + 256 * le_uint bs'
  end.

Definition float_of_bits (w : Z) : float :=
  let neg := Z.testbit w 63 in
  let E := Z.land (Z.shiftr w 52) 0x7FF in
  let F := Z.land w (2 ^ 52 - 1) in
  if E =? 0x7FF then (if F =? 0 then FInf neg else FNaN)
  else if E =? 0 then FFin neg F (-1074)
  else FFin neg (2 ^ 52 + F) (E - 1075).

(** [struct.unpack("<d", bs)[0]]; [None] is [struct.error] (the buffer
    is not 8 bytes long). *)
Definition unpack_d (bs : bytes) : option float :=
  if len bs =? 8 then Some (float_of_bits (le_uint bs)) else None.

(** Exact comparison of [sm * 2^e] with the integer [n]. *)
Definition compare_scaled (sm e n : Z) : comparison :=
  (sm * 2 ^ Z.max e 0) ?= (n * 2 ^ Z.max (- e) 0).

Definition signed (neg : bool) (m : Z) : Z := if neg then - m else m.

(** Python compares a float with an int by exact value; every comparison
    with NaN is false. *)
Definition float_compare_int (x : float) (n : Z) : option comparison :=
  match x with
  | FNaN => None
  | FInf neg => Some (if neg then Lt else Gt)
  | FFin neg m e => Some (compare_scaled (signed neg m) e n)
  end.

(** [x < n], [n < x], [x > n], [x == n] for a float [x] and an int [n]. *)
Definition float_lt_int (x : float) (n : Z) : bool :=
  match float_compare_int x n with Some Lt => true | _ => false end.
Definition int_lt_float (n : Z) (x : float) : bool :=
  match float_compare_int x n with Some Gt => true | _ => false end.
Definition float_gt_int (x : float) (n : Z) : bool := int_lt_float n x.
Definition float_eq_int (x : float) (n : Z) : bool :=
  match float_compare_int x n with Some Eq => true | _ => false end.

(** [abs(x)] *)
Definition float_abs (x : float) : float :=
  match x with
  | FNaN => FNaN
  | FInf _ => FInf false
  | FFin _ m e => FFin false m e
  end.

(** Exact comparison of two floats, [None] when one is NaN.  Finite
    values are compared by cross-scaling to the smaller exponent. *)
Definition float_compare (x y : float) : option comparison :=
  match x, y with
  | FNaN, _ | _, FNaN => None
  | FInf a, FInf b => Some (if a then (if b then Eq else Lt)
                            else (if b then Gt else Eq))
  | FInf a, FFin _ _ _ => Some (if a then Lt else Gt)
  | FFin _ _ _, FInf b => Some (if b then Gt else Lt)
  | FFin a m e, FFin b m' e' =>
      let lo := Z.min e e' in
      Some (signed a m * 2 ^ (e - lo) ?= signed b m' * 2 ^ (e' - lo))
  end.

(** [x == y], [x >= y], [x <= y] on floats. *)
Definition float_eqb (x y : float) : bool :=
  match float_compare x y with Some Eq => true | _ => false end.
Definition float_geb (x y : float) : bool :=
  match float_compare x y with Some Gt | Some Eq => true | _ => false end.
Definition float_leb (x y : float) : bool :=
  match float_compare x y with Some Lt | Some Eq => true | _ => false end.

(** Nearest integer to [num / den] ([0 <= num], [0 < den]), ties to the
    even one. *)
Definition round_half_even (num den : Z) : Z :=
  let q := num / den in
  let r := num mod den in
  match 2 * r ?= den with
  | Lt => q
  | Gt => q + 1
  | Eq => if Z.even q then q else q + 1
  end.

(** Exponent of the binary64 number nearest to [num / den]
    ([0 < num], [0 < den]): [floor (log2 (num / den)) - 52], not below
    the subnormal exponent. *)
Definition binade (num den : Z) : Z :=
  let l := Z.log2 num - Z.log2 den in
  let t := if num * 2 ^ Z.max (- l) 0 <? den * 2 ^ Z.max l 0
           then l - 1 else l in
  Z.max (t - 52) (-1074).

(** The binary64 number nearest to [(-1)^neg * num / den], ties to even
    (what [strtod] returns for a decimal numeral). *)
Definition nearest_double (neg : bool) (num den : Z) : float :=
  if num =? 0 then FFin neg 0 (-1074)
  else
    let e := binade num den in
    let m := round_half_even (num * 2 ^ Z.max (- e) 0)
                             (den * 2 ^ Z.max e 0) in
    let '(m, e) := if m =? 2 ^ 53 then (2 ^ 52, e + 1) else (m, e) in
    if 971 <? e then FInf neg else FFin neg m e.

(** [round(x, 2)].  CPython prints [x] to two decimals, correctly
    rounded (ties to even on the exact binary value), and reads the
    numeral back with [strtod]; NaN and infinities round to themselves.
    An overflowing result raises [OverflowError] in CPython; it is
    [FInf] here and cannot arise for [|x| < 10^7]. *)
Definition round2 (x : float) : float :=
  match x with
  | FNaN => FNaN
  | FInf neg => FInf neg
  | FFin neg m e =>
      let k := round_half_even (m * 100 * 2 ^ Z.max e 0) (2 ^ Z.max (- e) 0) in
      nearest_double neg k 100
  end.

(** The float a decimal literal [k / 100] denotes. *)
Definition float_of_cents (k : Z) : float :=
  nearest_double (k <? 0) (Z.abs k) 100.

(** [struct.pack("<d", x)] for the 64-bit pattern [w]. *)
Fixpoint le_bytes (n : nat) (w : Z) : bytes :=
  match n with
  | O => []
  | S n' => byte_of_Z (w mod 256) :: le_bytes n' (w / 256)
  end.

(* ================================================================== *)
(** * Python [str] *)
(* ================================================================== *)

(** A string is the list of its code points. *)
Definition str := list Z.

(** A str literal from its ASCII text. *)
Definition s_ (s : String.string) : str := map byte_val (b_ s).
Arguments s_ s%_string.

(** Python orders strings lexicographically by code point. *)
Definition str_compare (a b : str) : comparison :=
  list_compare Z.compare a b.

Definition str_eqb (a b : str) : bool :=
  match str_compare a b with Eq => true | _ => false end.
Definition str_ltb (a b : str) : bool :=
  match str_compare a b with Lt => true | _ => false end.
Definition str_leb (a b : str) : bool :=
  match str_compare a b with Gt => false | _ => true end.
Definition str_geb (a b : str) : bool := str_leb b a.

Fixpoint str_starts_with (s pat : str) : bool :=
  match pat, s with
  | [], _ => true
  | _ :: _, [] => false
  | p :: pat', c :: s' => (p =? c) && str_starts_with s' pat'
  end.

(** [pat in s] *)
Fixpoint str_contains (s pat : str) : bool :=
  str_starts_with s pat ||
  match s with
  | [] => false
  | _ :: s' => str_contains s' pat
  end.

(** Truth value of an [Optional[str]]: [None] and [""] are false. *)
Definition truthy (o : option str) : bool :=
  match o with
  | Some (_ :: _) => true
  | _ => false
  end.

(** [a or b] on [Optional[str]] *)
Definition py_or (a b : option str) : option str :=
  if truthy a then a else b.

Definition opt_eqb {A} (eqb : A -> A -> bool) (a b : option A) : bool :=
  match a, b with
  | None, None => true
  | Some x, Some y => eqb x y
  | _, _ => false
  end.

(** ** [bytes.decode("utf-8")] *)

Definition is_cont (b : byte) : bool :=
  (0x80 <=? byte_val b) && (byte_val b <=? 0xBF).

Definition cont_bits (b : byte) : Z := Z.land (byte_val b) 0x3F.

(** Strict UTF-8: stray or missing continuation bytes, overlong forms,
    surrogates and code points above U+10FFFF are errors ([None] is
    [UnicodeDecodeError]). *)
Fixpoint utf8_decode (bs : bytes) : option str :=
  match bs with
  | [] => Some []
  | b0 :: r0 =>
      let v0 := byte_val b0 in
      if v0 <? 0x80 then option_map (cons v0) (utf8_decode r0)
      else if v0 <? 0xC0 then None
      else if v0 <? 0xE0 then
        match r0 with
        | b1 :: r1 =>
            let cp := Z.lor (Z.shiftl (Z.land v0 0x1F) 6) (cont_bits b1) in
            if is_cont b1 && (0x80 <=? cp)
            then option_map (cons cp) (utf8_decode r1) else None
        | _ => None
        end
      else if v0 <? 0xF0 then
        match r0 with
        | b1 :: b2 :: r2 =>
            let cp := Z.lor (Z.shiftl (Z.land v0 0x0F) 12)
                        (Z.lor (Z.shiftl (cont_bits b1) 6) (cont_bits b2)) in
            if is_cont b1 && is_cont b2 && (0x800 <=? cp)
               && negb ((0xD800 <=? cp) && (cp <=? 0xDFFF))
            then option_map (cons cp) (utf8_decode r2) else None
        | _ => None
        end
      else if v0 <? 0xF8 then
        match r0 with
        | b1 :: b2 :: b3 :: r3 =>
            let cp := Z.lor (Z.shiftl (Z.land v0 0x07) 18)
                        (Z.lor (Z.shiftl (cont_bits b1) 12)
                           (Z.lor (Z.shiftl (cont_bits b2) 6) (cont_bits b3))) in
            if is_cont b1 && is_cont b2 && is_cont b3
               && (0x10000 <=? cp) && (cp <=? 0x10FFFF)
            then option_map (cons cp) (utf8_decode r3) else None
        | _ => None
        end
      else None
  end.

(** [range(n)] *)
Definition py_range (n : Z) : list Z := map Z.of_nat (seq 0 (Z.to_nat n)).

(* ================================================================== *)
(** * The record models *)
(* ================================================================== *)

(** [models/transaction.py].  The fields the decoder never sets keep
    their default [None] and are left out. *)
Module Transaction.
Record t := mk {
  transaction_id : str;
  amount : float;
  date : str;
  name : option str;
  original_name : option str;
  account_id : option str;
  category_id : option str;
  iso_currency_code : option str;
  pending : option bool;
  city : option str;
  region : option str
}.

(** [self.name or self.original_name or "Unknown"] *)
Definition display_name (self : t) : str :=
  match py_or (py_or (name self) (original_name self))
              (Some (s_ "Unknown")) with
  | Some s => s
  | None => s_ "Unknown"
  end.
End Transaction.

(** [models/account.py], with the same convention. *)
Module Account.
Record t := mk {
  account_id : str;
  current_balance : float;
  name : option str;
  official_name : option str;
  mask : option str;
  account_type : option str;
  subtype : option str;
  institution_name : option str
}.

(** [self.name or self.official_name or "Unknown"] *)
Definition display_name (self : t) : str :=
  match py_or (py_or (name self) (official_name self))
              (Some (s_ "Unknown")) with
  | Some s => s
  | None => s_ "Unknown"
  end.
End Account.

(** [models/category.py] *)
Module Category.
Record t := mk {
  category_id : str;
  name : str
}.
End Category.

(* ================================================================== *)
(** * Files, exceptions and the I/O monad *)
(* ================================================================== *)

Definition path := String.string.

(** A directory entry is a file that [open(...).read()] returns the
    contents of, or one for which it raises [OSError] (no permission, a
    directory named like a table file, ...). *)
Inductive file :=
| Readable (data : bytes)
| Unreadable.

Record dir_entry := {
  entry_name : String.string;
  entry_file : file
}.

(** [None]: the path does not exist. *)
Definition filesystem := path -> option (list dir_entry).

(** The exceptions of a run.  [FileNotFoundError p] is the one the
    decoders raise themselves for a missing directory [p].  [OSError name]
    is whatever [open] or [read] raises for the file [name]: an instance
    of the class [OSError], whichever subclass it is. *)
Inductive exn :=
| FileNotFoundError (p : path)
| OSError (name : String.string).

Inductive decoder := DecodeTransactions | DecodeAccounts.

(** What a run does to the outside world.  [EvCall] and [EvReturn] are
    ghost events: the query layer records them around each invocation
    of a decoder, so that invocations can be counted. *)
Inductive event :=
| EvExists (p : path)
| EvGlob (p : path)
| EvOpen (name : String.string)
| EvCall (d : decoder)
| EvReturn (d : decoder).

(** A computation reads the file system, logs its events and returns a
    value or raises. *)
Definition io (A : Type) : Type := filesystem -> list event * (exn + A).

Definition ret {A} (a : A) : io A := fun _ => ([], inr a).

Definition raise {A} (e : exn) : io A := fun _ => ([], inl e).

Definition bind {A B} (m : io A) (k : A -> io B) : io B :=
  fun fs =>
    match m fs with
    | (tr, inl e) => (tr, inl e)
    | (tr, inr a) => let '(tr', r) := k a fs in (tr ++ tr', r)
    end.

Notation "x <- m ;; k" := (bind m (fun x => k))
  (at level 61, m at next level, right associativity).

(** [db_path.exists()], for a path whose existence can be tested: the
    test answers.  (An error of the test other than "not found", such
    as a parent directory that may not be searched, is outside the file
    systems modelled here.) *)
Definition path_exists (p : path) : io bool :=
  fun fs => ([EvExists p],
             inr (match fs p with Some _ => true | None => false end)).

Definition ends_with (s suffix : String.string) : bool :=
  let n := String.length s in
  let k := String.length suffix in
  (k <=? n)%nat && String.eqb (String.substring (n - k) k s) suffix.
Arguments ends_with s%_string suffix%_string.

(** The pattern ["*.ldb"] (names compared case-sensitively, as on
    POSIX). *)
Definition is_ldb (f : dir_entry) : bool := ends_with (entry_name f) ".ldb".

(** [list(db_path.glob("*.ldb"))], in the order the directory yields its
    entries. *)
Definition glob_ldb (p : path) : io (list dir_entry) :=
  fun fs => ([EvGlob p],
             inr (filter is_ldb
                    (match fs p with Some entries => entries | None => [] end))).

(** [with open(filepath, "rb") as f: data = f.read()] *)
Definition read_file (f : dir_entry) : io bytes :=
  fun _ => ([EvOpen (entry_name f)],
            match entry_file f with
            | Readable data => inr data
            | Unreadable => inl (OSError (entry_name f))
            end).

(** [for filepath in ldb_files: body], threading the list the body
    appends to. *)
Fixpoint for_files {S} (files : list dir_entry)
    (body : dir_entry -> S -> io S) (acc : S) : io S :=
  match files with
  | [] => ret acc
  | f :: rest => acc' <- body f acc ;; for_files rest body acc'
  end.

Section Decoder.

(** The Unicode character database is not part of the repository: the
    classification of the code points above U+007F is a parameter. *)
Variable uni_printable : Z -> bool.   (* [str.isprintable] above ASCII *)
Variable uni_digit : Z -> bool.       (* regex [\d] above ASCII *)

Definition char_printable (c : Z) : bool :=
  if c <? 0x80 then (0x20 <=? c) && (c <? 0x7F) else uni_printable c.

(** [value.isprintable()] *)
Definition isprintable (value : str) : bool := forallb char_printable value.

(* ================================================================== *)
(** * The value extractors *)
(* ================================================================== *)

(** The [for i in range(len(after) - 3)] loop of [extract_string_value].
    [after[i + 2]] is in range for every [i] of that range. *)
Fixpoint string_scan (after : bytes) (indices : list Z) : option str :=
  match indices with
  | [] => None
  | i :: rest =>
      if bytes_eqb (slice after i (i + 2)) [x8a; x01] then
        match py_getitem after (i + 2) with
        | None => None
        | Some b =>
            let str_len := byte_val b in
            if (0 <? str_len) && (str_len <? 100) then
              match utf8_decode (slice after (i + 3) (i + 3 + str_len)) with
              | Some value =>
                  if isprintable value then Some value
                  else string_scan after rest
              | None => string_scan after rest
              end
            else string_scan after rest
        end
      else string_scan after rest
  end.

Definition extract_string_value (data field_name : bytes) : option str :=
  match bytes_find data field_name 0 with
  | None => None
  | Some idx =>
      let search_start := idx + len field_name in
      let search_end := Z.min (len data) (search_start + 50) in
      let after := slice data search_start search_end in
      string_scan after (py_range (len after - 3))
  end.

(** The [for i in range(len(chunk) - 9)] loop of
    [extract_double_value]. *)
Fixpoint double_scan (chunk : bytes) (indices : list Z) : option float :=
  match indices with
  | [] => None
  | i :: rest =>
      match py_getitem chunk i with
      | None => None
      | Some b =>
          if byte_val b =? 0x19 then
            match unpack_d (slice chunk (i + 1) (i + 9)) with
            | Some val =>
                if int_lt_float (-10000000) val && float_lt_int val 10000000
                then Some (round2 val)
                else double_scan chunk rest
            | None => double_scan chunk rest
            end
          else double_scan chunk rest
      end
  end.

Definition extract_double_value (data : bytes) (start_pos max_search : Z)
  : option float :=
  let chunk := slice data start_pos (start_pos + max_search) in
  double_scan chunk (py_range (len chunk - 9)).

(** The [for i in range(len(after) - 2)] loop of
    [extract_boolean_value]. *)
Fixpoint boolean_scan (after : bytes) (indices : list Z) : option bool :=
  match indices with
  | [] => None
  | i :: rest =>
      match py_getitem after i with
      | None => None
      | Some b =>
          if byte_val b =? 0x08 then
            match py_getitem after (i + 1) with
            | None => None
            | Some v => Some (negb (byte_val v =? 0))
            end
          else boolean_scan after rest
      end
  end.

Definition extract_boolean_value (data field_name : bytes) : option bool :=
  match bytes_find data field_name 0 with
  | None => None
  | Some idx =>
      let search_start := idx + len field_name in
      let search_end := Z.min (len data) (search_start + 20) in
      let after := slice data search_start search_end in
      boolean_scan after (py_range (len after - 2))
  end.


(* ================================================================== *)
(** * Record construction (pydantic validation) *)
(* ================================================================== *)

(** Regex class [\d] *)
Definition is_digit (c : Z) : bool :=
  if c <? 0x80 then (0x30 <=? c) && (c <=? 0x39) else uni_digit c.

(** [Field(pattern=r"^\d{4}-\d{2}-\d{2}$")] *)
Definition date_pattern (s : str) : bool :=
  match s with
  | [y1; y2; y3; y4; d1; m1; m2; d2; a1; a2] =>
      is_digit y1 && is_digit y2 && is_digit y3 && is_digit y4
      && (d1 =? 0x2D) && is_digit m1 && is_digit m2
      && (d2 =? 0x2D) && is_digit a1 && is_digit a2
  | _ => false
  end.

(** [validate_amount_range]: [abs(v) > 10_000_000] raises. *)
Definition validate_amount_range (v : float) : bool :=
  negb (float_gt_int (float_abs v) 10000000).

(** [Transaction(...)]; [None] is pydantic's [ValidationError]. *)
Definition new_Transaction (transaction_id : str) (amount : float)
    (date : str) (name original_name account_id category_id
    iso_currency_code : option str) (pending : option bool)
    (city region : option str) : option Transaction.t :=
  if validate_amount_range amount && date_pattern date
  then Some (Transaction.mk transaction_id amount date name original_name
               account_id category_id iso_currency_code pending city region)
  else None.

(** [Account(...)]: no validator, the field types hold by construction. *)
Definition new_Account (account_id : str) (name official_name account_type
    subtype mask : option str) (current_balance : float)
    (institution_name : option str) : option Account.t :=
  Some (Account.mk account_id current_balance name official_name mask
          account_type subtype institution_name).

(* ================================================================== *)
(** * [decode_transactions] *)
(* ================================================================== *)

(** The record assembler: the presence test and the guarded
    construction ([try: ... except Exception: continue]).  [None]: the
    candidate is skipped. *)
Definition assemble_transaction (amount : float) (name original_name date
    category_id account_id transaction_id iso_currency_code : option str)
    (pending : option bool) (city region : option str)
  : option Transaction.t :=
  let display_name := py_or name original_name in
  if truthy display_name && truthy transaction_id && truthy date then
    match transaction_id, date with
    | Some transaction_id, Some date =>
        new_Transaction transaction_id amount date name original_name
          account_id category_id iso_currency_code pending city region
    | _, _ => None
    end
  else None.

(** The body of the [while True] loop for the anchor found at [idx]. *)
Definition transaction_candidate (data : bytes) (idx : Z)
  : option Transaction.t :=
  match extract_double_value data (idx + 8) 20 with
  | None => None
  | Some amount =>
      if float_eq_int amount 0 then None
      else
        let record_start := Z.max 0 (idx - 1500) in
        let record_end := Z.min (len data) (idx + 1500) in
        let record := slice data record_start record_end in
        let name := extract_string_value record ([x0a; x04] ++ b_ "name") in
        let original_name := extract_string_value record (b_ "original_name") in
        let date := extract_string_value record (b_ "original_date") in
        let category_id := extract_string_value record (b_ "category_id") in
        let account_id := extract_string_value record (b_ "account_id") in
        let transaction_id := extract_string_value record (b_ "transaction_id") in
        let iso_currency_code :=
          extract_string_value record (b_ "iso_currency_code") in
        let pending := extract_boolean_value record (b_ "pending") in
        let city := extract_string_value record ([x0a; x04] ++ b_ "city") in
        let region := extract_string_value record ([x0a; x06] ++ b_ "region") in
        assemble_transaction amount name original_name date category_id
          account_id transaction_id iso_currency_code pending city region
  end.

(** [transactions.append(txn)] when there is a [txn]. *)
Definition append_opt {A} (l : list A) (o : option A) : list A :=
  match o with
  | Some x => l ++ [x]
  | None => l
  end.

(** The anchor loop [while True: idx = data.find(anchor, search_pos) ...]
    shared by both decoders.  Every round moves [search_pos] forward, so
    [len(data) + 1] rounds are enough (see [anchor_scan_eq]). *)
Fixpoint anchor_loop {A} (fuel : nat) (anchor : bytes)
    (candidate : bytes -> Z -> option A) (data : bytes) (search_pos : Z)
    (acc : list A) : list A :=
  match fuel with
  | O => acc
  | S fuel' =>
      match bytes_find data anchor search_pos with
      | None => acc
      | Some idx =>
          let search_pos := idx + 1 in
          anchor_loop fuel' anchor candidate data search_pos
            (append_opt acc (candidate data idx))
      end
  end.

Definition anchor_scan {A} (anchor : bytes)
    (candidate : bytes -> Z -> option A) (data : bytes) (search_pos : Z)
    (acc : list A) : list A :=
  anchor_loop (S (length data)) anchor candidate data search_pos acc.

Definition amount_anchor : bytes := [x0a; x06] ++ b_ "amount".

(** The body of [for filepath in ldb_files] in [decode_transactions]. *)
Definition scan_transaction_file (filepath : dir_entry)
    (transactions : list Transaction.t) : io (list Transaction.t) :=
  data <- read_file filepath ;;
  if negb (contains data (b_ "amount"))
     || negb (contains data (b_ "original_name"))
  then ret transactions
  else ret (anchor_scan amount_anchor transaction_candidate data 0
              transactions).

(** Deduplication: [seen] is the set of keys met so far, [key_eqb] the
    equality of the keys ([==] on tuples; the identity shortcut Python
    takes before [==] matters for NaN only, which no key holds). *)
Fixpoint dedup_loop {A K} (key : A -> K) (key_eqb : K -> K -> bool)
    (items : list A) (seen : list K) (unique : list A) : list A :=
  match items with
  | [] => unique
  | x :: rest =>
      let k := key x in
      if existsb (key_eqb k) seen
      then dedup_loop key key_eqb rest seen unique
      else dedup_loop key key_eqb rest (k :: seen) (unique ++ [x])
  end.

Definition dedup {A K} (key : A -> K) (key_eqb : K -> K -> bool)
    (items : list A) : list A :=
  dedup_loop key key_eqb items [] [].

Definition transaction_key (txn : Transaction.t) : str * float * str :=
  (Transaction.display_name txn, Transaction.amount txn, Transaction.date txn).

(** Equality of [(str, float, str)] tuples. *)
Definition transaction_key_eqb (k1 k2 : str * float * str) : bool :=
  let '(n1, a1, d1) := k1 in
  let '(n2, a2, d2) := k2 in
  str_eqb n1 n2 && float_eqb a1 a2 && str_eqb d1 d2.

(** [list.sort(key=..., reverse=True)]: a stable sort into descending
    key order.  [x] is put in front of the first element whose key is
    not greater than its own, so equal keys keep their order. *)
Fixpoint insert_desc {A} (key : A -> str) (x : A) (l : list A) : list A :=
  match l with
  | [] => [x]
  | y :: l' =>
      if str_ltb (key x) (key y) then y :: insert_desc key x l'
      else x :: l
  end.

Fixpoint sort_desc {A} (key : A -> str) (l : list A) : list A :=
  match l with
  | [] => []
  | x :: l' => insert_desc key x (sort_desc key l')
  end.

(** The candidates of all files, in scan order: everything before the
    deduplication. *)
Definition collect_transactions (db_path : path) : io (list Transaction.t) :=
  let transactions := [] in
  ex <- path_exists db_path ;;
  if negb ex then raise (FileNotFoundError db_path)
  else
    ldb_files <- glob_ldb db_path ;;
    for_files ldb_files scan_transaction_file transactions.

Definition decode_transactions (db_path : path) : io (list Transaction.t) :=
  transactions <- collect_transactions db_path ;;
  let unique := dedup transaction_key transaction_key_eqb transactions in
  ret (sort_desc Transaction.date unique).

(* ================================================================== *)
(** * [decode_accounts] *)
(* ================================================================== *)

Definition assemble_account (balance : float) (name official_name
    account_type subtype mask institution_name account_id : option str)
  : option Account.t :=
  if truthy account_id && truthy (py_or name official_name) then
    match account_id with
    | Some account_id =>
        new_Account account_id name official_name account_type subtype mask
          balance institution_name
    | None => None
    end
  else None.

Definition account_candidate (data : bytes) (idx : Z) : option Account.t :=
  let record_start := Z.max 0 (idx - 1000) in
  let record_end := Z.min (len data) (idx + 1000) in
  let record := slice data record_start record_end in
  let found := match bytes_find record (b_ "current_balance") 0 with
               | Some j => j
               | None => -1
               end in
  match extract_double_value record (found + 15) 20 with
  | None => None
  | Some balance =>
      let name := extract_string_value record ([x0a; x04] ++ b_ "name") in
      let official_name := extract_string_value record (b_ "official_name") in
      let account_type := extract_string_value record ([x0a; x04] ++ b_ "type") in
      let subtype := extract_string_value record (b_ "subtype") in
      let mask := extract_string_value record ([x0a; x04] ++ b_ "mask") in
      let institution_name :=
        extract_string_value record (b_ "institution_name") in
      let account_id := extract_string_value record (b_ "account_id") in
      assemble_account balance name official_name account_type subtype mask
        institution_name account_id
  end.

Definition scan_account_file (filepath : dir_entry)
    (accounts : list Account.t) : io (list Account.t) :=
  data <- read_file filepath ;;
  if negb (contains data (b_ "/accounts/")) then ret accounts
  else ret (anchor_scan (b_ "current_balance") account_candidate data 0
              accounts).

Definition account_key (acc : Account.t) : str * option str :=
  (Account.display_name acc, Account.mask acc).

Definition account_key_eqb (k1 k2 : str * option str) : bool :=
  str_eqb (fst k1) (fst k2) && opt_eqb str_eqb (snd k1) (snd k2).

Definition collect_accounts (db_path : path) : io (list Account.t) :=
  let accounts := [] in
  ex <- path_exists db_path ;;
  if negb ex then raise (FileNotFoundError db_path)
  else
    ldb_files <- glob_ldb db_path ;;
    for_files ldb_files scan_account_file accounts.

Definition decode_accounts (db_path : path) : io (list Account.t) :=
  accounts <- collect_accounts db_path ;;
  ret (dedup account_key account_key_eqb accounts).

(* ================================================================== *)
(** * [core/database.py]: the query layer *)
(* ================================================================== *)

(** [str.lower()] follows the Unicode character database as well. *)
Variable str_lower : str -> str.

(** The object state: [self.db_path], [self._transactions],
    [self._accounts]. *)
Record CopilotDatabase := {
  db_path : path;
  _transactions : option (list Transaction.t);
  _accounts : option (list Account.t)
}.

Definition default_location : String.string :=
  String.append "Library/Containers/com.copilot.production/Data/Library/"
    (String.append "Application Support/firestore/__FIRAPP_DEFAULT/"
       "copilot-production-22904/main").

(** [home / rel] for an absolute [home] as [pathlib] keeps it (no
    separator at the end, except for the root) and a relative [rel]: one
    separator stands between the two. *)
Definition path_join (home rel : path) : path :=
  if ends_with home "/" then String.append home rel
  else String.append home (String.append "/" rel).

(** [CopilotDatabase.__init__]; [home] is [Path.home()]. *)
Definition CopilotDatabase_init (home : path) (db_path : option path)
  : CopilotDatabase :=
  let db_path := match db_path with
                 | Some p => p
                 | None => path_join home default_location
                 end in
  {| db_path := db_path; _transactions := None; _accounts := None |}.

(** A method reads and updates the object, and performs I/O. *)
Definition method (A : Type) : Type :=
  CopilotDatabase -> filesystem -> list event * CopilotDatabase * (exn + A).

(** A decoder invoked from the query layer, with its ghost events. *)
Definition call_decoder {A} (d : decoder) (m : io A) : io A :=
  fun fs =>
    let '(tr, r) := m fs in
    (EvCall d :: tr ++ match r with inr _ => [EvReturn d] | inl _ => [] end,
     r).

(** [if self._transactions is None:
        self._transactions = decode_transactions(self.db_path)]
    and the value of [self._transactions] afterwards. *)
Definition load_transactions : method (list Transaction.t) :=
  fun self fs =>
    match _transactions self with
    | Some txns => ([], self, inr txns)
    | None =>
        match call_decoder DecodeTransactions
                (decode_transactions (db_path self)) fs with
        | (tr, inl e) => (tr, self, inl e)
        | (tr, inr txns) =>
            (tr, {| db_path := db_path self;
                    _transactions := Some txns;
                    _accounts := _accounts self |}, inr txns)
        end
    end.

(** The same for [self._accounts]. *)
Definition load_accounts : method (list Account.t) :=
  fun self fs =>
    match _accounts self with
    | Some accs => ([], self, inr accs)
    | None =>
        match call_decoder DecodeAccounts
                (decode_accounts (db_path self)) fs with
        | (tr, inl e) => (tr, self, inl e)
        | (tr, inr accs) =>
            (tr, {| db_path := db_path self;
                    _transactions := _transactions self;
                    _accounts := Some accs |}, inr accs)
        end
    end.

(** The rest of a method: a pure function of the loaded list. *)
Definition method_map {A B} (f : A -> B) (m : method A) : method B :=
  fun self fs =>
    match m self fs with
    | (tr, self', inl e) => (tr, self', inl e)
    | (tr, self', inr a) => (tr, self', inr (f a))
    end.

(** [if arg: result = [x for x in result if keep(arg, x)]] *)
Definition filter_if {A} (arg : option str) (keep : str -> A -> bool)
    (result : list A) : list A :=
  if truthy arg then
    match arg with
    | Some v => filter (keep v) result
    | None => result
    end
  else result.

(** [if arg is not None: result = [x for x in result if keep(arg, x)]] *)
Definition filter_if_not_none {A B} (arg : option B) (keep : B -> A -> bool)
    (result : list A) : list A :=
  match arg with
  | Some v => filter (keep v) result
  | None => result
  end.

Definition filter_transactions (start_date end_date category merchant
    account_id : option str) (min_amount max_amount : option float)
    (limit : Z) (transactions : list Transaction.t) : list Transaction.t :=
  let result := slice_from transactions 0 in
  let result := filter_if start_date
    (fun start_date txn => str_geb (Transaction.date txn) start_date) result in
  let result := filter_if end_date
    (fun end_date txn => str_leb (Transaction.date txn) end_date) result in
  let result := filter_if category
    (fun category txn =>
       let category_lower := str_lower category in
       truthy (Transaction.category_id txn) &&
       match Transaction.category_id txn with
       | Some cid => str_contains (str_lower cid) category_lower
       | None => false
       end) result in
  let result := filter_if merchant
    (fun merchant txn =>
       let merchant_lower := str_lower merchant in
       str_contains (str_lower (Transaction.display_name txn)) merchant_lower)
    result in
  let result := filter_if account_id
    (fun account_id txn =>
       opt_eqb str_eqb (Transaction.account_id txn) (Some account_id))
    result in
  let result := filter_if_not_none min_amount
    (fun min_amount txn => float_geb (Transaction.amount txn) min_amount)
    result in
  let result := filter_if_not_none max_amount
    (fun max_amount txn => float_leb (Transaction.amount txn) max_amount)
    result in
  slice_to result limit.

Definition get_transactions (start_date end_date category merchant
    account_id : option str) (min_amount max_amount : option float)
    (limit : Z) : method (list Transaction.t) :=
  method_map (filter_transactions start_date end_date category merchant
                account_id min_amount max_amount limit)
    load_transactions.

Definition search_transactions (query : str) (limit : Z)
  : method (list Transaction.t) :=
  method_map
    (fun transactions =>
       let query_lower := str_lower query in
       let result := filter
         (fun txn =>
            str_contains (str_lower (Transaction.display_name txn)) query_lower)
         transactions in
       slice_to result limit)
    load_transactions.

Definition get_accounts (account_type : option str)
  : method (list Account.t) :=
  method_map
    (fun accounts =>
       let result := slice_from accounts 0 in
       filter_if account_type
         (fun account_type acc =>
            let account_type_lower := str_lower account_type in
            truthy (Account.account_type acc) &&
            match Account.account_type acc with
            | Some ty => str_contains (str_lower ty) account_type_lower
            | None => false
            end) result)
    load_accounts.

(** The loop of [get_categories]. *)
Fixpoint categories_loop (transactions : list Transaction.t)
    (seen_categories : list str) (unique_categories : list Category.t)
  : list Category.t :=
  match transactions with
  | [] => unique_categories
  | txn :: rest =>
      match Transaction.category_id txn with
      | Some cid =>
          if truthy (Some cid) && negb (existsb (str_eqb cid) seen_categories)
          then categories_loop rest (cid :: seen_categories)
                 (unique_categories ++ [Category.mk cid cid])
          else categories_loop rest seen_categories unique_categories
      | None => categories_loop rest seen_categories unique_categories
      end
  end.

Definition get_categories : method (list Category.t) :=
  method_map (fun transactions => categories_loop transactions [] [])
    load_transactions.

(** A call of one of the four query methods, with its arguments. *)
Inductive call :=
| GetTransactions (start_date end_date category merchant account_id
                   : option str) (min_amount max_amount : option float)
                  (limit : Z)
| SearchTransactions (query : str) (limit : Z)
| GetAccounts (account_type : option str)
| GetCategories.

(** The decoded collection a call reads. *)
Definition call_decoder_of (c : call) : decoder :=
  match c with
  | GetAccounts _ => DecodeAccounts
  | _ => DecodeTransactions
  end.

Inductive answer :=
| Transactions (l : list Transaction.t)
| Accounts (l : list Account.t)
| Categories (l : list Category.t).

Definition run_call (c : call) : method answer :=
  match c with
  | GetTransactions sd ed cat mer aid mn mx limit =>
      method_map Transactions
        (get_transactions sd ed cat mer aid mn mx limit)
  | SearchTransactions query limit =>
      method_map Transactions (search_transactions query limit)
  | GetAccounts account_type =>
      method_map Accounts (get_accounts account_type)
  | GetCategories => method_map Categories get_categories
  end.

(** A session: calls on one object, each against the file system as it
    is at the time of the call.  The result is the whole event log and
    the final object. *)
Fixpoint run_calls (calls : list (filesystem * call))
    (self : CopilotDatabase) : list event * CopilotDatabase :=
  match calls with
  | [] => ([], self)
  | (fs, c) :: rest =>
      let '(tr, self', _) := run_call c self fs in
      let '(tr', self'') := run_calls rest self' in
      (tr ++ tr', self'')
  end.

Definition count_event (e : event -> bool) (tr : list event) : nat :=
  length (filter e tr).

Definition is_call (d : decoder) (e : event) : bool :=
  match e, d with
  | EvCall DecodeTransactions, DecodeTransactions => true
  | EvCall DecodeAccounts, DecodeAccounts => true
  | _, _ => false
  end.

Definition is_return (d : decoder) (e : event) : bool :=
  match e, d with
  | EvReturn DecodeTransactions, DecodeTransactions => true
  | EvReturn DecodeAccounts, DecodeAccounts => true
  | _, _ => false
  end.

Definition is_open (e : event) : bool :=
  match e with
  | EvOpen _ => true
  | _ => false
  end.

(** The cache a decoder fills, as "present or not" and as a value. *)
Definition cache_filled (d : decoder) (self : CopilotDatabase) : bool :=
  match d with
  | DecodeTransactions =>
      match _transactions self with Some _ => true | None => false end
  | DecodeAccounts =>
      match _accounts self with Some _ => true | None => false end
  end.

(* ================================================================== *)
(** * The vocabulary of the properties *)
(* ================================================================== *)

(** ** Floats *)

(** Neither NaN nor an infinity. *)
Definition is_finite (x : float) : Prop :=
  match x with
  | FFin _ _ _ => True
  | _ => False
  end.

(** [|x| <= n] and [|x| < n] by exact value, for a finite [x]. *)
Definition abs_le (x : float) (n : Z) : Prop :=
  float_compare_int (float_abs x) n = Some Lt \/
  float_compare_int (float_abs x) n = Some Eq.

Definition abs_lt (x : float) (n : Z) : Prop :=
  float_compare_int (float_abs x) n = Some Lt.

(** [x] is [round(v, 2)] of some number: the float nearest to a decimal
    with two places. *)
Definition two_decimals (x : float) : Prop :=
  exists neg k, 0 <= k /\ x = nearest_double neg k 100.

(** What [extract_double_value] can return. *)
Definition plausible_amount (x : float) : Prop :=
  is_finite x /\ abs_le x 10000000 /\ two_decimals x.

(** The amount of an assembled transaction: finite, a two-decimal
    number of magnitude at most [10^7], and not zero. *)
Definition good_amount (t : Transaction.t) : Prop :=
  plausible_amount (Transaction.amount t) /\
  float_eq_int (Transaction.amount t) 0 = false.

(** ** Deduplication *)

(** A later element never has the key of an earlier one. *)
Definition fresh_keys {A K} (key : A -> K) (key_eqb : K -> K -> bool)
    (unique : list A) : Prop :=
  ForallOrdPairs (fun a b => key_eqb (key b) (key a) = false) unique.

(** [x] stands in [items] before every item sharing its key. *)
Definition first_of_key {A K} (key : A -> K) (key_eqb : K -> K -> bool)
    (items : list A) (x : A) : Prop :=
  exists pre post, items = pre ++ x :: post /\
    forall z, In z pre -> key_eqb (key x) (key z) = false.

(** [z] is kept, or a kept element has its key. *)
Definition represented {A K} (key : A -> K) (key_eqb : K -> K -> bool)
    (unique : list A) (z : A) : Prop :=
  In z unique \/ exists u, In u unique /\ key_eqb (key z) (key u) = true.

(** What holds of the kept elements once [processed] has gone through
    the loop. *)
Definition dedup_post {A K} (key : A -> K) (key_eqb : K -> K -> bool)
    (processed unique : list A) : Prop :=
  fresh_keys key key_eqb unique /\
  (forall x, In x unique -> first_of_key key key_eqb processed x) /\
  (forall z, In z processed -> represented key key_eqb unique z).

(** ** Order *)

(** [a] may stand before [b]: its key is not smaller. *)
Definition key_ge {A} (key : A -> str) (a b : A) : Prop :=
  str_leb (key b) (key a) = true.

(** ** Files *)

(** Both per-file bodies read the file and then compute without I/O. *)
Definition file_step {S} (body : dir_entry -> S -> io S)
    (step : bytes -> S -> S) : Prop :=
  forall f acc fs,
    body f acc fs
    = ([EvOpen (entry_name f)],
       match entry_file f with
       | Readable data => inr (step data acc)
       | Unreadable => inl (OSError (entry_name f))
       end).

(** What [scan_transaction_file] does with the bytes of a file. *)
Definition transaction_step (data : bytes) (transactions : list Transaction.t)
  : list Transaction.t :=
  if negb (contains data (b_ "amount"))
     || negb (contains data (b_ "original_name"))
  then transactions
  else anchor_scan amount_anchor transaction_candidate data 0 transactions.

(** What [scan_account_file] does with the bytes of a file. *)
Definition account_step (data : bytes) (accounts : list Account.t)
  : list Account.t :=
  if negb (contains data (b_ "/accounts/")) then accounts
  else anchor_scan (b_ "current_balance") account_candidate data 0 accounts.

Definition readable (f : dir_entry) : Prop :=
  exists data, entry_file f = Readable data.

(** ** The cache *)

(** A decoded collection of either kind. *)
Inductive collection :=
| TransactionList (l : list Transaction.t)
| AccountList (l : list Account.t).

(** The collection [self] holds for decoder [d], if any. *)
Definition cache (d : decoder) (self : CopilotDatabase) : option collection :=
  match d with
  | DecodeTransactions => option_map TransactionList (_transactions self)
  | DecodeAccounts => option_map AccountList (_accounts self)
  end.

(** Either decoder, returning its collection. *)
Definition run_decoder (d : decoder) (p : path) : io collection :=
  fun fs =>
    match d with
    | DecodeTransactions =>
        let '(tr, r) := decode_transactions p fs in
        (tr, match r with inl e => inl e | inr l => inr (TransactionList l) end)
    | DecodeAccounts =>
        let '(tr, r) := decode_accounts p fs in
        (tr, match r with inl e => inl e | inr l => inr (AccountList l) end)
    end.

(** The lazy load of either collection. *)
Definition load (d : decoder) : method collection :=
  match d with
  | DecodeTransactions => method_map TransactionList load_transactions
  | DecodeAccounts => method_map AccountList load_accounts
  end.

(** What a call answers when it reads the decoded collection [v]: the
    filters of the method applied to the list [v] holds.  ([None]: [v]
    is not the kind of collection the call reads.) *)
Definition answer_from (c : call) (v : collection) : option answer :=
  match c, v with
  | GetTransactions sd ed cat mer aid mn mx limit, TransactionList l =>
      Some (Transactions (filter_transactions sd ed cat mer aid mn mx limit l))
  | SearchTransactions query limit, TransactionList l =>
      Some (Transactions
              (slice_to
                 (filter
                    (fun txn =>
                       str_contains (str_lower (Transaction.display_name txn))
                         (str_lower query)) l) limit))
  | GetAccounts account_type, AccountList l =>
      Some (Accounts
              (filter_if account_type
                 (fun account_type acc =>
                    truthy (Account.account_type acc) &&
                    match Account.account_type acc with
                    | Some ty =>
                        str_contains (str_lower ty) (str_lower account_type)
                    | None => false
                    end) (slice_from l 0)))
  | GetCategories, TransactionList l =>
      Some (Categories (categories_loop l [] []))
  | _, _ => None
  end.

(** What a method call does besides computing its answer. *)
Definition effect {A} (x : list event * CopilotDatabase * (exn + A))
  : list event * CopilotDatabase * option exn :=
  let '(tr, self, r) := x in
  (tr, self, match r with inl e => Some e | inr _ => None end).

(** The events that are not ghost events. *)
Definition io_event (e : event) : bool :=
  match e with
  | EvCall _ | EvReturn _ => false
  | _ => true
  end.

Definition decoder_eqb (d d' : decoder) : bool :=
  match d, d' with
  | DecodeTransactions, DecodeTransactions => true
  | DecodeAccounts, DecodeAccounts => true
  | _, _ => false
  end.


(** ** Anchors *)

(** [pat] occurs in [data] at offset [i]: [data[i : i + len(pat)] == pat]. *)
Definition occurs_at (data pat : bytes) (i : Z) : Prop :=
  0 <= i /\ slice data i (i + len pat) = pat.

(** The anchor loop's work at the offsets [offsets], in that order. *)
Definition visit_all {A} (candidate : bytes -> Z -> option A) (data : bytes)
    (offsets : list Z) (acc : list A) : list A :=
  fold_left (fun acc idx => append_opt acc (candidate data idx)) offsets acc.

(** ** Decoded records *)

(** An extracted string: not empty, printable, at most 47 characters. *)
Definition extracted (v : str) : Prop :=
  v <> [] /\ isprintable v = true /\ (length v <= 47)%nat.

Definition extracted_opt (o : option str) : Prop :=
  match o with
  | Some v => extracted v
  | None => True
  end.

(** What holds of the fields of every transaction the decoder builds. *)
Definition well_formed_transaction (t : Transaction.t) : Prop :=
  extracted (Transaction.transaction_id t) /\
  extracted (Transaction.date t) /\
  date_pattern (Transaction.date t) = true /\
  extracted_opt (Transaction.name t) /\
  extracted_opt (Transaction.original_name t) /\
  extracted_opt (Transaction.account_id t) /\
  extracted_opt (Transaction.category_id t) /\
  extracted_opt (Transaction.iso_currency_code t) /\
  extracted_opt (Transaction.city t) /\
  extracted_opt (Transaction.region t) /\
  Some (Transaction.display_name t)
  = py_or (Transaction.name t) (Transaction.original_name t).

(** What holds of the fields of every account the decoder builds. *)
Definition well_formed_account (a : Account.t) : Prop :=
  extracted (Account.account_id a) /\
  plausible_amount (Account.current_balance a) /\
  extracted_opt (Account.name a) /\
  extracted_opt (Account.official_name a) /\
  extracted_opt (Account.mask a) /\
  extracted_opt (Account.account_type a) /\
  extracted_opt (Account.subtype a) /\
  extracted_opt (Account.institution_name a) /\
  Some (Account.display_name a)
  = py_or (Account.name a) (Account.official_name a).

(** The candidates a table file holds on its own. *)
Definition file_transactions (f : dir_entry) : list Transaction.t :=
  match entry_file f with
  | Readable data => transaction_step data []
  | Unreadable => []
  end.

Definition file_accounts (f : dir_entry) : list Account.t :=
  match entry_file f with
  | Readable data => account_step data []
  | Unreadable => []
  end.

(** The [open] events of the files [files], in order. *)
Definition opens (files : list dir_entry) : list event :=
  map (fun f => EvOpen (entry_name f)) files.

(** [t] with another amount. *)
Definition with_amount (t : Transaction.t) (amount : float) : Transaction.t :=
  Transaction.mk (Transaction.transaction_id t) amount (Transaction.date t)
    (Transaction.name t) (Transaction.original_name t)
    (Transaction.account_id t) (Transaction.category_id t)
    (Transaction.iso_currency_code t) (Transaction.pending t)
    (Transaction.city t) (Transaction.region t).

(** ** The query layer *)

(** [CopilotDatabase.is_available]:
    [self.db_path.exists() and any(self.db_path.glob("*.ldb"))]. *)
Definition is_available (self : CopilotDatabase) : io bool :=
  ex <- path_exists (db_path self) ;;
  if ex then
    ldb_files <- glob_ldb (db_path self) ;;
    ret (match ldb_files with [] => false | _ :: _ => true end)
  else ret false.

(** [sub] is [l] with some elements left out. *)
Inductive sublist {A} : list A -> list A -> Prop :=
| sublist_nil : sublist [] []
| sublist_keep x sub l : sublist sub l -> sublist (x :: sub) (x :: l)
| sublist_drop x sub l : sublist sub l -> sublist sub (x :: l).

(** ** [utils/date_utils.py] *)

(** [calendar.isleap] *)
Definition isleap (year : Z) : bool :=
  (year mod 4 =? 0) && (negb (year mod 100 =? 0) || (year mod 400 =? 0)).

(** The number of days [calendar.monthrange(year, month)] answers, for
    [1 <= month <= 12]. *)
Definition month_days (year month : Z) : Z :=
  nth (Z.to_nat month) [0; 31; 28; 31; 30; 31; 30; 31; 31; 30; 31; 30; 31] 0
  + (if (month =? 2) && isleap year then 1 else 0).

(** The decimal digits of [n >= 0], most significant first. *)
Fixpoint decimal_loop (fuel : nat) (n : Z) (acc : str) : str :=
  match fuel with
  | O => acc
  | S fuel' =>
      let acc := (0x30 + n mod 10) :: acc in
      if n / 10 =? 0 then acc else decimal_loop fuel' (n / 10) acc
  end.

Definition decimal (n : Z) : str :=
  decimal_loop (S (Z.to_nat (Z.log2 n))) n [].

(** [format(n, "0{width}d")]: the sign, then zeros up to the width,
    then the digits. *)
Definition format_0d (width n : Z) : str :=
  let digits := decimal (Z.abs n) in
  let sign := if n <? 0 then [0x2D] else [] in
  sign ++ repeat 0x30 (Z.to_nat (width - len sign - len digits)) ++ digits.

Inductive value_error := ValueError (message : str).

(** [get_month_range(year, month)] *)
Definition get_month_range (year month : Z) : value_error + (str * str) :=
  if negb ((1 <=? month) && (month <=? 12)) then
    inl (ValueError (s_ "Month must be between 1 and 12, got "
                     ++ format_0d 0 month))
  else
    let last_day := month_days year month in
    let start := format_0d 4 year ++ s_ "-" ++ format_0d 2 month ++ s_ "-01" in
    let end_ := format_0d 4 year ++ s_ "-" ++ format_0d 2 month ++ s_ "-"
                ++ format_0d 2 last_day in
    inr (start, end_).

(** What a valid month range looks like: two dates of the form the
    transactions have, the first of the month and a later day of the
    same month. *)
Definition month_range_ok (range : value_error + (str * str)) : bool :=
  match range with
  | inl _ => false
  | inr (start, end_) =>
      date_pattern start && date_pattern end_ && str_leb start end_
      && str_eqb (firstn 8 start) (firstn 8 end_)
      && str_eqb (skipn 8 start) (s_ "01")
  end.

(** The years of [datetime] and the months. *)
Definition years : list Z := map Z.of_nat (seq 1 (Z.to_nat 9999)).
Definition months : list Z := map Z.of_nat (seq 1 (Z.to_nat 12)).

(** ** [tools/tools.py]: [get_account_balance] *)

(** The dictionary [get_account_balance] returns.  [available_balance]
    is a field the decoder never sets: it is always [None]. *)
Record balance_info := {
  info_account_id : str;
  info_name : str;
  info_account_type : option str;
  info_current_balance : float;
  info_available_balance : option float;
  info_mask : option str;
  info_institution_name : option str
}.

(** What a tool raises: an exception of the layers below, or its own
    [ValueError]. *)
Inductive tool_exn :=
| Raised (e : exn)
| ToolValueError (message : str).

(** [next((acc for acc in accounts if acc.account_id == account_id), None)] *)
Definition find_account (account_id : str) (accounts : list Account.t)
  : option Account.t :=
  find (fun acc => str_eqb (Account.account_id acc) account_id) accounts.

Definition get_account_balance (account_id : str) (self : CopilotDatabase)
    (fs : filesystem)
  : list event * CopilotDatabase * (tool_exn + balance_info) :=
  match get_accounts None self fs with
  | (tr, self', inl e) => (tr, self', inl (Raised e))
  | (tr, self', inr accounts) =>
      match find_account account_id accounts with
      | None =>
          (tr, self',
           inl (ToolValueError (s_ "Account not found: " ++ account_id)))
      | Some account =>
          (tr, self',
           inr {| info_account_id := Account.account_id account;
                  info_name := Account.display_name account;
                  info_account_type := Account.account_type account;
                  info_current_balance := Account.current_balance account;
                  info_available_balance := None;
                  info_mask := Account.mask account;
                  info_institution_name := Account.institution_name account |})
      end
  end.

(* ================================================================== *)
(** * Sample inputs *)
(* ================================================================== *)

(** A character database that knows ASCII only. *)
Definition ascii_only (c : Z) : bool := false.

(** Lower-casing of the ASCII letters. *)
Definition ascii_lower (s : str) : str :=
  map (fun c => if (0x41 <=? c) && (c <=? 0x5A) then c + 32 else c) s.

(** A length-prefixed string value after its field name. *)
Definition string_field (field_name value : bytes) : bytes :=
  field_name ++ [x8a; x01; byte_of_Z (len value)] ++ value.

(** The bit patterns of the doubles 12.34 and 9999999.999. *)
Definition bits_12_34 : Z := 0x4028AE147AE147AE.
Definition bits_9999999_999 : Z := 0x416312CFFFF7CED9.

(** A stored transaction: the amount anchor with its double, one more
    byte, then the string fields. *)
Definition sample_record (amount_bits : Z)
    (name date transaction_id : String.string) : bytes :=
  amount_anchor ++ [x19] ++ le_bytes 8 amount_bits ++ [x00]
  ++ string_field ([x0a; x04] ++ b_ "name") (b_ name)
  ++ string_field (b_ "original_name") (b_ "ORIGINAL")
  ++ string_field (b_ "original_date") (b_ date)
  ++ string_field (b_ "transaction_id") (b_ transaction_id).
Arguments sample_record amount_bits name%_string date%_string
  transaction_id%_string.

(** A stored record with an amount and a name but no identifier and no
    date. *)
Definition incomplete_record : bytes :=
  amount_anchor ++ [x19] ++ le_bytes 8 bits_12_34 ++ [x00]
  ++ string_field (b_ "original_name") (b_ "ORIGINAL").

Definition table_file (name : String.string) (data : bytes) : dir_entry :=
  {| entry_name := name; entry_file := Readable data |}.
Arguments table_file name%_string data.

Definition directory (entries : list dir_entry) : filesystem :=
  fun p => if String.eqb p "db" then Some entries else None.

(** Four table files with three distinct transactions, an empty table
    file and a file that is not a table file. *)
Definition sample_entries : list dir_entry :=
  [ table_file "000001.ldb" (sample_record bits_12_34 "Cafe" "2024-01-15" "t-1");
    table_file "000002.ldb" (sample_record bits_12_34 "Shop" "2024-03-01" "t-2");
    table_file "000003.ldb" (sample_record bits_12_34 "Cafe" "2024-01-15" "t-3");
    table_file "000004.ldb" [];
    {| entry_name := "LOCK"%string; entry_file := Unreadable |};
    table_file "000005.ldb" (sample_record bits_12_34 "Bar" "2024-01-15" "t-4") ].

Definition sample_fs : filesystem := directory sample_entries.

(** The same directory with a table file that cannot be read. *)
Definition unreadable_fs : filesystem :=
  directory ({| entry_name := "000000.ldb"%string; entry_file := Unreadable |}
             :: sample_entries).

(** A table file whose only transaction has the amount 9999999.999. *)
Definition ceiling_fs : filesystem :=
  directory [ table_file "000001.ldb"
                (sample_record bits_9999999_999 "Cafe" "2024-01-15" "t-1") ].

(** A stored account: the marker of the accounts collection, the
    balance anchor with its double, one more byte, then the string
    fields. *)
Definition sample_account (name account_id mask : String.string) : bytes :=
  b_ "/accounts/" ++ b_ "current_balance" ++ [x19] ++ le_bytes 8 bits_12_34
  ++ [x00]
  ++ string_field ([x0a; x04] ++ b_ "name") (b_ name)
  ++ string_field (b_ "account_id") (b_ account_id)
  ++ string_field ([x0a; x04] ++ b_ "mask") (b_ mask)
  ++ string_field ([x0a; x04] ++ b_ "type") (b_ "Checking").
Arguments sample_account name%_string account_id%_string mask%_string.

(** Two table files with an account each, under the same identifier, and
    a table file with a transaction that has a category. *)
Definition accounts_entries : list dir_entry :=
  [ table_file "000001.ldb" (sample_account "Everyday" "acc-1" "1234");
    table_file "000002.ldb" (sample_account "Joint" "acc-1" "9876");
    table_file "000003.ldb"
      (sample_record bits_12_34 "Cafe" "2024-01-15" "t-1"
       ++ string_field (b_ "category_id") (b_ "Food")) ].

Definition accounts_fs : filesystem := directory accounts_entries.

(** A table file with two amount anchors in front of one set of string
    fields. *)
Definition two_amounts_record : bytes :=
  amount_anchor ++ [x19] ++ le_bytes 8 bits_9999999_999 ++ [x00]
  ++ sample_record bits_12_34 "Cafe" "2024-01-15" "t-1".

(** A directory without table files. *)
Definition no_tables_fs : filesystem :=
  directory [ {| entry_name := "LOCK"%string; entry_file := Unreadable |} ].
(* ================================================================== *)
(** * Properties of [decode_varint] *)
(* ================================================================== *)

Lemma byte_val_range (b : byte) : 0 <= byte_val b < 256.
Proof.
  unfold byte_val. pose proof (Byte.to_N_bounded b) as H. lia.
Qed.

Lemma byte_val_of_Z (z : Z) : 0 <= z < 256 -> byte_val (byte_of_Z z) = z.
Proof.
  intros Hz. unfold byte_val, byte_of_Z.
  destruct (Byte.of_N (Z.to_N z)) as [b|] eqn:E.
  - apply Byte.to_of_N in E. rewrite E. lia.
  - apply Byte.of_N_None_iff in E. lia.
Qed.

Lemma len_app {A} (a b : list A) : len (a ++ b) = len a + len b.
Proof. unfold len. rewrite length_app. lia. Qed.

Lemma len_cons {A} (x : A) (l : list A) : len (x :: l) = len l + 1.
Proof. unfold len. simpl length. lia. Qed.

Lemma len_nonneg {A} (l : list A) : 0 <= len l.
Proof. unfold len. lia. Qed.

Lemma py_getitem_app {A} (pre : list A) (x : A) (post : list A) :
  py_getitem (pre ++ x :: post) (len pre) = Some x.
Proof.
  unfold py_getitem. pose proof (len_nonneg pre) as H.
  destruct (Z.ltb_spec (len pre) 0); [lia|].
  unfold len. rewrite Nat2Z.id, nth_error_app2 by lia.
  rewrite Nat.sub_diag. reflexivity.
Qed.

Lemma low7_bits (n k : Z) :
  0 <= k -> Z.testbit (Z.land n 0x7F) k = Z.testbit n k && (k <? 7).
Proof.
  intros Hk. change 0x7F with (Z.ones 7). rewrite Z.land_spec.
  destruct (Z.ltb_spec k 7).
  - rewrite Z.ones_spec_low by lia. reflexivity.
  - rewrite Z.ones_spec_high by lia. reflexivity.
Qed.

Lemma split7 (n : Z) : Z.lor (Z.land n 0x7F) (Z.shiftl (Z.shiftr n 7) 7) = n.
Proof.
  apply Z.bits_inj'. intros k Hk.
  rewrite Z.lor_spec, low7_bits by assumption.
  destruct (Z.ltb_spec k 7).
  - rewrite Z.shiftl_spec_low by lia. rewrite andb_true_r, orb_false_r. reflexivity.
  - rewrite Z.shiftl_spec, Z.shiftr_spec by lia.
    rewrite andb_false_r. simpl. f_equal. lia.
Qed.

Lemma small_low7 (n : Z) : 0 <= n < 128 -> Z.land n 0x7F = n.
Proof.
  intros H. change 0x7F with (Z.ones 7). rewrite Z.land_ones by lia.
  apply Z.mod_small. change (2 ^ 7) with 128. lia.
Qed.

Lemma small_high_clear (n : Z) : 0 <= n < 128 -> Z.land n 0x80 = 0.
Proof.
  intros H. apply Z.bits_inj'. intros k Hk.
  rewrite Z.land_spec, Z.bits_0. change 0x80 with (2 ^ 7).
  rewrite Z.pow2_bits_eqb by lia.
  destruct (Z.eqb_spec 7 k); [|apply andb_false_r].
  subst k. rewrite andb_true_r.
  apply Z.bits_above_log2; [lia|].
  destruct (Z.eq_dec n 0) as [->|]; [simpl; lia|].
  apply Z.log2_lt_pow2; lia.
Qed.

Lemma cont_byte_bits (n : Z) :
  let c := Z.lor (Z.land n 0x7F) 0x80 in
  128 <= c < 256 /\ Z.land c 0x7F = Z.land n 0x7F /\ Z.land c 0x80 <> 0.
Proof.
  intros c.
  assert (Hlow : 0 <= Z.land n 0x7F < 128).
  { change 0x7F with (Z.ones 7). rewrite Z.land_ones by lia.
    apply Z.mod_pos_bound. reflexivity. }
  assert (Hc : c = Z.land n 0x7F + 128).
  { unfold c. pose proof (small_high_clear _ Hlow) as Hd.
    rewrite <- Z.lxor_lor by assumption.
    symmetry. apply Z.add_nocarry_lxor. assumption. }
  repeat split; try lia.
  - unfold c. rewrite Z.land_lor_distr_l.
    rewrite <- Z.land_assoc, Z.land_diag.
    change (Z.land 0x80 0x7F) with 0. apply Z.lor_0_r.
  - unfold c. rewrite Z.land_lor_distr_l. change (Z.land 0x80 0x80) with 0x80.
    rewrite small_high_clear by assumption. simpl. discriminate.
Qed.

Lemma varint_value_nonneg (bs : bytes) : 0 <= varint_value bs.
Proof.
  induction bs as [|b bs IH]; cbn [varint_value]; [lia|].
  apply Z.lor_nonneg. split.
  - apply Z.land_nonneg. right. lia.
  - apply Z.shiftl_nonneg. assumption.
Qed.

Lemma accumulate_group (result a v shift : Z) :
  0 <= shift ->
  Z.lor (Z.lor result (Z.shiftl a shift)) (Z.shiftl v (shift + 7))
  = Z.lor result (Z.shiftl (Z.lor a (Z.shiftl v 7)) shift).
Proof.
  intros Hs. rewrite Z.shiftl_lor, Z.shiftl_shiftl by lia.
  rewrite Z.lor_assoc. do 2 f_equal. lia.
Qed.

(** The loop on a well-formed varint: it stops right after the first
    byte with a clear high bit. *)
Lemma decode_varint_loop_spec (conts : bytes) :
  forall (pre post : bytes) (last : byte) (fuel : nat) (result shift : Z),
    Forall high_bit_set conts -> high_bit_clear last ->
    0 <= shift -> (length conts < fuel)%nat ->
    decode_varint_loop fuel (pre ++ conts ++ last :: post) result shift (len pre)
    = Some (Z.lor result (Z.shiftl (varint_value (conts ++ [last])) shift),
            len pre + len conts + 1).
Proof.
  induction conts as [|c conts IH]; intros pre post last fuel result shift Hc Hl Hs Hf.
  - destruct fuel as [|fuel]; [simpl in Hf; lia|].
    cbn [decode_varint_loop app].
    rewrite len_app, len_cons.
    pose proof (len_nonneg pre). pose proof (len_nonneg post).
    destruct (Z.ltb_spec (len pre) (len pre + (len post + 1))); [|lia].
    rewrite py_getitem_app. cbv zeta.
    red in Hl. rewrite Hl. rewrite Z.eqb_refl.
    cbn [varint_value app]. rewrite Z.shiftl_0_l, Z.lor_0_r.
    do 2 f_equal. change (len []) with 0. lia.
  - destruct fuel as [|fuel]; [simpl in Hf; lia|].
    inversion Hc as [|? ? Hc1 Hc2]; subst.
    cbn [decode_varint_loop].
    rewrite <- app_comm_cons.
    rewrite len_app, len_cons.
    pose proof (len_nonneg pre). pose proof (len_nonneg (conts ++ last :: post)).
    destruct (Z.ltb_spec (len pre) (len pre + (len (conts ++ last :: post) + 1))); [|lia].
    rewrite py_getitem_app. cbv zeta.
    red in Hc1. destruct (Z.eqb_spec (Z.land (byte_val c) 128) 0) as [E|_]; [contradiction|].
    replace (pre ++ c :: conts ++ last :: post)
      with ((pre ++ [c]) ++ conts ++ last :: post)
      by (rewrite <- app_assoc; reflexivity).
    replace (len pre + 1) with (len (pre ++ [c]))
      by (rewrite len_app; reflexivity).
    rewrite IH; [|assumption|assumption|lia|simpl in Hf; lia].
    rewrite accumulate_group by assumption.
    rewrite len_app, !len_cons. f_equal. f_equal. change (len (@nil byte)) with 0. lia.
Qed.

Lemma decode_varint_spec (pre conts post : bytes) (last : byte) :
  Forall high_bit_set conts -> high_bit_clear last ->
  decode_varint (pre ++ conts ++ last :: post) (len pre)
  = Some (varint_value (conts ++ [last]), len pre + len conts + 1).
Proof.
  intros Hc Hl. unfold decode_varint.
  rewrite decode_varint_loop_spec; try assumption; try lia.
  - rewrite Z.shiftl_0_r. reflexivity.
  - rewrite !len_app, len_cons. unfold len.
    pose proof (length_app conts post). lia.
Qed.

(** The encoder emits continuation bytes and one final byte, and they
    denote the number encoded. *)
Lemma encode_varint_loop_spec (fuel : nat) :
  forall n, 0 <= n -> n < 2 ^ (7 * (Z.of_nat fuel + 1)) ->
    exists conts last,
      encode_varint_loop fuel n = conts ++ [last] /\
      Forall high_bit_set conts /\ high_bit_clear last /\
      varint_value (conts ++ [last]) = n.
Proof.
  assert (Hlast : forall n, 0 <= n < 128 ->
            high_bit_clear (byte_of_Z n) /\ varint_value [byte_of_Z n] = n).
  { intros n Hn. unfold high_bit_clear. cbn [varint_value].
    rewrite byte_val_of_Z by lia. split.
    - apply small_high_clear; assumption.
    - rewrite Z.shiftl_0_l, Z.lor_0_r. apply small_low7; assumption. }
  induction fuel as [|fuel IH]; intros n Hn Hb.
  - change (2 ^ (7 * (Z.of_nat 0 + 1))) with 128 in Hb.
    exists [], (byte_of_Z n). destruct (Hlast n) as [H1 H2]; [lia|].
    repeat split; auto.
  - cbn [encode_varint_loop]. destruct (Z.ltb_spec n 128) as [Hs|Hs].
    + exists [], (byte_of_Z n). destruct (Hlast n) as [H1 H2]; [lia|].
      repeat split; auto.
    + destruct (IH (Z.shiftr n 7)) as (conts & last & E & Hc & Hl & Hv).
      * apply Z.shiftr_nonneg. assumption.
      * rewrite Z.shiftr_div_pow2 by lia.
        apply Z.div_lt_upper_bound; [reflexivity|].
        rewrite <- Z.pow_add_r by lia.
        replace (7 + 7 * (Z.of_nat fuel + 1)) with (7 * (Z.of_nat (S fuel) + 1)) by lia.
        assumption.
      * destruct (cont_byte_bits n) as (Hr & Hlow & Hhigh).
        exists (byte_of_Z (Z.lor (Z.land n 127) 128) :: conts), last.
        rewrite E. repeat split; auto.
        -- constructor; [|assumption]. unfold high_bit_set.
           rewrite byte_val_of_Z by lia. assumption.
        -- cbn [app varint_value]. rewrite Hv, byte_val_of_Z by lia.
           rewrite Hlow. apply split7.
Qed.

Lemma encode_varint_spec (n : Z) :
  0 <= n ->
  exists conts last,
    encode_varint n = conts ++ [last] /\
    Forall high_bit_set conts /\ high_bit_clear last /\
    varint_value (conts ++ [last]) = n.
Proof.
  intros Hn. apply encode_varint_loop_spec; [assumption|].
  destruct (Z.eq_dec n 0) as [->|Hz]; [reflexivity|].
  rewrite Z2Nat.id by apply Z.log2_nonneg.
  apply Z.lt_le_trans with (2 ^ (Z.log2 n + 1)).
  - pose proof (Z.log2_spec n). replace (Z.log2 n + 1) with (Z.succ (Z.log2 n)) by lia. lia.
  - apply Z.pow_le_mono_r; [lia|]. pose proof (Z.log2_nonneg n). lia.
Qed.

Lemma decode_encode_varint (pre post : bytes) (n : Z) :
  0 <= n ->
  decode_varint (pre ++ encode_varint n ++ post) (len pre)
  = Some (n, len pre + len (encode_varint n)).
Proof.
  intros Hn. destruct (encode_varint_spec n Hn) as (conts & last & E & Hc & Hl & Hv).
  rewrite E, <- app_assoc. cbn [app].
  rewrite decode_varint_spec by assumption.
  rewrite Hv, len_app. change (len [last]) with 1. f_equal. f_equal. lia.
Qed.

(** C8: on a buffer holding a well-formed varint at the offset
    (continuation bytes with the high bit set, then one byte with the
    high bit clear), [decode_varint] returns the integer the bytes denote
    and the offset just after the first byte with a clear high bit;
    re-encoding that integer with the standard encoder and decoding
    again gives the same integer; and decoding the standard encoding of
    any [n >= 0] gives [n] back. *)
Theorem decode_varint_roundtrip (pre conts post : bytes) (last : byte) :
  Forall high_bit_set conts -> high_bit_clear last ->
  let data := pre ++ conts ++ last :: post in
  exists v,
    decode_varint data (len pre) = Some (v, len pre + len conts + 1) /\
    v = varint_value (conts ++ [last]) /\
    decode_varint (encode_varint v) 0 = Some (v, len (encode_varint v)) /\
    (forall n, 0 <= n ->
       decode_varint (pre ++ encode_varint n ++ post) (len pre)
       = Some (n, len pre + len (encode_varint n))).
Proof.
  intros Hc Hl data. exists (varint_value (conts ++ [last])).
  split; [apply decode_varint_spec; assumption|].
  split; [reflexivity|]. split.
  - pose proof (decode_encode_varint [] [] (varint_value (conts ++ [last]))
                  (varint_value_nonneg _)) as H.
    cbn [app] in H. rewrite app_nil_r in H. exact H.
  - intros n Hn. apply decode_encode_varint. assumption.
Qed.

(* ================================================================== *)
(** * Equality and order on strings and floats *)
(* ================================================================== *)

Lemma Z_compare_trans (x y z : Z) (c : comparison) :
  (x ?= y) = c -> (y ?= z) = c -> (x ?= z) = c.
Proof.
  destruct c; intros H1 H2.
  - apply Z.compare_eq_iff in H1, H2. subst. apply Z.compare_refl.
  - rewrite Z.compare_lt_iff in *. lia.
  - rewrite Z.compare_gt_iff in *. lia.
Qed.

Lemma str_compare_eq (a b : str) : str_compare a b = Eq <-> a = b.
Proof. apply list_compare_refl. exact Z.compare_eq_iff. Qed.

Lemma str_compare_antisym (a b : str) :
  str_compare b a = CompOpp (str_compare a b).
Proof.
  apply list_compare_antisym.
  - exact Z.compare_eq_iff.
  - intros x y. apply Z.compare_antisym.
Qed.

Lemma str_compare_trans (a b c : str) (r : comparison) :
  str_compare a b = r -> str_compare b c = r -> str_compare a c = r.
Proof.
  apply list_compare_trans.
  - exact Z.compare_eq_iff.
  - exact Z_compare_trans.
  - intros x y. apply Z.compare_antisym.
Qed.

Lemma str_eqb_eq (a b : str) : str_eqb a b = true <-> a = b.
Proof.
  unfold str_eqb. rewrite <- str_compare_eq.
  destruct (str_compare a b); split; congruence.
Qed.

Lemma str_eqb_refl (a : str) : str_eqb a a = true.
Proof. apply str_eqb_eq. reflexivity. Qed.

Lemma str_leb_trans (a b c : str) :
  str_leb a b = true -> str_leb b c = true -> str_leb a c = true.
Proof.
  unfold str_leb. intros H1 H2.
  destruct (str_compare a b) eqn:E1; try discriminate.
  - apply str_compare_eq in E1. subst. assumption.
  - destruct (str_compare b c) eqn:E2; try discriminate.
    + apply str_compare_eq in E2. subst. rewrite E1. reflexivity.
    + rewrite (str_compare_trans a b c Lt E1 E2). reflexivity.
Qed.

Lemma str_ltb_false_leb (a b : str) :
  str_ltb a b = false -> str_leb b a = true.
Proof.
  unfold str_ltb, str_leb. rewrite (str_compare_antisym a b).
  destruct (str_compare a b); simpl; congruence.
Qed.

Lemma str_ltb_leb (a b : str) : str_ltb a b = true -> str_leb a b = true.
Proof. unfold str_ltb, str_leb. destruct (str_compare a b); congruence. Qed.

Lemma str_ltb_neq (a b : str) : str_ltb a b = true -> a <> b.
Proof.
  unfold str_ltb. intros H ->.
  assert (E : str_compare b b = Eq) by (apply str_compare_eq; reflexivity).
  rewrite E in H. discriminate.
Qed.

Lemma Z_mul_compare_pos (a b p : Z) :
  0 < p -> (a * p ?= b * p) = (a ?= b).
Proof.
  intros Hp. destruct (Z.compare_spec a b) as [->|H|H].
  - apply Z.compare_refl.
  - apply Z.compare_lt_iff. nia.
  - apply Z.compare_gt_iff. nia.
Qed.

(** Rescaling both sides of a float comparison to a smaller common
    exponent does not change it. *)
Lemma compare_rescale (a b e e' lo c : Z) :
  c <= lo -> lo <= e -> lo <= e' ->
  (a * 2 ^ (e - lo) ?= b * 2 ^ (e' - lo))
  = (a * 2 ^ (e - c) ?= b * 2 ^ (e' - c)).
Proof.
  intros Hc He He'.
  replace (e - c) with ((e - lo) + (lo - c)) by lia.
  replace (e' - c) with ((e' - lo) + (lo - c)) by lia.
  rewrite !Z.pow_add_r by lia. rewrite !Z.mul_assoc.
  symmetry. apply Z_mul_compare_pos.
  apply Z.pow_pos_nonneg; lia.
Qed.

Lemma float_eqb_sym (x y : float) : float_eqb x y = float_eqb y x.
Proof.
  unfold float_eqb.
  destruct x as [|a|a m e], y as [|b|b m' e']; cbn [float_compare];
    try reflexivity; try (destruct a; reflexivity);
    try (destruct b; reflexivity); try (destruct a, b; reflexivity).
  rewrite (Z.min_comm e' e).
  rewrite (Z.compare_antisym (signed a m * _)).
  destruct (_ ?= _); reflexivity.
Qed.

Lemma float_eqb_trans (x y z : float) :
  float_eqb x y = true -> float_eqb y z = true -> float_eqb x z = true.
Proof.
  unfold float_eqb.
  destruct x as [|a|a m e], y as [|b|b m' e'], z as [|c|c m'' e''];
    cbn [float_compare]; intros H1 H2; try discriminate;
    try solve [destruct a; discriminate | destruct b; discriminate
              | destruct c; discriminate
              | destruct a, b, c; (discriminate || reflexivity)].
  set (lo := Z.min (Z.min e e') e'').
  rewrite (compare_rescale _ _ e e' (Z.min e e') lo) in H1 by lia.
  rewrite (compare_rescale _ _ e' e'' (Z.min e' e'') lo) in H2 by lia.
  rewrite (compare_rescale _ _ e e'' (Z.min e e'') lo) by lia.
  destruct (_ ?= _) eqn:E1 in H1; try discriminate.
  destruct (_ ?= _) eqn:E2 in H2; try discriminate.
  apply Z.compare_eq_iff in E1, E2. rewrite E1, E2, Z.compare_refl.
  reflexivity.
Qed.

Lemma float_eqb_refl (x : float) : is_finite x -> float_eqb x x = true.
Proof.
  destruct x; simpl; try contradiction. intros _.
  unfold float_eqb. cbn [float_compare]. rewrite Z.compare_refl. reflexivity.
Qed.

Lemma transaction_key_eqb_sym (k1 k2 : str * float * str) :
  transaction_key_eqb k1 k2 = transaction_key_eqb k2 k1.
Proof.
  destruct k1 as [[n1 a1] d1], k2 as [[n2 a2] d2]. unfold transaction_key_eqb.
  rewrite (float_eqb_sym a1 a2).
  f_equal; [f_equal|].
  - apply eq_true_iff_eq. rewrite !str_eqb_eq. split; congruence.
  - apply eq_true_iff_eq. rewrite !str_eqb_eq. split; congruence.
Qed.

Lemma transaction_key_eqb_trans (k1 k2 k3 : str * float * str) :
  transaction_key_eqb k1 k2 = true -> transaction_key_eqb k2 k3 = true ->
  transaction_key_eqb k1 k3 = true.
Proof.
  destruct k1 as [[n1 a1] d1], k2 as [[n2 a2] d2], k3 as [[n3 a3] d3].
  unfold transaction_key_eqb. rewrite !andb_true_iff, !str_eqb_eq.
  intros [[-> Ha] ->] [[-> Hb] ->].
  repeat split; try reflexivity. eapply float_eqb_trans; eassumption.
Qed.

Lemma opt_str_eqb_eq (a b : option str) : opt_eqb str_eqb a b = true <-> a = b.
Proof.
  destruct a, b; simpl; try (split; congruence).
  rewrite str_eqb_eq. split; congruence.
Qed.

Lemma account_key_eqb_eq (k1 k2 : str * option str) :
  account_key_eqb k1 k2 = true <-> k1 = k2.
Proof.
  destruct k1, k2. unfold account_key_eqb. simpl.
  rewrite andb_true_iff, str_eqb_eq, opt_str_eqb_eq. split.
  - intros [-> ->]. reflexivity.
  - intros E. inversion E. auto.
Qed.

(* ================================================================== *)
(** * The deduplication loop *)
(* ================================================================== *)

Section Dedup.

Context {A K : Type}.
Variable key : A -> K.
Variable key_eqb : K -> K -> bool.
Hypothesis key_eqb_trans : forall k1 k2 k3,
  key_eqb k1 k2 = true -> key_eqb k2 k3 = true -> key_eqb k1 k3 = true.

Lemma fresh_keys_snoc (unique : list A) (x : A) :
  fresh_keys key key_eqb unique ->
  (forall u, In u unique -> key_eqb (key x) (key u) = false) ->
  fresh_keys key key_eqb (unique ++ [x]).
Proof.
  unfold fresh_keys. induction unique as [|u unique IH]; intros Hf Hx.
  - repeat constructor.
  - inversion Hf as [|? ? Hu Hrest]; subst. cbn [app]. constructor.
    + apply Forall_app. split; [assumption|].
      constructor; [|constructor]. apply Hx. left. reflexivity.
    + apply IH; [assumption|]. intros v Hv. apply Hx. right. assumption.
Qed.

Lemma first_of_key_snoc (processed : list A) (x y : A) :
  first_of_key key key_eqb processed x -> first_of_key key key_eqb (processed ++ [y]) x.
Proof.
  intros (pre & post & -> & H). exists pre, (post ++ [y]).
  split; [|assumption]. rewrite <- app_assoc. reflexivity.
Qed.

Lemma existsb_key_false (k : K) (seen : list K) :
  existsb (key_eqb k) seen = false <->
  forall s, In s seen -> key_eqb k s = false.
Proof.
  induction seen as [|s seen IH]; simpl.
  - split; [intros _ s []|reflexivity].
  - rewrite orb_false_iff, IH. split.
    + intros [H1 H2] s' [<-|Hin]; auto.
    + intros H. split; [apply H; left; reflexivity|].
      intros s' Hs'. apply H. right. assumption.
Qed.

Lemma dedup_loop_post (items : list A) :
  forall processed seen unique,
    (forall k, In k seen <-> In k (map key unique)) ->
    dedup_post key key_eqb processed unique ->
    dedup_post key key_eqb (processed ++ items) (dedup_loop key key_eqb items seen unique).
Proof.
  induction items as [|x items IH]; intros processed seen unique Hseen Hpost.
  - rewrite app_nil_r. exact Hpost.
  - destruct Hpost as (Hfresh & Hfirst & Hrep).
    replace (processed ++ x :: items) with ((processed ++ [x]) ++ items)
      by (rewrite <- app_assoc; reflexivity).
    cbn [dedup_loop]. destruct (existsb (key_eqb (key x)) seen) eqn:E.
    + apply IH; [assumption|]. split; [assumption|]. split.
      * intros u Hu. apply first_of_key_snoc. apply Hfirst. assumption.
      * intros z Hz. apply in_app_or in Hz. destruct Hz as [Hz|[<-|[]]].
        -- apply Hrep. assumption.
        -- right. apply existsb_exists in E. destruct E as (s & Hs & Hk).
           apply Hseen, in_map_iff in Hs. destruct Hs as (u & <- & Hu).
           exists u. split; assumption.
    + rewrite existsb_key_false in E.
      assert (Hnew : forall u, In u unique -> key_eqb (key x) (key u) = false).
      { intros u Hu. apply E, Hseen, in_map. assumption. }
      apply IH.
      * intros k. rewrite map_app, in_app_iff. simpl. rewrite Hseen. tauto.
      * split; [apply fresh_keys_snoc; assumption|]. split.
        -- intros u Hu. apply in_app_or in Hu. destruct Hu as [Hu|[<-|[]]].
           ++ apply first_of_key_snoc. apply Hfirst. assumption.
           ++ exists processed, []. split; [reflexivity|].
              intros z Hz. destruct (Hrep z Hz) as [Hin|(w & Hw & Hzw)].
              ** apply Hnew. assumption.
              ** destruct (key_eqb (key x) (key z)) eqn:Ez; [|reflexivity].
                 rewrite <- (Hnew w Hw). symmetry.
                 eapply key_eqb_trans; eassumption.
        -- intros z Hz. apply in_app_or in Hz. destruct Hz as [Hz|[<-|[]]].
           ++ destruct (Hrep z Hz) as [Hin|(w & Hw & Hzw)].
              ** left. apply in_or_app. left. assumption.
              ** right. exists w. split; [apply in_or_app; left|]; assumption.
           ++ left. apply in_or_app. right. left. reflexivity.
Qed.

Lemma dedup_spec (items : list A) :
  dedup_post key key_eqb items (dedup key key_eqb items).
Proof.
  apply (dedup_loop_post items [] [] []).
  - intros k. reflexivity.
  - split; [constructor|]. split; intros ? [].
Qed.

(** With a symmetric key equality that holds of each item's own key,
    the kept elements are pairwise different and so are their keys. *)
Lemma fresh_keys_unique (unique : list A) :
  (forall k1 k2, key_eqb k1 k2 = key_eqb k2 k1) ->
  (forall x, In x unique -> key_eqb (key x) (key x) = true) ->
  fresh_keys key key_eqb unique ->
  NoDup unique /\
  forall a b, In a unique -> In b unique ->
    key_eqb (key a) (key b) = true -> a = b.
Proof.
  intros Hsym. unfold fresh_keys.
  induction unique as [|u unique IH]; intros Hrefl Hf.
  - split; [constructor|intros ? ? []].
  - inversion Hf as [|? ? Hu Hrest]; subst.
    destruct IH as [Hnd Hinj]; [intros; apply Hrefl; right; assumption|assumption|].
    rewrite Forall_forall in Hu. split.
    + constructor; [|assumption]. intros Hin.
      specialize (Hu u Hin). rewrite Hrefl in Hu by (left; reflexivity).
      discriminate.
    + intros a b [<-|Ha] [<-|Hb] E; auto.
      * specialize (Hu b Hb). rewrite Hsym in Hu. congruence.
      * specialize (Hu a Ha). congruence.
Qed.

Lemma dedup_incl (items : list A) :
  forall x, In x (dedup key key_eqb items) -> In x items.
Proof.
  intros x Hx. destruct (dedup_spec items) as (_ & Hfirst & _).
  destruct (Hfirst x Hx) as (pre & post & -> & _).
  apply in_or_app. right. left. reflexivity.
Qed.

End Dedup.

(* ================================================================== *)
(** * The stable descending sort *)
(* ================================================================== *)

Section Sort.

Context {A : Type}.
Variable key : A -> str.

Lemma insert_desc_perm (x : A) (l : list A) :
  Permutation (insert_desc key x l) (x :: l).
Proof.
  induction l as [|y l IH]; cbn [insert_desc]; [reflexivity|].
  destruct (str_ltb (key x) (key y)); [|reflexivity].
  rewrite IH. apply perm_swap.
Qed.

Lemma sort_desc_perm (l : list A) :
  Permutation (sort_desc key l) l.
Proof.
  induction l as [|x l IH]; cbn [sort_desc]; [reflexivity|].
  rewrite insert_desc_perm, IH. reflexivity.
Qed.

Lemma insert_desc_sorted (x : A) (l : list A) :
  StronglySorted (key_ge key) l ->
  StronglySorted (key_ge key) (insert_desc key x l).
Proof.
  induction l as [|y l IH]; intros Hs; cbn [insert_desc].
  - repeat constructor.
  - inversion Hs as [|? ? Hl Hy]; subst.
    destruct (str_ltb (key x) (key y)) eqn:E.
    + constructor; [apply IH; assumption|].
      apply (Permutation_Forall
               (Permutation_sym (insert_desc_perm x l))).
      constructor; [|assumption]. apply str_ltb_leb. assumption.
    + constructor; [assumption|].
      apply str_ltb_false_leb in E.
      constructor; [assumption|].
      eapply Forall_impl; [|exact Hy].
      intros z Hz. unfold key_ge in *. eapply str_leb_trans; eassumption.
Qed.

Lemma sort_desc_sorted (l : list A) :
  StronglySorted (key_ge key) (sort_desc key l).
Proof.
  induction l as [|x l IH]; cbn [sort_desc]; [constructor|].
  apply insert_desc_sorted. assumption.
Qed.

(** Stability: the elements of any one key come out in the order they
    went in. *)
Lemma insert_desc_stable (d : str) (x : A) (l : list A) :
  filter (fun a => str_eqb (key a) d) (insert_desc key x l)
  = filter (fun a => str_eqb (key a) d) (x :: l).
Proof.
  induction l as [|y l IH]; cbn [insert_desc]; [reflexivity|].
  destruct (str_ltb (key x) (key y)) eqn:E; [|reflexivity].
  cbn [filter] in *. rewrite IH.
  destruct (str_eqb (key y) d) eqn:Ey, (str_eqb (key x) d) eqn:Ex;
    try reflexivity.
  apply str_eqb_eq in Ey, Ex. apply str_ltb_neq in E. congruence.
Qed.

Lemma sort_desc_stable (d : str) (l : list A) :
  filter (fun a => str_eqb (key a) d) (sort_desc key l)
  = filter (fun a => str_eqb (key a) d) l.
Proof.
  induction l as [|x l IH]; cbn [sort_desc]; [reflexivity|].
  rewrite insert_desc_stable. cbn [filter]. rewrite IH. reflexivity.
Qed.

End Sort.

(* ================================================================== *)
(** * Rounding to two decimals *)
(* ================================================================== *)

Lemma round_half_even_nonneg (num den : Z) :
  0 <= num -> 0 < den -> 0 <= round_half_even num den.
Proof.
  intros Hn Hd. unfold round_half_even.
  pose proof (Z.div_pos num den Hn Hd).
  destruct (2 * (num mod den) ?= den); [destruct (Z.even _)| |]; lia.
Qed.

Lemma round_half_even_le (num den bound : Z) :
  0 <= num -> 0 < den -> num <= bound * den ->
  round_half_even num den <= bound.
Proof.
  intros Hn Hd Hb. unfold round_half_even.
  pose proof (Z.div_mod num den ltac:(lia)) as Hdm.
  pose proof (Z.mod_pos_bound num den Hd) as Hr.
  assert (Hq : num / den <= bound) by (apply Z.div_le_upper_bound; lia).
  destruct (Z.eq_dec (num / den) bound) as [E|E].
  - assert (num mod den = 0) by nia.
    replace (2 * (num mod den) ?= den) with Lt
      by (symmetry; apply Z.compare_lt_iff; lia).
    lia.
  - destruct (2 * (num mod den) ?= den); [destruct (Z.even _)| |]; lia.
Qed.

Lemma binade_small (k : Z) :
  0 < k <= 1000000000 -> -1074 <= binade k 100 <= -29.
Proof.
  intros Hk. unfold binade.
  assert (Hl : Z.log2 k <= 29).
  { assert (Z.log2 k < 30); [|lia]. apply Z.log2_lt_pow2; [lia|].
    change (2 ^ 30) with 1073741824. lia. }
  change (Z.log2 100) with 6.
  destruct (_ <? _); lia.
Qed.

(** The float nearest to [k / 100] does not exceed [10^7] when
    [k / 100] does not. *)
Lemma nearest_double_cents_bound (neg : bool) (k : Z) :
  0 <= k <= 1000000000 ->
  is_finite (nearest_double neg k 100) /\
  abs_le (nearest_double neg k 100) 10000000.
Proof.
  intros Hk. unfold nearest_double.
  destruct (Z.eqb_spec k 0) as [->|Hz].
  - split; [exact I|]. left. reflexivity.
  - pose proof (binade_small k ltac:(lia)) as He.
    set (e := binade k 100) in *.
    replace (Z.max (- e) 0) with (- e) by lia.
    replace (Z.max e 0) with 0 by lia.
    change (100 * 2 ^ 0) with 100.
    assert (Hp : 0 < 2 ^ (- e)) by (apply Z.pow_pos_nonneg; lia).
    assert (Hm : round_half_even (k * 2 ^ (- e)) 100 <= 10000000 * 2 ^ (- e)).
    { apply round_half_even_le; nia. }
    assert (Hm0 : 0 <= round_half_even (k * 2 ^ (- e)) 100).
    { apply round_half_even_nonneg; nia. }
    set (m := round_half_even (k * 2 ^ (- e)) 100) in *.
    destruct (Z.eqb_spec m (2 ^ 53)) as [E|E].
    + destruct (Z.ltb_spec 971 (e + 1)); [lia|].
      split; [exact I|].
      unfold abs_le, float_abs, float_compare_int, compare_scaled, signed.
      replace (Z.max (e + 1) 0) with 0 by lia.
      replace (Z.max (- (e + 1)) 0) with (- e - 1) by lia.
      assert (H2 : 2 ^ (- e) = 2 * 2 ^ (- e - 1)).
      { replace (- e) with (1 + (- e - 1)) at 1 by lia.
        rewrite Z.pow_add_r by lia. reflexivity. }
      assert (H53 : 2 ^ 53 = 2 * 2 ^ 52) by reflexivity.
      assert (Hle : 2 ^ 52 * 2 ^ 0 <= 10000000 * 2 ^ (- e - 1)).
      { change (2 ^ 0) with 1. lia. }
      destruct (Z.compare_spec (2 ^ 52 * 2 ^ 0) (10000000 * 2 ^ (- e - 1)));
        [right|left|lia]; reflexivity.
    + destruct (Z.ltb_spec 971 e); [lia|].
      split; [exact I|].
      unfold abs_le, float_abs, float_compare_int, compare_scaled, signed.
      replace (Z.max e 0) with 0 by lia.
      replace (Z.max (- e) 0) with (- e) by lia.
      change (2 ^ 0) with 1. rewrite Z.mul_1_r.
      destruct (Z.compare_spec m (10000000 * 2 ^ (- e)));
        [right|left|lia]; reflexivity.
Qed.

Lemma float_of_bits_nonneg (w : Z) :
  match float_of_bits w with
  | FFin _ m _ => 0 <= m
  | _ => True
  end.
Proof.
  unfold float_of_bits.
  assert (H : 0 <= Z.land w (2 ^ 52 - 1)).
  { apply Z.land_nonneg. right. apply Z.leb_le. reflexivity. }
  destruct (_ =? 2047); [destruct (_ =? 0); exact I|].
  destruct (_ =? 0); [assumption|].
  assert (0 < 2 ^ 52) by reflexivity. lia.
Qed.

(** Rounding a finite number inside [(-10^7, 10^7)] to two decimals
    gives a finite number inside [[-10^7, 10^7]]. *)
Lemma round2_plausible (neg : bool) (m e : Z) :
  0 <= m ->
  int_lt_float (-10000000) (FFin neg m e) = true ->
  float_lt_int (FFin neg m e) 10000000 = true ->
  plausible_amount (round2 (FFin neg m e)).
Proof.
  intros Hm Hlo Hhi. cbn [round2].
  set (P := 2 ^ Z.max e 0). set (Q := 2 ^ Z.max (- e) 0).
  assert (HP : 0 < P) by (apply Z.pow_pos_nonneg; lia).
  assert (HQ : 0 < Q) by (apply Z.pow_pos_nonneg; lia).
  unfold int_lt_float, float_lt_int, float_compare_int, compare_scaled in Hlo, Hhi.
  fold P Q in Hlo, Hhi. clearbody P Q.
  assert (Hlt : m * P < 10000000 * Q).
  { destruct neg; cbn [signed] in *.
    - destruct (_ ?= _) eqn:E in Hlo; try discriminate.
      apply Z.compare_gt_iff in E. nia.
    - destruct (_ ?= _) eqn:E in Hhi; try discriminate.
      exact E. }
  set (k := round_half_even (m * 100 * P) Q).
  assert (Hk0 : 0 <= k) by (apply round_half_even_nonneg; nia).
  assert (Hk : k <= 1000000000) by (apply round_half_even_le; nia).
  destruct (nearest_double_cents_bound neg k ltac:(lia)) as [Hf Hb].
  split; [assumption|]. split; [assumption|].
  exists neg, k. split; [assumption|reflexivity].
Qed.

(* ================================================================== *)
(** * The extractor loops stay inside their buffers *)
(* ================================================================== *)

Lemma py_range_In (n i : Z) : In i (py_range n) <-> 0 <= i < n.
Proof.
  unfold py_range. rewrite in_map_iff. split.
  - intros (k & <- & Hk). apply in_seq in Hk. lia.
  - intros Hi. exists (Z.to_nat i). split; [lia|]. apply in_seq. lia.
Qed.

Lemma py_getitem_in_range {A} (l : list A) (i : Z) :
  0 <= i < len l -> exists x, py_getitem l i = Some x.
Proof.
  intros Hi. unfold py_getitem.
  destruct (Z.ltb_spec i 0); [lia|].
  destruct (nth_error l (Z.to_nat i)) as [x|] eqn:E; [eauto|].
  apply nth_error_None in E. unfold len in Hi. lia.
Qed.

Lemma len_slice {A} (l : list A) (lo hi : Z) :
  0 <= lo -> lo <= hi -> hi <= len l -> len (slice l lo hi) = hi - lo.
Proof.
  intros H0 H1 H2. unfold slice, slice_bound.
  destruct (Z.ltb_spec lo 0); [lia|]. destruct (Z.ltb_spec hi 0); [lia|].
  unfold len in *. rewrite length_firstn, length_skipn. lia.
Qed.

(** In [extract_string_value] the length byte [after[i + 2]] exists for
    every [i] of the loop: no [IndexError]. *)
Lemma string_scan_in_range (after : bytes) (i : Z) :
  In i (py_range (len after - 3)) ->
  exists b, py_getitem after (i + 2) = Some b.
Proof.
  intros Hi. apply py_range_In in Hi. apply py_getitem_in_range. lia.
Qed.

(** In [extract_double_value] the tag byte and the eight bytes behind it
    exist for every [i] of the loop: no [IndexError], no
    [struct.error]. *)
Lemma double_scan_in_range (chunk : bytes) (i : Z) :
  In i (py_range (len chunk - 9)) ->
  (exists b, py_getitem chunk i = Some b) /\
  exists val, unpack_d (slice chunk (i + 1) (i + 9)) = Some val.
Proof.
  intros Hi. apply py_range_In in Hi. split.
  - apply py_getitem_in_range. lia.
  - unfold unpack_d. rewrite len_slice by lia.
    replace (i + 9 - (i + 1)) with 8 by lia. cbn. eauto.
Qed.

(** In [extract_boolean_value] the tag byte and the flag byte exist for
    every [i] of the loop. *)
Lemma boolean_scan_in_range (after : bytes) (i : Z) :
  In i (py_range (len after - 2)) ->
  (exists b, py_getitem after i = Some b) /\
  exists v, py_getitem after (i + 1) = Some v.
Proof.
  intros Hi. apply py_range_In in Hi.
  split; apply py_getitem_in_range; lia.
Qed.

(** The last position at which a tag byte still has its eight bytes in
    the chunk is [len(chunk) - 9]; the loop of [extract_double_value]
    ends at [len(chunk) - 10]. *)
Lemma double_scan_last_index (chunk : bytes) :
  ~ In (len chunk - 9) (py_range (len chunk - 9)).
Proof. rewrite py_range_In. lia. Qed.

(** A value the plausibility test rejects is passed over and the loop
    goes on with the next position. *)
Lemma double_scan_rejects (chunk : bytes) (i : Z) (rest : list Z)
    (b : byte) (val : float) :
  py_getitem chunk i = Some b -> byte_val b = 0x19 ->
  unpack_d (slice chunk (i + 1) (i + 9)) = Some val ->
  int_lt_float (-10000000) val && float_lt_int val 10000000 = false ->
  double_scan chunk (i :: rest) = double_scan chunk rest.
Proof.
  intros Hb Htag Hval Hrange. cbn [double_scan].
  rewrite Hb, Htag, Hval, Hrange. reflexivity.
Qed.

(** A length outside [(0, 100)], bytes that are not UTF-8 and text that
    is not printable are passed over in the same way. *)
Lemma string_scan_rejects (after : bytes) (i : Z) (rest : list Z) (b : byte) :
  bytes_eqb (slice after i (i + 2)) [x8a; x01] = true ->
  py_getitem after (i + 2) = Some b ->
  (0 <? byte_val b) && (byte_val b <? 100) = false \/
  utf8_decode (slice after (i + 3) (i + 3 + byte_val b)) = None \/
  (exists value,
     utf8_decode (slice after (i + 3) (i + 3 + byte_val b)) = Some value /\
     isprintable value = false) ->
  string_scan after (i :: rest) = string_scan after rest.
Proof.
  intros Htag Hb H. cbn [string_scan]. rewrite Htag, Hb.
  destruct H as [H|[H|(value & H & Hp)]].
  - rewrite H. reflexivity.
  - destruct (_ && _); [rewrite H|]; reflexivity.
  - destruct (_ && _); [rewrite H, Hp|]; reflexivity.
Qed.

(** The first acceptable value ends the loop. *)
Lemma double_scan_accepts (chunk : bytes) (i : Z) (rest : list Z)
    (b : byte) (val : float) :
  py_getitem chunk i = Some b -> byte_val b = 0x19 ->
  unpack_d (slice chunk (i + 1) (i + 9)) = Some val ->
  int_lt_float (-10000000) val && float_lt_int val 10000000 = true ->
  double_scan chunk (i :: rest) = Some (round2 val).
Proof.
  intros Hb Htag Hval Hrange. cbn [double_scan].
  rewrite Hb, Htag, Hval, Hrange. reflexivity.
Qed.

Lemma string_scan_accepts (after : bytes) (i : Z) (rest : list Z) (b : byte)
    (value : str) :
  bytes_eqb (slice after i (i + 2)) [x8a; x01] = true ->
  py_getitem after (i + 2) = Some b ->
  (0 <? byte_val b) && (byte_val b <? 100) = true ->
  utf8_decode (slice after (i + 3) (i + 3 + byte_val b)) = Some value ->
  isprintable value = true ->
  string_scan after (i :: rest) = Some value.
Proof.
  intros Htag Hb Hlen Hdec Hp. cbn [string_scan].
  rewrite Htag, Hb, Hlen, Hdec, Hp. reflexivity.
Qed.

(** The bytes decoded for a string of announced length [n] are those of
    them that lie in the window: [n] of them only if the window is long
    enough. *)
Lemma string_value_bytes (after : bytes) (i n : Z) :
  0 <= i -> 0 <= n -> i + 3 <= len after ->
  len (slice after (i + 3) (i + 3 + n)) = Z.min n (len after - (i + 3)).
Proof.
  intros Hi Hn Hlen. unfold slice, slice_bound.
  destruct (Z.ltb_spec (i + 3) 0); [lia|].
  destruct (Z.ltb_spec (i + 3 + n) 0); [lia|].
  unfold len in *. rewrite length_firstn, length_skipn. lia.
Qed.

(* ================================================================== *)
(** * The anchor loop *)
(* ================================================================== *)

Lemma starts_with_length (data pat : bytes) :
  starts_with data pat = true -> len pat <= len data.
Proof.
  revert data. induction pat as [|p pat IH]; intros data H.
  - apply len_nonneg.
  - destruct data as [|d data]; [discriminate|].
    cbn [starts_with] in H. apply andb_true_iff in H. destruct H as [_ H].
    apply IH in H. rewrite !len_cons. lia.
Qed.

Lemma find_from_bounds (data pat : bytes) :
  forall off idx, find_from data pat off = Some idx ->
    off <= idx /\ idx - off + len pat <= len data.
Proof.
  induction data as [|d data IH]; intros off idx H; cbn [find_from] in H.
  - destruct (starts_with [] pat) eqn:E; [|discriminate].
    inversion H; subst. apply starts_with_length in E. lia.
  - destruct (starts_with (d :: data) pat) eqn:E.
    + inversion H; subst. apply starts_with_length in E. lia.
    + apply IH in H. rewrite len_cons. lia.
Qed.

Lemma len_skipn {A} (n : nat) (l : list A) :
  len (skipn n l) = len l - Z.min (Z.of_nat n) (len l).
Proof. unfold len. rewrite length_skipn. lia. Qed.

(** [data.find(pat, start)] answers an offset at or after [start] at
    which the whole pattern fits. *)
Lemma bytes_find_bounds (data pat : bytes) (start idx : Z) :
  0 <= start -> bytes_find data pat start = Some idx ->
  start <= idx /\ idx + len pat <= len data.
Proof.
  intros Hs H. unfold bytes_find in H.
  destruct (Z.ltb_spec (len data) start); [discriminate|].
  apply find_from_bounds in H. rewrite len_skipn in H. lia.
Qed.

Lemma bytes_find_past_end (data pat : bytes) (start : Z) :
  len data < start -> bytes_find data pat start = None.
Proof.
  intros H. unfold bytes_find.
  destruct (Z.ltb_spec (len data) start); [reflexivity|lia].
Qed.

Section AnchorLoop.

Context {A : Type}.
Variable anchor : bytes.
Variable candidate : bytes -> Z -> option A.
Hypothesis anchor_nonempty : 0 < len anchor.

(** Any amount of fuel above [len(data) - search_pos] gives the same
    result: the loop has ended by then. *)
Lemma anchor_loop_fuel (data : bytes) (fuel1 : nat) :
  forall (fuel2 : nat) (search_pos : Z) (acc : list A),
    0 <= search_pos ->
    len data - search_pos < Z.of_nat fuel1 ->
    len data - search_pos < Z.of_nat fuel2 ->
    anchor_loop fuel1 anchor candidate data search_pos acc
    = anchor_loop fuel2 anchor candidate data search_pos acc.
Proof.
  induction fuel1 as [|fuel1 IH]; intros fuel2 sp acc Hsp H1 H2.
  - cbn [anchor_loop]. destruct fuel2 as [|fuel2]; [reflexivity|].
    cbn [anchor_loop]. rewrite bytes_find_past_end by lia. reflexivity.
  - destruct fuel2 as [|fuel2].
    + cbn [anchor_loop]. rewrite bytes_find_past_end by lia. reflexivity.
    + cbn [anchor_loop].
      destruct (bytes_find data anchor sp) as [idx|] eqn:E; [|reflexivity].
      apply bytes_find_bounds in E; [|assumption].
      apply IH; lia.
Qed.

(** The loop equation of [while True]: the scan is total, and from
    [search_pos] it handles the next anchor and goes on after it. *)
Lemma anchor_scan_eq (data : bytes) (search_pos : Z) (acc : list A) :
  0 <= search_pos ->
  anchor_scan anchor candidate data search_pos acc
  = match bytes_find data anchor search_pos with
    | None => acc
    | Some idx =>
        anchor_scan anchor candidate data (idx + 1)
          (append_opt acc (candidate data idx))
    end.
Proof.
  intros Hsp. unfold anchor_scan at 1. cbn [anchor_loop].
  destruct (bytes_find data anchor search_pos) as [idx|] eqn:E; [|reflexivity].
  apply bytes_find_bounds in E; [|assumption].
  unfold anchor_scan. apply anchor_loop_fuel; unfold len in *; lia.
Qed.

(** The loop only appends, and only what [candidate] returns. *)
Lemma anchor_loop_appends (data : bytes) (fuel : nat) :
  forall (search_pos : Z) (acc : list A),
    exists new,
      anchor_loop fuel anchor candidate data search_pos acc = acc ++ new /\
      Forall (fun x => exists idx, candidate data idx = Some x) new.
Proof.
  induction fuel as [|fuel IH]; intros sp acc; cbn [anchor_loop].
  - exists []. rewrite app_nil_r. split; [reflexivity|constructor].
  - destruct (bytes_find data anchor sp) as [idx|].
    + destruct (IH (idx + 1) (append_opt acc (candidate data idx)))
        as (new & E & Hnew).
      rewrite E. destruct (candidate data idx) as [x|] eqn:Ec; cbn [append_opt].
      * exists (x :: new). rewrite <- app_assoc. split; [reflexivity|].
        constructor; [exists idx; assumption|assumption].
      * exists new. split; [reflexivity|assumption].
    + exists []. rewrite app_nil_r. split; [reflexivity|constructor].
Qed.

End AnchorLoop.

(* ================================================================== *)
(** * Running the I/O monad *)
(* ================================================================== *)

Lemma bind_inr {A B} (m : io A) (k : A -> io B) (fs : filesystem)
    (tr : list event) (b : B) :
  bind m k fs = (tr, inr b) ->
  exists tr1 a tr2, m fs = (tr1, inr a) /\ k a fs = (tr2, inr b) /\
                    tr = tr1 ++ tr2.
Proof.
  unfold bind. destruct (m fs) as [tr1 [e|a]]; [discriminate|].
  destruct (k a fs) as [tr2 r] eqn:E. intros H. inversion H; subst.
  exists tr1, a, tr2. auto.
Qed.

Lemma scan_transaction_file_step :
  file_step scan_transaction_file transaction_step.
Proof.
  intros f acc fs. unfold scan_transaction_file, transaction_step, bind, read_file.
  destruct (entry_file f) as [data|]; [|reflexivity].
  destruct (_ || _); reflexivity.
Qed.

Lemma scan_account_file_step : file_step scan_account_file account_step.
Proof.
  intros f acc fs. unfold scan_account_file, account_step, bind, read_file.
  destruct (entry_file f) as [data|]; [|reflexivity].
  destruct (negb _); reflexivity.
Qed.

Section ForFiles.

Context {S : Type}.
Variable body : dir_entry -> S -> io S.
Variable step : bytes -> S -> S.
Hypothesis body_step : file_step body step.

(** An invariant of the accumulator that each step keeps is kept by the
    whole loop. *)
Lemma for_files_invariant (P : S -> Prop) (fs : filesystem) :
  (forall data acc, P acc -> P (step data acc)) ->
  forall files acc tr acc',
    P acc -> for_files files body acc fs = (tr, inr acc') -> P acc'.
Proof.
  intros Hstep. induction files as [|f files IH]; intros acc tr acc' Hacc H.
  - cbn in H. inversion H; subst. assumption.
  - cbn [for_files] in H. apply bind_inr in H.
    destruct H as (tr1 & a & tr2 & H1 & H2 & _).
    rewrite body_step in H1. destruct (entry_file f); [|discriminate].
    inversion H1; subst. eapply IH; [|eassumption]. apply Hstep. assumption.
Qed.

(** When every file can be read the loop does not raise. *)
Lemma for_files_readable (fs : filesystem) :
  forall files acc, Forall readable files ->
    exists tr acc', for_files files body acc fs = (tr, inr acc').
Proof.
  induction files as [|f files IH]; intros acc Hr.
  - exists [], acc. reflexivity.
  - inversion Hr as [|? ? [data Hf] Hrest]; subst.
    destruct (IH (step data acc) Hrest) as (tr & acc' & E).
    exists ([EvOpen (entry_name f)] ++ tr), acc'.
    cbn [for_files]. unfold bind. rewrite body_step, Hf, E. reflexivity.
Qed.

(** The first file that cannot be read ends the loop with its error. *)
Lemma for_files_unreadable (fs : filesystem) :
  forall before f after acc,
    Forall readable before -> entry_file f = Unreadable ->
    exists tr,
      for_files (before ++ f :: after) body acc fs
      = (tr, inl (OSError (entry_name f))).
Proof.
  induction before as [|g before IH]; intros f after acc Hr Hf.
  - exists [EvOpen (entry_name f)]. cbn [app for_files]. unfold bind.
    rewrite body_step, Hf. reflexivity.
  - inversion Hr as [|? ? [data Hg] Hrest]; subst.
    destruct (IH f after (step data acc) Hrest Hf) as (tr & E).
    exists ([EvOpen (entry_name g)] ++ tr).
    cbn [app for_files]. unfold bind. rewrite body_step, Hg.
    fold (@app dir_entry). rewrite E. reflexivity.
Qed.

(** The outcome of the loop depends on the files it is given, not on
    the rest of the file system. *)
Lemma for_files_same (fs fs' : filesystem) :
  forall files acc,
    snd (for_files files body acc fs) = snd (for_files files body acc fs').
Proof.
  induction files as [|g files IH]; intros acc; [reflexivity|].
  cbn [for_files]. unfold bind. rewrite !body_step.
  destruct (entry_file g); [|reflexivity].
  specialize (IH (step data acc)).
  destruct (for_files files body _ fs), (for_files files body _ fs').
  simpl in *. assumption.
Qed.

(** A file whose step changes nothing can be left out without changing
    the outcome. *)
Lemma for_files_skip (fs fs' : filesystem) :
  forall before f after acc data,
    entry_file f = Readable data ->
    (forall acc, step data acc = acc) ->
    snd (for_files (before ++ f :: after) body acc fs)
    = snd (for_files (before ++ after) body acc fs').
Proof.
  induction before as [|g before IH]; intros f after acc data Hf Hskip.
  - cbn [app for_files]. unfold bind at 1. rewrite body_step, Hf, Hskip.
    pose proof (for_files_same fs fs' after acc) as Hfs.
    destruct (for_files after body acc fs), (for_files after body acc fs').
    simpl in *. assumption.
  - cbn [app for_files]. unfold bind. rewrite !body_step.
    destruct (entry_file g) as [d|]; [|reflexivity].
    specialize (IH f after (step d acc) data Hf Hskip).
    fold (@app dir_entry).
    destruct (for_files (before ++ f :: after) body _ fs),
             (for_files (before ++ after) body _ fs').
    simpl in *. assumption.
Qed.

(** The loop opens files and does nothing else to the outside. *)
Lemma for_files_trace (fs : filesystem) :
  forall files acc, Forall (fun e => is_open e = true)
                      (fst (for_files files body acc fs)).
Proof.
  induction files as [|f files IH]; intros acc; [constructor|].
  cbn [for_files]. unfold bind. rewrite body_step.
  destruct (entry_file f) as [data|]; [|repeat constructor].
  specialize (IH (step data acc)).
  destruct (for_files files body (step data acc) fs) as [tr r].
  cbn [fst] in *. constructor; [reflexivity|assumption].
Qed.

End ForFiles.

(* ================================================================== *)
(** * What the decoders return *)
(* ================================================================== *)

Lemma double_scan_plausible (chunk : bytes) (indices : list Z) (x : float) :
  double_scan chunk indices = Some x -> plausible_amount x.
Proof.
  induction indices as [|i rest IH]; cbn [double_scan]; [discriminate|].
  destruct (py_getitem chunk i) as [b|]; [|discriminate].
  destruct (byte_val b =? 25); [|exact IH].
  destruct (unpack_d _) as [val|] eqn:Eu; [|exact IH].
  destruct (int_lt_float _ val && float_lt_int val _) eqn:Er; [|exact IH].
  intros H. inversion H; subst x. clear H IH.
  apply andb_true_iff in Er. destruct Er as [Hlo Hhi].
  unfold unpack_d in Eu. destruct (_ =? 8); [|discriminate].
  inversion Eu as [Ev]. pose proof (float_of_bits_nonneg (le_uint
    (slice chunk (i + 1) (i + 9)))) as Hm. rewrite Ev in Hm.
  destruct val as [|neg|neg m e]; try discriminate.
  - destruct neg; discriminate.
  - rewrite Ev. apply round2_plausible; assumption.
Qed.

Lemma extract_double_value_plausible (data : bytes) (start_pos max_search : Z)
    (x : float) :
  extract_double_value data start_pos max_search = Some x ->
  plausible_amount x.
Proof. apply double_scan_plausible. Qed.

(** What the assembler builds when it accepts. *)
Lemma assemble_transaction_some (amount : float) (name original_name date
    category_id account_id transaction_id iso_currency_code : option str)
    (pending : option bool) (city region : option str) (t : Transaction.t) :
  assemble_transaction amount name original_name date category_id account_id
    transaction_id iso_currency_code pending city region = Some t ->
  truthy (py_or name original_name) = true /\
  truthy transaction_id = true /\ truthy date = true /\
  exists tid d,
    transaction_id = Some tid /\ date = Some d /\
    t = Transaction.mk tid amount d name original_name account_id category_id
          iso_currency_code pending city region.
Proof.
  unfold assemble_transaction, new_Transaction.
  destruct (truthy (py_or name original_name)); [|discriminate].
  destruct (truthy transaction_id) eqn:Et; [|discriminate].
  destruct (truthy date) eqn:Ed; [|discriminate].
  destruct transaction_id as [tid|]; [|discriminate].
  destruct date as [d|]; [|discriminate].
  cbn [andb]. destruct (_ && _); [|discriminate].
  intros H. inversion H; subst. repeat split; try reflexivity.
  exists tid, d. auto.
Qed.

Lemma assemble_account_some (balance : float) (name official_name
    account_type subtype mask institution_name account_id : option str)
    (a : Account.t) :
  assemble_account balance name official_name account_type subtype mask
    institution_name account_id = Some a ->
  truthy account_id = true /\ truthy (py_or name official_name) = true /\
  exists aid,
    account_id = Some aid /\
    a = Account.mk aid balance name official_name mask account_type subtype
          institution_name.
Proof.
  unfold assemble_account, new_Account.
  destruct (truthy account_id) eqn:Ea; [|discriminate].
  destruct (truthy (py_or name official_name)); [|discriminate].
  destruct account_id as [aid|]; [|discriminate].
  cbn [andb]. intros H. inversion H; subst. repeat split.
  exists aid. auto.
Qed.

Lemma transaction_candidate_amount (data : bytes) (idx : Z)
    (t : Transaction.t) :
  transaction_candidate data idx = Some t -> good_amount t.
Proof.
  unfold transaction_candidate.
  destruct (extract_double_value data (idx + 8) 20) as [amount|] eqn:Ea;
    [|discriminate].
  destruct (float_eq_int amount 0) eqn:Ez; [discriminate|].
  intros H. apply assemble_transaction_some in H.
  destruct H as (_ & _ & _ & tid & d & _ & _ & ->).
  split; cbn [Transaction.amount]; [|assumption].
  eapply extract_double_value_plausible. eassumption.
Qed.

Lemma amount_anchor_nonempty : 0 < len amount_anchor.
Proof. reflexivity. Qed.

Lemma balance_anchor_nonempty : 0 < len (b_ "current_balance").
Proof. reflexivity. Qed.

Lemma transaction_step_good (data : bytes) (acc : list Transaction.t) :
  Forall good_amount acc -> Forall good_amount (transaction_step data acc).
Proof.
  intros Hacc. unfold transaction_step. destruct (_ || _); [assumption|].
  unfold anchor_scan.
  destruct (anchor_loop_appends amount_anchor transaction_candidate data
              (S (length data)) 0 acc) as (new & -> & Hnew).
  apply Forall_app. split; [assumption|].
  eapply Forall_impl; [|exact Hnew].
  intros t [idx Ht]. eapply transaction_candidate_amount. eassumption.
Qed.

(** The two phases of [decode_transactions]. *)
Lemma decode_transactions_inr (db_path : path) (fs : filesystem)
    (tr : list event) (result : list Transaction.t) :
  decode_transactions db_path fs = (tr, inr result) ->
  exists candidates,
    collect_transactions db_path fs = (tr, inr candidates) /\
    result = sort_desc Transaction.date
               (dedup transaction_key transaction_key_eqb candidates).
Proof.
  intros H. unfold decode_transactions in H. apply bind_inr in H.
  destruct H as (tr1 & cands & tr2 & H1 & H2 & ->).
  inversion H2; subst. rewrite app_nil_r. exists cands. auto.
Qed.

Lemma decode_accounts_inr (db_path : path) (fs : filesystem)
    (tr : list event) (result : list Account.t) :
  decode_accounts db_path fs = (tr, inr result) ->
  exists candidates,
    collect_accounts db_path fs = (tr, inr candidates) /\
    result = dedup account_key account_key_eqb candidates.
Proof.
  intros H. unfold decode_accounts in H. apply bind_inr in H.
  destruct H as (tr1 & cands & tr2 & H1 & H2 & ->).
  inversion H2; subst. rewrite app_nil_r. exists cands. auto.
Qed.

Lemma collect_transactions_good (db_path : path) (fs : filesystem)
    (tr : list event) (candidates : list Transaction.t) :
  collect_transactions db_path fs = (tr, inr candidates) ->
  Forall good_amount candidates.
Proof.
  intros H. unfold collect_transactions in H. apply bind_inr in H.
  destruct H as (tr1 & ex & tr2 & _ & H & _).
  destruct (negb ex); [discriminate|].
  apply bind_inr in H. destruct H as (tr3 & files & tr4 & _ & H & _).
  eapply (for_files_invariant _ _ scan_transaction_file_step
            (Forall good_amount)); [|constructor|exact H].
  intros data acc. apply transaction_step_good.
Qed.

Lemma good_amount_key_refl (t : Transaction.t) :
  good_amount t ->
  transaction_key_eqb (transaction_key t) (transaction_key t) = true.
Proof.
  intros [[Hf _] _]. unfold transaction_key, transaction_key_eqb.
  rewrite !str_eqb_refl, float_eqb_refl by assumption. reflexivity.
Qed.

(** C1: in the list [decode_transactions] returns no two elements share
    the [(display_name, amount, date)] key, each element is the first
    candidate with its key in scan order (files in directory order,
    anchors by offset), and every candidate's key is kept. *)
Theorem decode_transactions_unique_keys (db_path : path) (fs : filesystem)
    (tr : list event) (result : list Transaction.t) :
  decode_transactions db_path fs = (tr, inr result) ->
  exists candidates,
    collect_transactions db_path fs = (tr, inr candidates) /\
    NoDup result /\
    (forall a b, In a result -> In b result ->
       transaction_key_eqb (transaction_key a) (transaction_key b) = true ->
       a = b) /\
    (forall t, In t result ->
       first_of_key transaction_key transaction_key_eqb candidates t) /\
    (forall c, In c candidates ->
       exists t, In t result /\
         transaction_key_eqb (transaction_key c) (transaction_key t) = true).
Proof.
  intros H. apply decode_transactions_inr in H.
  destruct H as (cands & Hc & ->). exists cands. split; [assumption|].
  pose proof (collect_transactions_good _ _ _ _ Hc) as Hgood.
  rewrite Forall_forall in Hgood.
  destruct (dedup_spec transaction_key transaction_key_eqb
              transaction_key_eqb_trans cands) as (Hfresh & Hfirst & Hrep).
  set (unique := dedup transaction_key transaction_key_eqb cands) in *.
  assert (Hin : forall x, In x unique -> In x cands).
  { apply dedup_incl. exact transaction_key_eqb_trans. }
  destruct (fresh_keys_unique transaction_key transaction_key_eqb unique
              transaction_key_eqb_sym) as [Hnd Hinj]; [|assumption|].
  { intros x Hx. apply good_amount_key_refl, Hgood, Hin, Hx. }
  pose proof (sort_desc_perm Transaction.date unique) as Hperm.
  split; [|split; [|split]].
  - eapply Permutation_NoDup; [apply Permutation_sym; exact Hperm|assumption].
  - intros a b Ha Hb. apply Hinj; eapply Permutation_in; eassumption.
  - intros t Ht. apply Hfirst. eapply Permutation_in; eassumption.
  - intros c Hcin. destruct (Hrep c Hcin) as [Hu|(u & Hu & Hk)].
    + exists c. split.
      * eapply Permutation_in; [apply Permutation_sym; exact Hperm|assumption].
      * apply good_amount_key_refl, Hgood, Hcin.
    + exists u. split; [|assumption].
      eapply Permutation_in; [apply Permutation_sym; exact Hperm|assumption].
Qed.

(** The same for accounts, whose order after deduplication is the
    order of first appearance. *)
Lemma decode_accounts_unique_keys (db_path : path) (fs : filesystem)
    (tr : list event) (result : list Account.t) :
  decode_accounts db_path fs = (tr, inr result) ->
  exists candidates,
    collect_accounts db_path fs = (tr, inr candidates) /\
    NoDup result /\
    (forall a b, In a result -> In b result ->
       account_key a = account_key b -> a = b) /\
    (forall a, In a result ->
       first_of_key account_key account_key_eqb candidates a).
Proof.
  intros H. apply decode_accounts_inr in H.
  destruct H as (cands & Hc & ->). exists cands. split; [assumption|].
  assert (Htrans : forall k1 k2 k3, account_key_eqb k1 k2 = true ->
            account_key_eqb k2 k3 = true -> account_key_eqb k1 k3 = true).
  { intros k1 k2 k3. rewrite !account_key_eqb_eq. congruence. }
  destruct (dedup_spec account_key account_key_eqb Htrans cands)
    as (Hfresh & Hfirst & _).
  destruct (fresh_keys_unique account_key account_key_eqb
              (dedup account_key account_key_eqb cands)) as [Hnd Hinj];
    try assumption.
  - intros k1 k2. apply eq_true_iff_eq. rewrite !account_key_eqb_eq.
    split; congruence.
  - intros x _. apply account_key_eqb_eq. reflexivity.
  - split; [assumption|]. split; [|assumption].
    intros a b Ha Hb E. apply Hinj; try assumption.
    apply account_key_eqb_eq. assumption.
Qed.

(** C2: the list [decode_transactions] returns is in non-increasing
    order of [date], and the elements of any one date stand in the order
    they have after deduplication (the sort is stable). *)
Theorem decode_transactions_sorted (db_path : path) (fs : filesystem)
    (tr : list event) (result : list Transaction.t) :
  decode_transactions db_path fs = (tr, inr result) ->
  exists candidates unique,
    collect_transactions db_path fs = (tr, inr candidates) /\
    unique = dedup transaction_key transaction_key_eqb candidates /\
    StronglySorted (key_ge Transaction.date) result /\
    Permutation result unique /\
    forall d, filter (fun t => str_eqb (Transaction.date t) d) result
              = filter (fun t => str_eqb (Transaction.date t) d) unique.
Proof.
  intros H. apply decode_transactions_inr in H.
  destruct H as (cands & Hc & ->).
  exists cands, (dedup transaction_key transaction_key_eqb cands).
  split; [assumption|]. split; [reflexivity|]. split; [|split].
  - apply sort_desc_sorted.
  - apply sort_desc_perm.
  - intros d. apply sort_desc_stable.
Qed.

(** C10, as the code has it: every transaction [decode_transactions]
    returns has an amount that is not zero, is a two-decimal number and
    has magnitude at most 10,000,000; the bound itself can be reached,
    because the plausibility test comes before the rounding. *)
Theorem decode_transactions_amounts (db_path : path) (fs : filesystem)
    (tr : list event) (result : list Transaction.t) (t : Transaction.t) :
  decode_transactions db_path fs = (tr, inr result) ->
  In t result ->
  float_eq_int (Transaction.amount t) 0 = false /\
  abs_le (Transaction.amount t) 10000000 /\
  two_decimals (Transaction.amount t).
Proof.
  intros H Ht. apply decode_transactions_inr in H.
  destruct H as (cands & Hc & ->).
  pose proof (collect_transactions_good _ _ _ _ Hc) as Hgood.
  rewrite Forall_forall in Hgood.
  assert (Hin : In t cands).
  { eapply (dedup_incl transaction_key transaction_key_eqb
              transaction_key_eqb_trans).
    eapply Permutation_in; [apply sort_desc_perm|exact Ht]. }
  destruct (Hgood t Hin) as [(_ & Hle & H2) Hnz]. auto.
Qed.

(* ================================================================== *)
(** * Failures: missing directory, unreadable files, rejected
      candidates *)
(* ================================================================== *)

(** C3: when the database directory does not exist both decoders raise
    [FileNotFoundError]; the only thing they did before is the
    existence test: no directory listing, no file opened, no record. *)
Theorem missing_directory_not_found (db_path : path) (fs : filesystem) :
  fs db_path = None ->
  decode_transactions db_path fs
  = ([EvExists db_path], inl (FileNotFoundError db_path)) /\
  decode_accounts db_path fs
  = ([EvExists db_path], inl (FileNotFoundError db_path)).
Proof.
  intros H.
  unfold decode_transactions, decode_accounts, collect_transactions,
    collect_accounts, bind, path_exists.
  rewrite H. split; reflexivity.
Qed.

(** The two outcomes of the directory test, for either file loop. *)
Lemma collect_transactions_unfold (db_path : path) (fs : filesystem) :
  collect_transactions db_path fs
  = match fs db_path with
    | None => ([EvExists db_path], inl (FileNotFoundError db_path))
    | Some entries =>
        let '(tr, r) :=
          for_files (filter is_ldb entries) scan_transaction_file [] fs in
        (EvExists db_path :: EvGlob db_path :: tr, r)
    end.
Proof.
  unfold collect_transactions, bind, path_exists, glob_ldb. cbv beta.
  destruct (fs db_path) as [entries|] eqn:E; cbv beta iota; cbn [negb];
    cbv beta iota; [|reflexivity].
  rewrite E.
  destruct (for_files _ _ _ _) as [tr r]. reflexivity.
Qed.

Lemma collect_accounts_unfold (db_path : path) (fs : filesystem) :
  collect_accounts db_path fs
  = match fs db_path with
    | None => ([EvExists db_path], inl (FileNotFoundError db_path))
    | Some entries =>
        let '(tr, r) :=
          for_files (filter is_ldb entries) scan_account_file [] fs in
        (EvExists db_path :: EvGlob db_path :: tr, r)
    end.
Proof.
  unfold collect_accounts, bind, path_exists, glob_ldb. cbv beta.
  destruct (fs db_path) as [entries|] eqn:E; cbv beta iota; cbn [negb];
    cbv beta iota; [|reflexivity].
  rewrite E.
  destruct (for_files _ _ _ _) as [tr r]. reflexivity.
Qed.

(** With the directory in place, a decoder is its file loop over the
    table files followed by the pure post-processing. *)
Lemma decode_transactions_existing (db_path : path) (fs : filesystem)
    (entries : list dir_entry) :
  fs db_path = Some entries ->
  snd (decode_transactions db_path fs)
  = match snd (for_files (filter is_ldb entries) scan_transaction_file [] fs)
    with
    | inl e => inl e
    | inr candidates =>
        inr (sort_desc Transaction.date
               (dedup transaction_key transaction_key_eqb candidates))
    end.
Proof.
  intros H. unfold decode_transactions, bind.
  rewrite collect_transactions_unfold, H.
  destruct (for_files (filter is_ldb entries) scan_transaction_file [] fs)
    as [tr [e|c]]; reflexivity.
Qed.

Lemma decode_accounts_existing (db_path : path) (fs : filesystem)
    (entries : list dir_entry) :
  fs db_path = Some entries ->
  snd (decode_accounts db_path fs)
  = match snd (for_files (filter is_ldb entries) scan_account_file [] fs) with
    | inl e => inl e
    | inr candidates => inr (dedup account_key account_key_eqb candidates)
    end.
Proof.
  intros H. unfold decode_accounts, bind.
  rewrite collect_accounts_unfold, H.
  destruct (for_files (filter is_ldb entries) scan_account_file [] fs)
    as [tr [e|c]]; reflexivity.
Qed.

Lemma transaction_step_empty (acc : list Transaction.t) :
  transaction_step [] acc = acc.
Proof. reflexivity. Qed.

Lemma account_step_empty (acc : list Account.t) : account_step [] acc = acc.
Proof. reflexivity. Qed.

Lemma for_files_skip_empty {S} (body : dir_entry -> S -> io S)
    (step : bytes -> S -> S) (fs fs' : filesystem)
    (before after : list dir_entry) (f : dir_entry) (acc : S) :
  file_step body step -> (forall acc, step [] acc = acc) ->
  entry_file f = Readable [] ->
  snd (for_files (filter is_ldb (before ++ f :: after)) body acc fs)
  = snd (for_files (filter is_ldb (before ++ after)) body acc fs').
Proof.
  intros Hbody Hstep Hf. rewrite !filter_app. cbn [filter].
  destruct (is_ldb f).
  - eapply for_files_skip; eassumption.
  - eapply for_files_same; eassumption.
Qed.

(** C4, as the code has it.  In an existing directory:
    - when every table file can be read, both decoders return a list;
    - an empty table file changes nothing: the outcome is that of the
      directory without it;
    - the first table file that cannot be read ends the scan with its
      [OSError]: it is not skipped. *)
Theorem table_file_failures (db_path : path) (fs : filesystem)
    (entries : list dir_entry) :
  fs db_path = Some entries ->
  (Forall readable (filter is_ldb entries) ->
   (exists l, snd (decode_transactions db_path fs) = inr l) /\
   (exists l, snd (decode_accounts db_path fs) = inr l)) /\
  (forall before f after fs',
     entries = before ++ f :: after -> entry_file f = Readable [] ->
     fs' db_path = Some (before ++ after) ->
     snd (decode_transactions db_path fs)
     = snd (decode_transactions db_path fs') /\
     snd (decode_accounts db_path fs) = snd (decode_accounts db_path fs')) /\
  (forall before f after,
     filter is_ldb entries = before ++ f :: after ->
     Forall readable before -> entry_file f = Unreadable ->
     snd (decode_transactions db_path fs) = inl (OSError (entry_name f)) /\
     snd (decode_accounts db_path fs) = inl (OSError (entry_name f))).
Proof.
  intros Hdir.
  rewrite (decode_transactions_existing _ _ _ Hdir).
  rewrite (decode_accounts_existing _ _ _ Hdir).
  split; [|split].
  - intros Hr. split.
    + destruct (for_files_readable _ _ scan_transaction_file_step fs _ [] Hr)
        as (tr & acc & ->). cbn [snd]. eauto.
    + destruct (for_files_readable _ _ scan_account_file_step fs _ [] Hr)
        as (tr & acc & ->). cbn [snd]. eauto.
  - intros before f after fs' -> Hf Hdir'.
    rewrite (decode_transactions_existing _ _ _ Hdir').
    rewrite (decode_accounts_existing _ _ _ Hdir').
    rewrite (for_files_skip_empty scan_transaction_file transaction_step fs fs')
      by (first [exact scan_transaction_file_step | exact transaction_step_empty
                | exact Hf]).
    rewrite (for_files_skip_empty scan_account_file account_step fs fs')
      by (first [exact scan_account_file_step | exact account_step_empty
                | exact Hf]).
    split; reflexivity.
  - intros before f after -> Hr Hf. split.
    + destruct (for_files_unreadable _ _ scan_transaction_file_step fs
                  before f after [] Hr Hf) as (tr & ->). reflexivity.
    + destruct (for_files_unreadable _ _ scan_account_file_step fs
                  before f after [] Hr Hf) as (tr & ->). reflexivity.
Qed.

(** C7: the assembler accepts a candidate only under the presence
    invariant of its kind -- a display name ([name or original_name]), a
    transaction identifier and a date for a transaction; an account
    identifier and one of [name], [official_name] for an account -- and a
    candidate without it yields no record and no exception: the anchor
    loop goes on with the search right after the anchor. *)
Theorem assembler_presence_invariant :
  (forall amount name original_name date category_id account_id
          transaction_id iso_currency_code pending city region,
     (forall t,
        assemble_transaction amount name original_name date category_id
          account_id transaction_id iso_currency_code pending city region
        = Some t ->
        truthy (py_or name original_name) = true /\
        truthy transaction_id = true /\ truthy date = true) /\
     (truthy (py_or name original_name) && truthy transaction_id
        && truthy date = false ->
      assemble_transaction amount name original_name date category_id
        account_id transaction_id iso_currency_code pending city region
      = None)) /\
  (forall balance name official_name account_type subtype mask
          institution_name account_id,
     (forall a,
        assemble_account balance name official_name account_type subtype
          mask institution_name account_id = Some a ->
        truthy account_id = true /\
        (truthy name = true \/ truthy official_name = true)) /\
     (truthy account_id && (truthy name || truthy official_name) = false ->
      assemble_account balance name official_name account_type subtype
        mask institution_name account_id = None)) /\
  (forall data search_pos idx (acc : list Transaction.t),
     0 <= search_pos ->
     bytes_find data amount_anchor search_pos = Some idx ->
     transaction_candidate data idx = None ->
     anchor_scan amount_anchor transaction_candidate data search_pos acc
     = anchor_scan amount_anchor transaction_candidate data (idx + 1) acc) /\
  (forall data search_pos idx (acc : list Account.t),
     0 <= search_pos ->
     bytes_find data (b_ "current_balance") search_pos = Some idx ->
     account_candidate data idx = None ->
     anchor_scan (b_ "current_balance") account_candidate data search_pos acc
     = anchor_scan (b_ "current_balance") account_candidate data (idx + 1) acc).
Proof.
  split; [|split; [|split]].
  - intros. split.
    + intros t H. apply assemble_transaction_some in H. tauto.
    + intros H. unfold assemble_transaction. rewrite H. reflexivity.
  - intros. split.
    + intros a H. apply assemble_account_some in H.
      destruct H as (Ha & Hn & _). split; [assumption|].
      unfold py_or in Hn. destruct (truthy name); auto.
    + intros H. unfold assemble_account.
      replace (truthy (py_or name official_name))
        with (truthy name || truthy official_name)
        by (unfold py_or; destruct (truthy name) eqn:E; simpl; auto).
      rewrite H. reflexivity.
  - intros data sp idx acc Hsp Hfind Hcand.
    rewrite anchor_scan_eq by (exact amount_anchor_nonempty || assumption).
    rewrite Hfind, Hcand. reflexivity.
  - intros data sp idx acc Hsp Hfind Hcand.
    rewrite anchor_scan_eq by (exact balance_anchor_nonempty || assumption).
    rewrite Hfind, Hcand. reflexivity.
Qed.

(* ================================================================== *)
(** * The cache of the query layer *)
(* ================================================================== *)

Lemma count_event_app (p : event -> bool) (a b : list event) :
  count_event p (a ++ b) = (count_event p a + count_event p b)%nat.
Proof. unfold count_event. rewrite filter_app, length_app. reflexivity. Qed.

Lemma count_event_io (p : event -> bool) (tr : list event) :
  (forall e, io_event e = true -> p e = false) ->
  Forall (fun e => io_event e = true) tr -> count_event p tr = 0%nat.
Proof.
  intros Hp Htr. unfold count_event.
  induction Htr as [|e tr He _ IH]; [reflexivity|].
  cbn [filter]. rewrite (Hp e He). assumption.
Qed.

Lemma is_call_io (d : decoder) (e : event) :
  io_event e = true -> is_call d e = false.
Proof. destruct e, d; simpl; congruence. Qed.

Lemma is_return_io (d : decoder) (e : event) :
  io_event e = true -> is_return d e = false.
Proof. destruct e, d; simpl; congruence. Qed.

Lemma open_io (tr : list event) :
  Forall (fun e => is_open e = true) tr ->
  Forall (fun e => io_event e = true) tr.
Proof.
  apply Forall_impl. intros e. destruct e; simpl; congruence.
Qed.

(** The decoders touch the outside world only by real I/O. *)
Lemma decode_transactions_trace (p : path) (fs : filesystem) :
  Forall (fun e => io_event e = true) (fst (decode_transactions p fs)).
Proof.
  unfold decode_transactions, bind. rewrite collect_transactions_unfold.
  destruct (fs p) as [entries|]; [|repeat constructor].
  pose proof (for_files_trace _ _ scan_transaction_file_step fs
                (filter is_ldb entries) []) as H.
  destruct (for_files _ _ _ _) as [tr [e|c]]; cbn [fst ret app] in *;
    rewrite ?app_nil_r; repeat (constructor; [reflexivity|]);
    apply open_io; assumption.
Qed.

Lemma decode_accounts_trace (p : path) (fs : filesystem) :
  Forall (fun e => io_event e = true) (fst (decode_accounts p fs)).
Proof.
  unfold decode_accounts, bind. rewrite collect_accounts_unfold.
  destruct (fs p) as [entries|]; [|repeat constructor].
  pose proof (for_files_trace _ _ scan_account_file_step fs
                (filter is_ldb entries) []) as H.
  destruct (for_files _ _ _ _) as [tr [e|c]]; cbn [fst ret app] in *;
    rewrite ?app_nil_r; repeat (constructor; [reflexivity|]);
    apply open_io; assumption.
Qed.

Lemma run_decoder_trace (d : decoder) (p : path) (fs : filesystem) :
  Forall (fun e => io_event e = true) (fst (run_decoder d p fs)).
Proof.
  unfold run_decoder. destruct d.
  - pose proof (decode_transactions_trace p fs) as H.
    destruct (decode_transactions p fs). exact H.
  - pose proof (decode_accounts_trace p fs) as H.
    destruct (decode_accounts p fs). exact H.
Qed.

(** The decoding a call asks for: what its [load] does. *)
Lemma run_call_effect (c : call) (self : CopilotDatabase) (fs : filesystem) :
  effect (run_call c self fs) = effect (load (call_decoder_of c) self fs).
Proof.
  destruct c; cbn [run_call call_decoder_of load];
    unfold get_transactions, search_transactions, get_accounts, get_categories,
      method_map;
    try (destruct (load_transactions self fs) as [[tr s] [e|l]]; reflexivity);
    try (destruct (load_accounts self fs) as [[tr s] [e|l]]; reflexivity).
Qed.

(** With the collection in the cache, [load] returns it: no decoder
    call, no I/O, the object as it was. *)
Lemma load_cached (d : decoder) (self : CopilotDatabase) (fs : filesystem)
    (v : collection) :
  cache d self = Some v -> load d self fs = ([], self, inr v).
Proof.
  destruct d; cbn [cache load]; unfold method_map, load_transactions,
    load_accounts.
  - destruct (_transactions self); [|discriminate].
    intros H. inversion H. reflexivity.
  - destruct (_accounts self); [|discriminate].
    intros H. inversion H. reflexivity.
Qed.

(** With an empty cache, [load] calls the decoder once; a returned
    collection is stored, an exception leaves the object as it was. *)
Lemma load_empty (d : decoder) (self : CopilotDatabase) (fs : filesystem) :
  cache d self = None ->
  match run_decoder d (db_path self) fs with
  | (tr, inr v) =>
      exists self',
        load d self fs = (EvCall d :: tr ++ [EvReturn d], self', inr v) /\
        cache d self' = Some v /\
        (forall d', d' <> d -> cache d' self' = cache d' self)
  | (tr, inl e) => load d self fs = (EvCall d :: tr ++ [], self, inl e)
  end.
Proof.
  destruct d; cbn [cache load run_decoder]; unfold method_map,
    load_transactions, load_accounts, call_decoder.
  - destruct (_transactions self); [discriminate|]. intros _.
    destruct (decode_transactions (db_path self) fs) as [tr [e|l]];
      [reflexivity|].
    eexists. split; [reflexivity|]. split; [reflexivity|].
    intros d' Hd'. destruct d'; [congruence|reflexivity].
  - destruct (_accounts self); [discriminate|]. intros _.
    destruct (decode_accounts (db_path self) fs) as [tr [e|l]];
      [reflexivity|].
    eexists. split; [reflexivity|]. split; [reflexivity|].
    intros d' Hd'. destruct d'; [reflexivity|congruence].
Qed.

Lemma decoder_eqb_eq (d d' : decoder) : decoder_eqb d d' = true <-> d = d'.
Proof. destruct d, d'; simpl; split; congruence. Qed.

Lemma count_event_cons (p : event -> bool) (e : event) (tr : list event) :
  count_event p (e :: tr)
  = ((if p e then 1 else 0) + count_event p tr)%nat.
Proof. unfold count_event. cbn [filter]. destruct (p e); reflexivity. Qed.

Lemma is_call_EvCall (d d' : decoder) :
  is_call d (EvCall d') = decoder_eqb d d'.
Proof. destruct d, d'; reflexivity. Qed.

Lemma is_return_EvReturn (d d' : decoder) :
  is_return d (EvReturn d') = decoder_eqb d d'.
Proof. destruct d, d'; reflexivity. Qed.

(** The events of one decoder invocation, counted. *)
Lemma count_call_invocation (d d' : decoder) (tr ghost : list event) :
  Forall (fun e => io_event e = true) tr ->
  Forall (fun e => is_call d e = false) ghost ->
  count_event (is_call d) (EvCall d' :: tr ++ ghost)
  = if decoder_eqb d d' then 1%nat else 0%nat.
Proof.
  intros Htr Hg. rewrite count_event_cons, count_event_app, is_call_EvCall.
  rewrite (count_event_io _ tr (is_call_io d) Htr).
  assert (E : count_event (is_call d) ghost = 0%nat).
  { unfold count_event. induction Hg as [|e g He _ IH]; [reflexivity|].
    cbn [filter]. rewrite He. assumption. }
  rewrite E. destruct (decoder_eqb d d'); reflexivity.
Qed.

Lemma count_return_invocation (d d' : decoder) (tr ghost : list event) :
  Forall (fun e => io_event e = true) tr ->
  count_event (is_return d) (EvCall d' :: tr ++ ghost)
  = count_event (is_return d) ghost.
Proof.
  intros Htr. rewrite count_event_cons, count_event_app.
  rewrite (count_event_io _ tr (is_return_io d) Htr).
  destruct d, d'; reflexivity.
Qed.

(** One call, seen from decoder [d]: the number of its invocations and
    of its returns, and its cache afterwards. *)
Lemma load_counts (d d' : decoder) (self self' : CopilotDatabase)
    (fs : filesystem) (tr : list event) (r : exn + collection) :
  load d' self fs = (tr, self', r) ->
  match cache d self with
  | Some v =>
      count_event (is_call d) tr = 0%nat /\
      count_event (is_return d) tr = 0%nat /\ cache d self' = Some v
  | None =>
      (count_event (is_return d) tr = 0%nat /\ cache d self' = None) \/
      (count_event (is_return d) tr = 1%nat /\ cache d self' <> None)
  end.
Proof.
  intros Hload. destruct (cache d' self) as [v'|] eqn:E'.
  - rewrite (load_cached d' self fs v' E') in Hload.
    inversion Hload; subst.
    destruct (cache d self'); [repeat split|left; split]; reflexivity.
  - pose proof (load_empty d' self fs E') as H.
    pose proof (run_decoder_trace d' (db_path self) fs) as Htr.
    destruct (run_decoder d' (db_path self) fs) as [tr0 [e|v']];
      cbn [fst] in Htr.
    + rewrite H in Hload. inversion Hload; subst.
      rewrite count_return_invocation by assumption.
      rewrite count_call_invocation by (assumption || constructor).
      destruct (cache d self') as [v|] eqn:E.
      * destruct (decoder_eqb d d') eqn:Ed; [|auto].
        apply decoder_eqb_eq in Ed. congruence.
      * left. auto.
    + destruct H as (s & Hs & Hc & Hother). rewrite Hs in Hload.
      inversion Hload; subst.
      rewrite count_return_invocation by assumption.
      rewrite count_call_invocation
        by (assumption || (repeat constructor; destruct d; reflexivity)).
      rewrite count_event_cons, is_return_EvReturn.
      destruct (decoder_eqb d d') eqn:Ed.
      * apply decoder_eqb_eq in Ed. subst d'. rewrite E'.
        right. rewrite Hc. split; [reflexivity|discriminate].
      * assert (Hne : d <> d').
        { intros ->. destruct d'; discriminate. }
        rewrite (Hother d Hne).
        destruct (cache d self); [repeat split|left; split]; reflexivity.
Qed.

Lemma effect_eq {A B} (x : list event * CopilotDatabase * (exn + A))
    (y : list event * CopilotDatabase * (exn + B)) :
  effect x = effect y -> fst x = fst y.
Proof.
  destruct x as [[tr s] r], y as [[tr' s'] r']. cbn. congruence.
Qed.

Lemma run_calls_counts (d : decoder) (calls : list (filesystem * call)) :
  forall (self self' : CopilotDatabase) (tr : list event),
    run_calls calls self = (tr, self') ->
    match cache d self with
    | Some v =>
        count_event (is_call d) tr = 0%nat /\
        count_event (is_return d) tr = 0%nat /\ cache d self' = Some v
    | None =>
        (count_event (is_return d) tr = 0%nat /\ cache d self' = None) \/
        (count_event (is_return d) tr = 1%nat /\ cache d self' <> None)
    end.
Proof.
  induction calls as [|[fs c] calls IH]; intros self self' tr H.
  - cbn in H. inversion H; subst.
    destruct (cache d self'); [repeat split|left; split]; reflexivity.
  - cbn [run_calls] in H.
    pose proof (effect_eq _ _ (run_call_effect c self fs)) as Heff.
    destruct (run_call c self fs) as [[tr1 self1] r1].
    destruct (load (call_decoder_of c) self fs) as [[tr1' self1'] r1'] eqn:El.
    cbn [fst] in Heff. inversion Heff; subst tr1' self1'.
    destruct (run_calls calls self1) as [tr2 self2] eqn:Er.
    inversion H; subst. specialize (IH _ _ _ Er).
    pose proof (load_counts d _ _ _ _ _ _ El) as H1.
    rewrite !count_event_app.
    destruct (cache d self) as [v|].
    + destruct H1 as (Hc & Hr & Hv). rewrite Hv in IH.
      destruct IH as (Hc2 & Hr2 & Hv2). rewrite Hc, Hr, Hc2, Hr2. auto.
    + destruct H1 as [[Hr Hv]|[Hr Hv]].
      * rewrite Hv in IH. rewrite Hr. exact IH.
      * destruct (cache d self1) as [v1|]; [|congruence].
        destruct IH as (_ & Hr2 & Hv2). rewrite Hr, Hr2, Hv2.
        right. split; [reflexivity|discriminate].
Qed.

(** With the collection [v] cached, a call answers what its filters
    make of [v]: no decoder call, no I/O, the object as it was. *)
Lemma run_call_cached (c : call) (self : CopilotDatabase) (fs : filesystem)
    (v : collection) :
  cache (call_decoder_of c) self = Some v ->
  exists a, answer_from c v = Some a /\
            run_call c self fs = ([], self, inr a).
Proof.
  intros Hc.
  destruct c; cbn [call_decoder_of cache] in Hc; cbn [run_call];
    unfold get_transactions, search_transactions, get_accounts, get_categories,
      method_map, load_transactions, load_accounts.
  - destruct (_transactions self); [|discriminate].
    injection Hc as <-. eexists. split; reflexivity.
  - destruct (_transactions self); [|discriminate].
    injection Hc as <-. eexists. split; reflexivity.
  - destruct (_accounts self); [|discriminate].
    injection Hc as <-. eexists. split; reflexivity.
  - destruct (_transactions self); [|discriminate].
    injection Hc as <-. eexists. split; reflexivity.
Qed.

(** A call is its [load] followed by its filters. *)
Lemma run_call_load (c : call) (self : CopilotDatabase) (fs : filesystem) :
  match load (call_decoder_of c) self fs with
  | (tr, self', inl e) => run_call c self fs = (tr, self', inl e)
  | (tr, self', inr v) =>
      exists a, answer_from c v = Some a /\
                run_call c self fs = (tr, self', inr a)
  end.
Proof.
  destruct c; cbn [run_call call_decoder_of load];
    unfold get_transactions, search_transactions, get_accounts, get_categories,
      method_map;
    try (destruct (load_transactions self fs) as [[tr s] [e|l]];
         [reflexivity|eexists; split; reflexivity]);
    try (destruct (load_accounts self fs) as [[tr s] [e|l]];
         [reflexivity|eexists; split; reflexivity]).
Qed.

(** A call on an object that holds nothing for its decoder. *)
Lemma run_call_empty (c : call) (self self1 : CopilotDatabase)
    (fs : filesystem) (tr1 : list event) (r : exn + answer) :
  cache (call_decoder_of c) self = None ->
  run_call c self fs = (tr1, self1, r) ->
  count_event (is_call (call_decoder_of c)) tr1 = 1%nat /\
  match run_decoder (call_decoder_of c) (db_path self) fs with
  | (_, inr v) =>
      cache (call_decoder_of c) self1 = Some v /\
      exists a, answer_from c v = Some a /\ r = inr a
  | (_, inl e) => self1 = self /\ r = inl e
  end.
Proof.
  intros Hnone Hcall.
  pose proof (run_call_load c self fs) as Hrc.
  pose proof (load_empty _ self fs Hnone) as Hl.
  pose proof (run_decoder_trace (call_decoder_of c) (db_path self) fs) as Htr.
  assert (Hsame : decoder_eqb (call_decoder_of c) (call_decoder_of c) = true)
    by (destruct (call_decoder_of c); reflexivity).
  destruct (run_decoder (call_decoder_of c) (db_path self) fs)
    as [tr0 [e|v]]; cbn [fst] in Htr.
  - rewrite Hl in Hrc. rewrite Hrc in Hcall.
    injection Hcall as <- <- <-.
    rewrite count_call_invocation by (assumption || constructor).
    rewrite Hsame. auto.
  - destruct Hl as (s & Hs & Hc & _). rewrite Hs in Hrc.
    destruct Hrc as (a & Ha & Hrc). rewrite Hrc in Hcall.
    injection Hcall as <- <- <-.
    rewrite count_call_invocation
      by (assumption ||
          (repeat constructor; destruct (call_decoder_of c); reflexivity)).
    rewrite Hsame. split; [reflexivity|]. split; [assumption|].
    exists a. split; [assumption|reflexivity].
Qed.

(** C9 (amended): over any session on one object, and for either
    collection:
    - the decoder returns a collection at most once, and none once a
      collection is stored;
    - from the moment a collection is stored no call invokes the
      decoder, and the stored collection stays what it is;
    - a call on an object that holds the collection [v] answers what
      its filters make of [v], whatever the files are by then, without
      any event and leaving the object as it is;
    - a call that finds nothing stored invokes the decoder exactly
      once; if the decoder returns [v], [v] is stored and the call
      answers what its filters make of [v]; if the decoder raises, the
      call raises the same exception and the object stays as it was, so
      that the next call invokes the decoder again;
    - when the decoder returns in the first call of the session, that
      invocation is the only one of the whole session. *)
Theorem collection_decoded_once (d : decoder)
    (calls : list (filesystem * call)) (self self' : CopilotDatabase)
    (tr : list event) :
  run_calls calls self = (tr, self') ->
  (count_event (is_return d) tr
   + (if cache_filled d self then 1 else 0) <= 1)%nat /\
  (forall v, cache d self = Some v ->
     count_event (is_call d) tr = 0%nat /\ cache d self' = Some v) /\
  (forall c v fs, call_decoder_of c = d -> cache d self = Some v ->
     exists a, answer_from c v = Some a /\
               run_call c self fs = ([], self, inr a)) /\
  (forall c fs tr1 self1 r, call_decoder_of c = d -> cache d self = None ->
     run_call c self fs = (tr1, self1, r) ->
     count_event (is_call d) tr1 = 1%nat /\
     match run_decoder d (db_path self) fs with
     | (_, inr v) =>
         cache d self1 = Some v /\
         exists a, answer_from c v = Some a /\ r = inr a
     | (_, inl e) => self1 = self /\ r = inl e
     end) /\
  (forall fs c rest v, calls = (fs, c) :: rest -> call_decoder_of c = d ->
     cache d self = None ->
     snd (run_decoder d (db_path self) fs) = inr v ->
     count_event (is_call d) tr = 1%nat /\ cache d self' = Some v).
Proof.
  intros Hrun. pose proof (run_calls_counts d calls self self' tr Hrun) as H.
  assert (Hfilled : cache_filled d self
                    = match cache d self with Some _ => true | None => false end).
  { destruct d; cbn; [destruct (_transactions self)|destruct (_accounts self)];
      reflexivity. }
  split; [|split; [|split; [|split]]].
  - rewrite Hfilled. destruct (cache d self).
    + destruct H as (_ & -> & _). cbn. lia.
    + destruct H as [[-> _]|[-> _]]; cbn; lia.
  - intros v Hv. rewrite Hv in H. destruct H as (Hc & _ & Hs). auto.
  - intros c v fs <- Hv. apply run_call_cached. assumption.
  - intros c fs tr1 self1 r <- Hnone Hcall.
    apply run_call_empty; assumption.
  - intros fs c rest v -> <- Hnone Hret. cbn [run_calls] in Hrun.
    destruct (run_call c self fs) as [[tr1 self1] r1] eqn:Hcall.
    destruct (run_calls rest self1) as [tr2 self2] eqn:Hrest.
    injection Hrun as <- <-.
    destruct (run_call_empty c self self1 fs tr1 r1 Hnone Hcall)
      as [Hone Hstored].
    destruct (run_decoder (call_decoder_of c) (db_path self) fs)
      as [tr0 [e|v0]]; cbn [snd] in Hret; [discriminate|].
    injection Hret as ->. destruct Hstored as [Hv _].
    pose proof (run_calls_counts (call_decoder_of c) rest self1 self2 tr2
                  Hrest) as Hlater.
    rewrite Hv in Hlater. destruct Hlater as (Hzero & _ & Hkeep).
    rewrite count_event_app, Hone, Hzero. split; [reflexivity|assumption].
Qed.

(* ================================================================== *)
(** * [decode_varint] on arbitrary buffers and offsets *)
(* ================================================================== *)

Lemma py_getitem_from_end {A} (l : list A) (i : Z) :
  - len l <= i < len l -> exists x, py_getitem l i = Some x.
Proof.
  intros Hi. unfold py_getitem. destruct (Z.ltb_spec i 0).
  - destruct (Z.ltb_spec (i + len l) 0); [lia|].
    destruct (nth_error l (Z.to_nat (i + len l))) as [x|] eqn:E; [eauto|].
    apply nth_error_None in E. unfold len in *. lia.
  - destruct (nth_error l (Z.to_nat i)) as [x|] eqn:E; [eauto|].
    apply nth_error_None in E. unfold len in *. lia.
Qed.

Lemma low7_range (b : Z) : 0 <= Z.land b 0x7F < 128.
Proof.
  change 0x7F with (Z.ones 7). rewrite Z.land_ones by lia.
  apply Z.mod_pos_bound. reflexivity.
Qed.

Lemma lor_below_pow2 (a b n : Z) :
  0 <= n -> 0 <= a < 2 ^ n -> 0 <= b < 2 ^ n -> 0 <= Z.lor a b < 2 ^ n.
Proof.
  intros Hn Ha Hb. split; [apply Z.lor_nonneg; lia|].
  destruct (Z.eq_dec (Z.lor a b) 0) as [->|Hz];
    [apply Z.pow_pos_nonneg; lia|].
  assert (Hpos : 0 < Z.lor a b).
  { assert (0 <= Z.lor a b) by (apply Z.lor_nonneg; lia). lia. }
  apply Z.log2_lt_pow2; [assumption|].
  rewrite Z.log2_lor by lia.
  destruct (Z.eq_dec a 0) as [->|Ha0], (Z.eq_dec b 0) as [->|Hb0];
    try (rewrite Z.lor_0_l in Hz); try (rewrite Z.lor_0_r in Hz);
    try contradiction.
  - change (Z.log2 0) with 0. rewrite Z.max_r by apply Z.log2_nonneg.
    apply Z.log2_lt_pow2; lia.
  - change (Z.log2 0) with 0. rewrite Z.max_l by apply Z.log2_nonneg.
    apply Z.log2_lt_pow2; lia.
  - apply Z.max_lub_lt; apply Z.log2_lt_pow2; lia.
Qed.

Lemma group_below_pow2 (b shift : Z) :
  0 <= shift -> 0 <= Z.shiftl (Z.land b 0x7F) shift < 2 ^ (shift + 7).
Proof.
  intros Hs. pose proof (low7_range b) as Hb.
  rewrite Z.shiftl_mul_pow2 by assumption.
  rewrite Z.pow_add_r by lia. change (2 ^ 7) with 128.
  assert (0 < 2 ^ shift) by (apply Z.pow_pos_nonneg; lia). nia.
Qed.

(** From any offset at or after [-len(data)] the loop returns: the new
    offset is not before the old one and not beyond the end of the
    buffer (or the old offset, if that is beyond it already), and the
    bits gathered stay below [2^(shift + 7 * bytes read)]. *)
Lemma decode_varint_loop_bounds (data : bytes) (fuel : nat) :
  forall result shift pos,
    - len data <= pos -> 0 <= shift -> 0 <= result < 2 ^ shift ->
    exists v pos',
      decode_varint_loop fuel data result shift pos = Some (v, pos') /\
      pos <= pos' <= Z.max pos (len data) /\
      0 <= v < 2 ^ (shift + 7 * (pos' - pos)).
Proof.
  induction fuel as [|fuel IH]; intros result shift pos Hpos Hs Hr.
  - exists result, pos. cbn [decode_varint_loop].
    replace (shift + 7 * (pos - pos)) with shift by lia.
    repeat split; try lia.
  - cbn [decode_varint_loop]. destruct (Z.ltb_spec pos (len data)) as [Hlt|Hge].
    + destruct (py_getitem_from_end data pos ltac:(lia)) as [b Hb].
      rewrite Hb. cbv zeta.
      assert (Hnew : 0 <= Z.lor result (Z.shiftl (Z.land (byte_val b) 127) shift)
                     < 2 ^ (shift + 7)).
      { apply lor_below_pow2; [lia| |apply group_below_pow2; assumption].
        split; [lia|]. apply Z.lt_le_trans with (2 ^ shift); [lia|].
        apply Z.pow_le_mono_r; lia. }
      destruct (Z.land (byte_val b) 128 =? 0).
      * eexists. eexists. split; [reflexivity|].
        replace (shift + 7 * (pos + 1 - pos)) with (shift + 7) by lia.
        split; [lia|assumption].
      * destruct (IH _ (shift + 7) (pos + 1) ltac:(lia) ltac:(lia) Hnew)
          as (v & pos' & E & Hp & Hv).
        exists v, pos'. split; [assumption|]. split; [lia|].
        replace (shift + 7 * (pos' - pos))
          with (shift + 7 + 7 * (pos' - (pos + 1))) by lia.
        assumption.
    + exists result, pos.
      replace (shift + 7 * (pos - pos)) with shift by lia.
      repeat split; lia.
Qed.

(** [decode_varint] fails in one case only: an offset before
    [-len(data)], where [data[pos]] raises [IndexError].  In all other
    cases it returns a non-negative value below [2^(7 * bytes read)] and
    an offset between the old one and the end of the buffer; from an
    offset at or beyond the end it returns [(0, pos)]. *)
Theorem decode_varint_total (data : bytes) (pos : Z) :
  (pos < - len data -> decode_varint data pos = None) /\
  (- len data <= pos ->
   exists v pos',
     decode_varint data pos = Some (v, pos') /\
     pos <= pos' <= Z.max pos (len data) /\
     0 <= v < 2 ^ (7 * (pos' - pos))) /\
  (len data <= pos -> decode_varint data pos = Some (0, pos)).
Proof.
  pose proof (len_nonneg data) as Hlen. split; [|split].
  - intros Hpos. unfold decode_varint.
    destruct (Z.to_nat (len data - pos)) as [|fuel] eqn:E; [lia|].
    cbn [decode_varint_loop].
    destruct (Z.ltb_spec pos (len data)); [|lia].
    unfold py_getitem. destruct (Z.ltb_spec pos 0); [|lia].
    destruct (Z.ltb_spec (pos + len data) 0); [reflexivity|lia].
  - intros Hpos. unfold decode_varint.
    destruct (decode_varint_loop_bounds data (Z.to_nat (len data - pos))
                0 0 pos Hpos ltac:(lia) ltac:(change (2 ^ 0) with 1; lia))
      as (v & pos' & E & Hp & Hv).
    exists v, pos'. auto.
  - intros Hpos. unfold decode_varint.
    replace (Z.to_nat (len data - pos)) with O by lia. reflexivity.
Qed.

(** A varint cut off by the end of the buffer: when every byte from the
    offset on has its high bit set, the value of those bytes and the
    length of the buffer are returned. *)
Lemma decode_varint_loop_unterminated (conts : bytes) :
  forall (pre : bytes) (fuel : nat) (result shift : Z),
    Forall high_bit_set conts -> 0 <= shift ->
    (length conts <= fuel)%nat ->
    decode_varint_loop fuel (pre ++ conts) result shift (len pre)
    = Some (Z.lor result (Z.shiftl (varint_value conts) shift),
            len pre + len conts).
Proof.
  induction conts as [|c conts IH]; intros pre fuel result shift Hc Hs Hf.
  - rewrite app_nil_r. cbn [varint_value].
    rewrite Z.shiftl_0_l, Z.lor_0_r. change (len (@nil byte)) with 0.
    rewrite Z.add_0_r.
    destruct fuel as [|fuel]; cbn [decode_varint_loop]; [reflexivity|].
    destruct (Z.ltb_spec (len pre) (len pre)); [lia|reflexivity].
  - destruct fuel as [|fuel]; [simpl in Hf; lia|].
    inversion Hc as [|? ? Hc1 Hc2]; subst.
    cbn [decode_varint_loop]. rewrite len_app, len_cons.
    pose proof (len_nonneg pre). pose proof (len_nonneg conts).
    destruct (Z.ltb_spec (len pre) (len pre + (len conts + 1))); [|lia].
    rewrite py_getitem_app. cbv zeta.
    red in Hc1.
    destruct (Z.eqb_spec (Z.land (byte_val c) 128) 0) as [E|_]; [contradiction|].
    replace (pre ++ c :: conts) with ((pre ++ [c]) ++ conts)
      by (rewrite <- app_assoc; reflexivity).
    replace (len pre + 1) with (len (pre ++ [c]))
      by (rewrite len_app; reflexivity).
    rewrite IH; [|assumption|lia|simpl in Hf; lia].
    cbn [varint_value]. rewrite accumulate_group by assumption.
    rewrite len_app. change (len [c]) with 1. f_equal. f_equal. lia.
Qed.

Theorem decode_varint_unterminated (pre conts : bytes) :
  Forall high_bit_set conts ->
  decode_varint (pre ++ conts) (len pre)
  = Some (varint_value conts, len (pre ++ conts)).
Proof.
  intros Hc. unfold decode_varint.
  rewrite decode_varint_loop_unterminated; try assumption; try lia.
  - rewrite Z.shiftl_0_r, len_app. reflexivity.
  - rewrite len_app. unfold len. lia.
Qed.

(* ================================================================== *)
(** * The anchor loop visits every occurrence *)
(* ================================================================== *)

Lemma starts_with_firstn (data pat : bytes) :
  starts_with data pat = true <-> firstn (length pat) data = pat.
Proof.
  revert data. induction pat as [|p pat IH]; intros data.
  - destruct data; cbn; split; reflexivity.
  - destruct data as [|d data]; cbn [starts_with firstn length].
    + split; discriminate.
    + rewrite andb_true_iff, IH. split.
      * intros [Hb Hrest]. apply Byte.byte_dec_bl in Hb. subst p.
        rewrite Hrest. reflexivity.
      * intros E. injection E as Hd Hrest. split; [|exact Hrest].
        subst p. apply Byte.byte_dec_lb. reflexivity.
Qed.

Lemma slice_firstn (data : bytes) (i n : Z) :
  0 <= i -> 0 <= n ->
  slice data i (i + n) = firstn (Z.to_nat n) (skipn (Z.to_nat i) data).
Proof.
  intros Hi Hn. unfold slice, slice_bound.
  destruct (Z.ltb_spec i 0); [lia|]. destruct (Z.ltb_spec (i + n) 0); [lia|].
  destruct (Z.le_gt_cases i (len data)) as [Hle|Hgt].
  - rewrite (Z.min_l i) by lia.
    destruct (Z.le_gt_cases (i + n) (len data)).
    + rewrite Z.min_l by lia. f_equal. lia.
    + rewrite Z.min_r by lia.
      rewrite !firstn_all2; [reflexivity| |];
        rewrite length_skipn; unfold len in *; lia.
  - rewrite !Z.min_r by lia.
    rewrite !skipn_all2 by (unfold len in *; lia).
    rewrite !firstn_nil. reflexivity.
Qed.

Lemma occurs_at_starts_with (data pat : bytes) (i : Z) :
  0 <= i ->
  (slice data i (i + len pat) = pat
   <-> starts_with (skipn (Z.to_nat i) data) pat = true).
Proof.
  intros Hi. rewrite slice_firstn by (assumption || apply len_nonneg).
  unfold len. rewrite Nat2Z.id. symmetry. apply starts_with_firstn.
Qed.

(** [find_from] answers the first place where the pattern starts. *)
Lemma find_from_first (data pat : bytes) :
  forall off,
    match find_from data pat off with
    | Some idx =>
        exists k, idx = off + Z.of_nat k /\
          starts_with (skipn k data) pat = true /\
          forall j, (j < k)%nat -> starts_with (skipn j data) pat = false
    | None => forall j, starts_with (skipn j data) pat = false
    end.
Proof.
  induction data as [|d data IH]; intros off; cbn [find_from].
  - destruct (starts_with [] pat) eqn:E.
    + exists O. repeat split; [lia|assumption|intros; lia].
    + intros j. rewrite skipn_nil. assumption.
  - destruct (starts_with (d :: data) pat) eqn:E.
    + exists O. repeat split; [lia|assumption|intros; lia].
    + specialize (IH (off + 1)).
      destruct (find_from data pat (off + 1)) as [idx|].
      * destruct IH as (k & -> & Hk & Hbefore). exists (S k).
        repeat split; [lia|assumption|].
        intros [|j] Hj; [assumption|]. apply Hbefore. lia.
      * intros [|j]; [assumption|apply IH].
Qed.

(** [data.find(pat, start)] answers the first occurrence at or after
    [start], and [-1] only if there is none. *)
Lemma bytes_find_first (data pat : bytes) (start : Z) :
  0 <= start -> 0 < len pat ->
  match bytes_find data pat start with
  | Some idx =>
      start <= idx /\ occurs_at data pat idx /\
      forall i, start <= i < idx -> ~ occurs_at data pat i
  | None => forall i, start <= i -> ~ occurs_at data pat i
  end.
Proof.
  intros Hs Hp. unfold bytes_find.
  destruct (Z.ltb_spec (len data) start) as [Hpast|Hin].
  - intros i Hi [_ Hocc]. apply occurs_at_starts_with in Hocc; [|lia].
    rewrite skipn_all2 in Hocc by (unfold len in *; lia).
    destruct pat; [cbn in Hp; lia|discriminate].
  - pose proof (find_from_first (skipn (Z.to_nat start) data) pat start) as H.
    destruct (find_from (skipn (Z.to_nat start) data) pat start) as [idx|].
    + destruct H as (k & -> & Hk & Hbefore).
      rewrite skipn_skipn in Hk. split; [lia|]. split.
      * split; [lia|]. apply occurs_at_starts_with; [lia|].
        replace (Z.to_nat (start + Z.of_nat k)) with (k + Z.to_nat start)%nat
          by lia.
        assumption.
      * intros i Hi [_ Hocc]. apply occurs_at_starts_with in Hocc; [|lia].
        specialize (Hbefore (Z.to_nat (i - start)) ltac:(lia)).
        rewrite skipn_skipn in Hbefore.
        replace (Z.to_nat (i - start) + Z.to_nat start)%nat with (Z.to_nat i)
          in Hbefore by lia.
        congruence.
    + intros i Hi [_ Hocc]. apply occurs_at_starts_with in Hocc; [|lia].
      specialize (H (Z.to_nat (i - start))). rewrite skipn_skipn in H.
      replace (Z.to_nat (i - start) + Z.to_nat start)%nat with (Z.to_nat i)
        in H by lia.
      congruence.
Qed.

Lemma anchor_loop_visits {A} (anchor : bytes)
    (candidate : bytes -> Z -> option A) (data : bytes) (fuel : nat) :
  0 < len anchor ->
  forall search_pos acc,
    0 <= search_pos -> len data - search_pos < Z.of_nat fuel ->
    exists offsets,
      anchor_loop fuel anchor candidate data search_pos acc
      = visit_all candidate data offsets acc /\
      StronglySorted Z.lt offsets /\
      forall i, In i offsets <-> search_pos <= i /\ occurs_at data anchor i.
Proof.
  intros Ha. induction fuel as [|fuel IH]; intros sp acc Hsp Hfuel.
  - exists []. split; [reflexivity|]. split; [constructor|].
    intros i. split; [intros []|]. intros [Hi Hocc].
    pose proof (bytes_find_first data anchor sp Hsp Ha) as H.
    rewrite bytes_find_past_end in H by lia. exact (H i Hi Hocc).
  - cbn [anchor_loop].
    pose proof (bytes_find_first data anchor sp Hsp Ha) as H.
    pose proof (bytes_find_bounds data anchor sp) as Hb.
    destruct (bytes_find data anchor sp) as [idx|].
    + destruct H as (Hge & Hocc & Hbefore).
      specialize (Hb idx Hsp eq_refl).
      destruct (IH (idx + 1) (append_opt acc (candidate data idx))
                  ltac:(lia) ltac:(lia)) as (offsets & E & Hsorted & Hmem).
      exists (idx :: offsets). split; [exact E|]. split.
      * constructor; [assumption|]. apply Forall_forall.
        intros i Hi. apply Hmem in Hi. lia.
      * intros i. cbn [In]. rewrite Hmem. split.
        -- intros [<-|[Hi Ho]]; split; (assumption || lia).
        -- intros [Hi Ho]. destruct (Z.eq_dec idx i) as [|Hne]; [auto|].
           right. split; [|assumption].
           destruct (Z.lt_ge_cases i idx) as [Hlt|]; [|lia].
           exfalso. apply (Hbefore i); [lia|assumption].
    + exists []. split; [reflexivity|]. split; [constructor|].
      intros i. split; [intros []|]. intros [Hi Ho]. exact (H i Hi Ho).
Qed.

(** The anchor loop of both decoders handles every occurrence of the
    anchor, overlapping ones included, exactly once and in increasing
    offset order. *)
Theorem anchor_scan_visits_all {A} (anchor : bytes)
    (candidate : bytes -> Z -> option A) (data : bytes) (acc : list A) :
  0 < len anchor ->
  exists offsets,
    anchor_scan anchor candidate data 0 acc
    = visit_all candidate data offsets acc /\
    StronglySorted Z.lt offsets /\
    forall i, In i offsets <-> occurs_at data anchor i.
Proof.
  intros Ha.
  destruct (anchor_loop_visits anchor candidate data (S (length data)) Ha
              0 acc ltac:(lia) ltac:(unfold len; lia))
    as (offsets & E & Hsorted & Hmem).
  exists offsets. split; [exact E|]. split; [assumption|].
  intros i. rewrite Hmem. unfold occurs_at.
  split; [intros [_ H]; exact H|intros [H1 H2]; auto].
Qed.

(* ================================================================== *)
(** * What the field extractors return *)
(* ================================================================== *)

Lemma option_map_cons_some {A} (x : A) (o : option (list A)) (s : list A) :
  option_map (cons x) o = Some s -> exists t, o = Some t /\ s = x :: t.
Proof.
  destruct o as [t|]; [|discriminate]. intros H. inversion H. eauto.
Qed.

(** Decoding never yields more characters than there are bytes, and
    yields at least one character from at least one byte. *)
Lemma utf8_decode_length (n : nat) :
  forall bs s, (length bs <= n)%nat -> utf8_decode bs = Some s ->
    (length s <= length bs)%nat /\ (bs <> [] -> s <> []).
Proof.
  induction n as [|n IH]; intros bs s Hn H.
  - destruct bs; [|simpl in Hn; lia]. cbn in H. inversion H.
    split; [reflexivity|congruence].
  - destruct bs as [|b0 r0]; [cbn in H; inversion H; split;
                               [reflexivity|congruence]|].
    cbn [utf8_decode] in H. cbv zeta in H. cbn [length] in *.
    destruct (byte_val b0 <? 128).
    { apply option_map_cons_some in H. destruct H as (t & Ht & ->).
      apply IH in Ht; [|lia]. cbn [length]. split; [lia|discriminate]. }
    destruct (byte_val b0 <? 192); [discriminate|].
    destruct (byte_val b0 <? 224).
    { destruct r0 as [|b1 r1]; [discriminate|].
      destruct (_ && _); [|discriminate].
      apply option_map_cons_some in H. destruct H as (t & Ht & ->).
      cbn [length] in *. apply IH in Ht; [|lia].
      split; [lia|discriminate]. }
    destruct (byte_val b0 <? 240).
    { destruct r0 as [|b1 [|b2 r2]]; try discriminate.
      destruct (_ && _); [|discriminate].
      apply option_map_cons_some in H. destruct H as (t & Ht & ->).
      cbn [length] in *. apply IH in Ht; [|lia].
      split; [lia|discriminate]. }
    destruct (byte_val b0 <? 248); [|discriminate].
    destruct r0 as [|b1 [|b2 [|b3 r3]]]; try discriminate.
    destruct (_ && _); [|discriminate].
    apply option_map_cons_some in H. destruct H as (t & Ht & ->).
    cbn [length] in *. apply IH in Ht; [|lia].
    split; [lia|discriminate].
Qed.

Lemma len_slice_le {A} (l : list A) (lo hi : Z) :
  0 <= lo -> 0 <= hi -> len (slice l lo hi) <= Z.max 0 (hi - lo).
Proof.
  intros Hlo Hhi. unfold slice, slice_bound.
  destruct (Z.ltb_spec lo 0); [lia|]. destruct (Z.ltb_spec hi 0); [lia|].
  unfold len. rewrite length_firstn, length_skipn. lia.
Qed.

(** Where a value returned by the string loop comes from. *)
Lemma string_scan_some (after : bytes) (indices : list Z) (value : str) :
  string_scan after indices = Some value ->
  exists i b,
    In i indices /\ py_getitem after (i + 2) = Some b /\
    0 < byte_val b < 100 /\
    utf8_decode (slice after (i + 3) (i + 3 + byte_val b)) = Some value /\
    isprintable value = true.
Proof.
  induction indices as [|i rest IH]; cbn [string_scan]; [discriminate|].
  intros H.
  assert (Hrest : string_scan after rest = Some value ->
                  exists i0 b, In i0 (i :: rest) /\
                    py_getitem after (i0 + 2) = Some b /\
                    0 < byte_val b < 100 /\
                    utf8_decode (slice after (i0 + 3) (i0 + 3 + byte_val b))
                    = Some value /\ isprintable value = true).
  { intros Hr. destruct (IH Hr) as (i0 & b & Hin & Hrest).
    exists i0, b. split; [right; assumption|assumption]. }
  destruct (bytes_eqb _ _); [|auto].
  destruct (py_getitem after (i + 2)) as [b|] eqn:Eb; [|discriminate].
  cbv zeta in H. destruct (_ && _) eqn:El; [|auto].
  destruct (utf8_decode _) as [v|] eqn:Ed; [|auto].
  destruct (isprintable v) eqn:Ep; [|auto].
  inversion H; subst v. exists i, b.
  apply andb_true_iff in El. destruct El as [H1 H2].
  apply Z.ltb_lt in H1, H2.
  split; [left; reflexivity|]. auto.
Qed.

(** The bounds on a value the string extractor returns. *)
Lemma extract_string_value_some (data field_name : bytes) (value : str) :
  extract_string_value data field_name = Some value ->
  value <> [] /\ isprintable value = true /\ (length value <= 47)%nat /\
  exists idx, bytes_find data field_name 0 = Some idx.
Proof.
  unfold extract_string_value.
  destruct (bytes_find data field_name 0) as [idx|] eqn:Ef; [|discriminate].
  cbv zeta. intros H. apply string_scan_some in H.
  destruct H as (i & b & Hi & Hb & HL & Hdec & Hp).
  apply py_range_In in Hi.
  apply bytes_find_bounds in Ef; [|lia].
  set (after := slice data (idx + len field_name)
                  (Z.min (len data) (idx + len field_name + 50))) in *.
  pose proof (len_nonneg field_name) as Hf.
  assert (Hafter : len after <= 50).
  { pose proof (len_slice_le data (idx + len field_name)
                  (Z.min (len data) (idx + len field_name + 50))
                  ltac:(lia) ltac:(lia)). fold after in H. lia. }
  pose proof (string_value_bytes after i (byte_val b)
                ltac:(lia) ltac:(lia) ltac:(lia)) as Hbytes.
  pose proof (utf8_decode_length _ _ _ (Nat.le_refl _) Hdec) as [Hle Hne].
  clearbody after. unfold len in *.
  split; [|split; [assumption|split; [lia|eauto]]].
  apply Hne. intros E. rewrite E in Hbytes. simpl in Hbytes. lia.
Qed.

(** [extract_string_value] returns only text that is printable, not
    empty and at most 47 characters long (what is left of the 50-byte
    window behind the tag and the length byte), and only if the field
    name occurs in the buffer. *)
Theorem extract_string_value_result (data field_name : bytes) (value : str) :
  extract_string_value data field_name = Some value ->
  value <> [] /\ isprintable value = true /\ (length value <= 47)%nat /\
  exists idx, bytes_find data field_name 0 = Some idx.
Proof. apply extract_string_value_some. Qed.

(** When the field name occurs nowhere in the buffer, the string and
    the boolean extractor both answer [None]. *)
Theorem extractors_field_absent (data field_name : bytes) :
  (forall i, ~ occurs_at data field_name i) ->
  extract_string_value data field_name = None /\
  extract_boolean_value data field_name = None.
Proof.
  intros Habsent.
  assert (Hf : 0 < len field_name).
  { destruct field_name as [|c f]; [|rewrite len_cons; pose proof (len_nonneg f); lia].
    exfalso. apply (Habsent 0). split; [lia|].
    change (len (@nil byte)) with 0. rewrite slice_firstn by lia.
    reflexivity. }
  pose proof (bytes_find_first data field_name 0 ltac:(lia) Hf) as H.
  unfold extract_string_value, extract_boolean_value.
  destruct (bytes_find data field_name 0) as [idx|].
  - destruct H as (_ & Hocc & _). exfalso. exact (Habsent idx Hocc).
  - split; reflexivity.
Qed.

(* ================================================================== *)
(** * The records the decoders build *)
(* ================================================================== *)

Lemma extract_string_value_extracted (data field_name : bytes) :
  extracted_opt (extract_string_value data field_name).
Proof.
  destruct (extract_string_value data field_name) as [v|] eqn:E; [|exact I].
  apply extract_string_value_some in E. destruct E as (H1 & H2 & H3 & _).
  cbn. unfold extracted. split; [|split]; assumption.
Qed.

Lemma truthy_py_or_display (name other : option str) (display : str) :
  truthy (py_or name other) = true ->
  match py_or (py_or name other) (Some (s_ "Unknown")) with
  | Some s => s
  | None => s_ "Unknown"
  end = display ->
  Some display = py_or name other.
Proof.
  intros Ht. unfold py_or at 1. rewrite Ht.
  destruct (py_or name other) as [s|]; [|discriminate]. congruence.
Qed.

Lemma transaction_candidate_well_formed (data : bytes) (idx : Z)
    (t : Transaction.t) :
  transaction_candidate data idx = Some t -> well_formed_transaction t.
Proof.
  unfold transaction_candidate.
  destruct (extract_double_value data (idx + 8) 20) as [amount|];
    [|discriminate].
  destruct (float_eq_int amount 0); [discriminate|]. cbv zeta.
  set (record := slice data (Z.max 0 (idx - 1500))
                   (Z.min (len data) (idx + 1500))).
  unfold assemble_transaction, new_Transaction.
  destruct (truthy (py_or _ _)) eqn:En; [|discriminate].
  destruct (truthy (extract_string_value record (b_ "transaction_id")))
    eqn:Et; [|discriminate].
  destruct (truthy (extract_string_value record (b_ "original_date")))
    eqn:Ed; [|discriminate].
  pose proof (extract_string_value_extracted record (b_ "transaction_id")) as Htid.
  pose proof (extract_string_value_extracted record (b_ "original_date")) as Hdate.
  destruct (extract_string_value record (b_ "transaction_id")) as [tid|];
    [|discriminate].
  destruct (extract_string_value record (b_ "original_date")) as [d|];
    [|discriminate].
  cbn [andb]. destruct (validate_amount_range amount); [|discriminate].
  cbn [andb]. destruct (date_pattern d) eqn:Ep; [|discriminate].
  intros H. inversion H; subst t. clear H.
  unfold well_formed_transaction. cbn [Transaction.transaction_id
    Transaction.date Transaction.name Transaction.original_name
    Transaction.account_id Transaction.category_id
    Transaction.iso_currency_code Transaction.city Transaction.region].
  repeat (split; [first [assumption | apply extract_string_value_extracted]|]).
  apply truthy_py_or_display; [assumption|reflexivity].
Qed.

Lemma account_candidate_well_formed (data : bytes) (idx : Z) (a : Account.t) :
  account_candidate data idx = Some a -> well_formed_account a.
Proof.
  unfold account_candidate. cbv zeta.
  set (record := slice data (Z.max 0 (idx - 1000))
                   (Z.min (len data) (idx + 1000))).
  destruct (extract_double_value record _ 20) as [balance|] eqn:Eb;
    [|discriminate].
  apply extract_double_value_plausible in Eb.
  unfold assemble_account, new_Account.
  destruct (truthy (extract_string_value record (b_ "account_id"))) eqn:Ea;
    [|discriminate].
  destruct (truthy (py_or _ _)) eqn:En; [|discriminate].
  pose proof (extract_string_value_extracted record (b_ "account_id")) as Haid.
  destruct (extract_string_value record (b_ "account_id")) as [aid|];
    [|discriminate].
  cbn [andb]. intros H. inversion H; subst a. clear H.
  unfold well_formed_account. cbn [Account.account_id Account.current_balance
    Account.name Account.official_name Account.mask Account.account_type
    Account.subtype Account.institution_name].
  repeat (split; [first [assumption | apply extract_string_value_extracted]|]).
  apply truthy_py_or_display; [assumption|reflexivity].
Qed.

(** A property of all candidates is a property of all that the file
    loops collect. *)
Lemma transaction_step_forall (P : Transaction.t -> Prop) (data : bytes)
    (acc : list Transaction.t) :
  (forall d idx t, transaction_candidate d idx = Some t -> P t) ->
  Forall P acc -> Forall P (transaction_step data acc).
Proof.
  intros HP Hacc. unfold transaction_step. destruct (_ || _); [assumption|].
  unfold anchor_scan.
  destruct (anchor_loop_appends amount_anchor transaction_candidate data
              (S (length data)) 0 acc) as (new & -> & Hnew).
  apply Forall_app. split; [assumption|].
  eapply Forall_impl; [|exact Hnew]. intros t [idx Ht]. eapply HP; eassumption.
Qed.

Lemma account_step_forall (P : Account.t -> Prop) (data : bytes)
    (acc : list Account.t) :
  (forall d idx a, account_candidate d idx = Some a -> P a) ->
  Forall P acc -> Forall P (account_step data acc).
Proof.
  intros HP Hacc. unfold account_step. destruct (negb _); [assumption|].
  unfold anchor_scan.
  destruct (anchor_loop_appends (b_ "current_balance") account_candidate data
              (S (length data)) 0 acc) as (new & -> & Hnew).
  apply Forall_app. split; [assumption|].
  eapply Forall_impl; [|exact Hnew]. intros a [idx Ha]. eapply HP; eassumption.
Qed.

Lemma decode_transactions_forall (P : Transaction.t -> Prop) (db_path : path)
    (fs : filesystem) (tr : list event) (result : list Transaction.t) :
  (forall d idx t, transaction_candidate d idx = Some t -> P t) ->
  decode_transactions db_path fs = (tr, inr result) -> Forall P result.
Proof.
  intros HP H. apply decode_transactions_inr in H.
  destruct H as (cands & Hc & ->).
  assert (Hcands : Forall P cands).
  { unfold collect_transactions in Hc. apply bind_inr in Hc.
    destruct Hc as (tr1 & ex & tr2 & _ & H & _).
    destruct (negb ex); [discriminate|].
    apply bind_inr in H. destruct H as (tr3 & files & tr4 & _ & H & _).
    eapply (for_files_invariant _ _ scan_transaction_file_step (Forall P));
      [|constructor|exact H].
    intros data acc. apply transaction_step_forall. assumption. }
  rewrite Forall_forall in *. intros t Ht. apply Hcands.
  eapply (dedup_incl transaction_key transaction_key_eqb
            transaction_key_eqb_trans).
  eapply Permutation_in; [apply sort_desc_perm|exact Ht].
Qed.

Lemma decode_accounts_forall (P : Account.t -> Prop) (db_path : path)
    (fs : filesystem) (tr : list event) (result : list Account.t) :
  (forall d idx a, account_candidate d idx = Some a -> P a) ->
  decode_accounts db_path fs = (tr, inr result) -> Forall P result.
Proof.
  intros HP H. apply decode_accounts_inr in H.
  destruct H as (cands & Hc & ->).
  assert (Hcands : Forall P cands).
  { unfold collect_accounts in Hc. apply bind_inr in Hc.
    destruct Hc as (tr1 & ex & tr2 & _ & H & _).
    destruct (negb ex); [discriminate|].
    apply bind_inr in H. destruct H as (tr3 & files & tr4 & _ & H & _).
    eapply (for_files_invariant _ _ scan_account_file_step (Forall P));
      [|constructor|exact H].
    intros data acc. apply account_step_forall. assumption. }
  rewrite Forall_forall in *. intros a Ha. apply Hcands.
  eapply (dedup_incl account_key account_key_eqb); [|exact Ha].
  intros k1 k2 k3. rewrite !account_key_eqb_eq. congruence.
Qed.

(** Every transaction [decode_transactions] returns has an identifier
    and a date that are non-empty printable text of at most 47
    characters, a date of the form [dddd-dd-dd], optional text fields of
    the same kind, and a display name that is its [name] or, failing
    that, its [original_name]: the ["Unknown"] fallback is never used. *)
Theorem decode_transactions_well_formed (db_path : path) (fs : filesystem)
    (tr : list event) (result : list Transaction.t) :
  decode_transactions db_path fs = (tr, inr result) ->
  Forall well_formed_transaction result.
Proof.
  apply decode_transactions_forall.
  intros d idx t. apply transaction_candidate_well_formed.
Qed.

(** Every account [decode_accounts] returns has a non-empty printable
    identifier, a finite two-decimal balance of magnitude at most
    10,000,000, optional text fields that are non-empty printable text
    of at most 47 characters, and a display name that is its [name] or,
    failing that, its [official_name]. *)
Theorem decode_accounts_well_formed (db_path : path) (fs : filesystem)
    (tr : list event) (result : list Account.t) :
  decode_accounts db_path fs = (tr, inr result) ->
  Forall well_formed_account result.
Proof.
  apply decode_accounts_forall.
  intros d idx a. apply account_candidate_well_formed.
Qed.

(* ================================================================== *)
(** * The file loop, file by file *)
(* ================================================================== *)

Lemma append_opt_app {A} (acc : list A) (o : option A) :
  append_opt acc o = acc ++ append_opt [] o.
Proof. destruct o; cbn; [reflexivity|rewrite app_nil_r; reflexivity]. Qed.

(** The anchor loop only adds to the list it is given. *)
Lemma anchor_loop_app {A} (anchor : bytes) (candidate : bytes -> Z -> option A)
    (data : bytes) (fuel : nat) :
  forall search_pos acc,
    anchor_loop fuel anchor candidate data search_pos acc
    = acc ++ anchor_loop fuel anchor candidate data search_pos [].
Proof.
  induction fuel as [|fuel IH]; intros sp acc; cbn [anchor_loop].
  - rewrite app_nil_r. reflexivity.
  - destruct (bytes_find data anchor sp) as [idx|];
      [|rewrite app_nil_r; reflexivity].
    rewrite (IH _ (append_opt acc _)), (IH _ (append_opt [] _)).
    rewrite (append_opt_app acc), app_assoc. reflexivity.
Qed.

Lemma transaction_step_app (data : bytes) (acc : list Transaction.t) :
  transaction_step data acc = acc ++ transaction_step data [].
Proof.
  unfold transaction_step. destruct (_ || _); [rewrite app_nil_r; reflexivity|].
  apply anchor_loop_app.
Qed.

Lemma account_step_app (data : bytes) (acc : list Account.t) :
  account_step data acc = acc ++ account_step data [].
Proof.
  unfold account_step. destruct (negb _); [rewrite app_nil_r; reflexivity|].
  apply anchor_loop_app.
Qed.

Section FileByFile.

Context {R : Type}.
Variable body : dir_entry -> list R -> io (list R).
Variable step : bytes -> list R -> list R.
Hypothesis body_step : file_step body step.
Hypothesis step_app : forall data acc, step data acc = acc ++ step data [].

(** What a file contributes on its own. *)
Let contribution (f : dir_entry) : list R :=
  match entry_file f with
  | Readable data => step data []
  | Unreadable => []
  end.

(** Over readable files the loop opens each file once, in order, and
    collects the contributions of the files one after the other. *)
Lemma for_files_by_file (fs : filesystem) :
  forall files acc, Forall readable files ->
    for_files files body acc fs
    = (opens files, inr (acc ++ flat_map contribution files)).
Proof.
  induction files as [|f files IH]; intros acc Hr.
  - cbn. rewrite app_nil_r. reflexivity.
  - inversion Hr as [|? ? [data Hf] Hrest]; subst.
    cbn [for_files flat_map opens map]. unfold bind.
    rewrite body_step, Hf, (IH _ Hrest). unfold contribution at 2.
    rewrite Hf, (step_app data acc), <- app_assoc. reflexivity.
Qed.

(** In general the loop opens the files in order up to and including
    the first one that cannot be read, and no others. *)
Lemma for_files_opens (fs : filesystem) :
  forall files acc,
    exists opened rest,
      files = opened ++ rest /\
      fst (for_files files body acc fs) = opens opened /\
      match snd (for_files files body acc fs) with
      | inr _ => rest = [] /\ Forall readable opened
      | inl e =>
          exists before f, opened = before ++ [f] /\ Forall readable before /\
            entry_file f = Unreadable /\ e = OSError (entry_name f)
      end.
Proof.
  induction files as [|f files IH]; intros acc.
  - exists [], []. cbn. repeat split; constructor.
  - cbn [for_files]. unfold bind. rewrite body_step.
    destruct (entry_file f) as [data|] eqn:Ef.
    + destruct (IH (step data acc)) as (opened & rest & -> & Ht & Hr).
      destruct (for_files (opened ++ rest) body (step data acc) fs)
        as [tr r]. cbn [fst snd] in *.
      exists (f :: opened), rest. split; [reflexivity|].
      split; [cbn; rewrite Ht; reflexivity|].
      destruct r as [e|l].
      * destruct Hr as (before & g & -> & Hb & Hg & ->).
        exists (f :: before), g. repeat split; try assumption.
        constructor; [exists data; assumption|assumption].
      * destruct Hr as [-> Hall]. split; [reflexivity|].
        constructor; [exists data; assumption|assumption].
    + exists [f], files. cbn [fst snd]. repeat split.
      exists [], f. repeat split; [constructor|assumption].
Qed.

End FileByFile.

(** When every table file of the directory can be read,
    [decode_transactions] opens each of them once, in directory order,
    and returns the sorted, deduplicated concatenation of what each file
    holds on its own: no file influences the candidates of another. *)
Theorem decode_transactions_by_file (db_path : path) (fs : filesystem)
    (entries : list dir_entry) :
  fs db_path = Some entries ->
  Forall readable (filter is_ldb entries) ->
  decode_transactions db_path fs
  = (EvExists db_path :: EvGlob db_path :: opens (filter is_ldb entries),
     inr (sort_desc Transaction.date
            (dedup transaction_key transaction_key_eqb
               (flat_map file_transactions (filter is_ldb entries))))).
Proof.
  intros Hdir Hr. unfold decode_transactions, bind.
  rewrite collect_transactions_unfold, Hdir.
  rewrite (for_files_by_file _ _ scan_transaction_file_step
             transaction_step_app fs _ [] Hr).
  cbn [app ret]. rewrite app_nil_r. reflexivity.
Qed.

(** The same for [decode_accounts], which does not sort. *)
Theorem decode_accounts_by_file (db_path : path) (fs : filesystem)
    (entries : list dir_entry) :
  fs db_path = Some entries ->
  Forall readable (filter is_ldb entries) ->
  decode_accounts db_path fs
  = (EvExists db_path :: EvGlob db_path :: opens (filter is_ldb entries),
     inr (dedup account_key account_key_eqb
            (flat_map file_accounts (filter is_ldb entries)))).
Proof.
  intros Hdir Hr. unfold decode_accounts, bind.
  rewrite collect_accounts_unfold, Hdir.
  rewrite (for_files_by_file _ _ scan_account_file_step
             account_step_app fs _ [] Hr).
  cbn [app ret]. rewrite app_nil_r. reflexivity.
Qed.

(** Whatever the files are, a decoder opens table files only ([*.ldb]
    entries of the directory), in directory order and each once; if it
    returns it has opened them all, if it raises [OSError] the last file
    opened is the first that cannot be read. *)
Theorem decoders_open_table_files_only (db_path : path) (fs : filesystem)
    (entries : list dir_entry) :
  fs db_path = Some entries ->
  (exists opened rest,
     filter is_ldb entries = opened ++ rest /\
     fst (decode_transactions db_path fs)
     = EvExists db_path :: EvGlob db_path :: opens opened /\
     match snd (decode_transactions db_path fs) with
     | inr _ => rest = []
     | inl e => exists before f, opened = before ++ [f] /\
                  Forall readable before /\ entry_file f = Unreadable /\
                  e = OSError (entry_name f)
     end) /\
  (exists opened rest,
     filter is_ldb entries = opened ++ rest /\
     fst (decode_accounts db_path fs)
     = EvExists db_path :: EvGlob db_path :: opens opened /\
     match snd (decode_accounts db_path fs) with
     | inr _ => rest = []
     | inl e => exists before f, opened = before ++ [f] /\
                  Forall readable before /\ entry_file f = Unreadable /\
                  e = OSError (entry_name f)
     end).
Proof.
  intros Hdir. split.
  - unfold decode_transactions, bind.
    rewrite collect_transactions_unfold, Hdir.
    destruct (for_files_opens _ _ scan_transaction_file_step fs
                (filter is_ldb entries) []) as (opened & rest & E & Ht & Hr).
    destruct (for_files (filter is_ldb entries) scan_transaction_file [] fs)
      as [tr [e|c]]; cbn [fst snd ret] in *; subst tr;
      exists opened, rest; (split; [assumption|]).
    + split; [reflexivity|assumption].
    + rewrite app_nil_r. split; [reflexivity|tauto].
  - unfold decode_accounts, bind.
    rewrite collect_accounts_unfold, Hdir.
    destruct (for_files_opens _ _ scan_account_file_step fs
                (filter is_ldb entries) []) as (opened & rest & E & Ht & Hr).
    destruct (for_files (filter is_ldb entries) scan_account_file [] fs)
      as [tr [e|c]]; cbn [fst snd ret] in *; subst tr;
      exists opened, rest; (split; [assumption|]).
    + split; [reflexivity|assumption].
    + rewrite app_nil_r. split; [reflexivity|tauto].
Qed.

Lemma for_files_skip_ldb {S} (body : dir_entry -> S -> io S)
    (step : bytes -> S -> S) (fs fs' : filesystem)
    (before after : list dir_entry) (f : dir_entry) (data : bytes) (acc : S) :
  file_step body step -> (forall acc, step data acc = acc) ->
  entry_file f = Readable data ->
  snd (for_files (filter is_ldb (before ++ f :: after)) body acc fs)
  = snd (for_files (filter is_ldb (before ++ after)) body acc fs').
Proof.
  intros Hbody Hstep Hf. rewrite !filter_app. cbn [filter].
  destruct (is_ldb f).
  - eapply for_files_skip; eassumption.
  - eapply for_files_same; eassumption.
Qed.

(** The coarse pre-filter: a readable table file that lacks [b"amount"]
    or [b"original_name"] adds nothing to the transactions, and one that
    lacks [b"/accounts/"] adds nothing to the accounts: the outcome is
    that of the directory without the file. *)
Theorem files_without_signature_are_skipped (db_path : path)
    (fs fs' : filesystem) (before after : list dir_entry) (f : dir_entry)
    (data : bytes) :
  fs db_path = Some (before ++ f :: after) ->
  fs' db_path = Some (before ++ after) ->
  entry_file f = Readable data ->
  (contains data (b_ "amount") && contains data (b_ "original_name") = false ->
   snd (decode_transactions db_path fs) = snd (decode_transactions db_path fs'))
  /\
  (contains data (b_ "/accounts/") = false ->
   snd (decode_accounts db_path fs) = snd (decode_accounts db_path fs')).
Proof.
  intros Hdir Hdir' Hf. split; intros Hsig.
  - rewrite (decode_transactions_existing _ _ _ Hdir).
    rewrite (decode_transactions_existing _ _ _ Hdir').
    rewrite (for_files_skip_ldb scan_transaction_file transaction_step fs fs'
               before after f data []);
      [reflexivity|exact scan_transaction_file_step| |assumption].
    intros acc. unfold transaction_step.
    apply andb_false_iff in Hsig. destruct Hsig as [-> | ->];
      [reflexivity|rewrite orb_true_r; reflexivity].
  - rewrite (decode_accounts_existing _ _ _ Hdir).
    rewrite (decode_accounts_existing _ _ _ Hdir').
    rewrite (for_files_skip_ldb scan_account_file account_step fs fs'
               before after f data []);
      [reflexivity|exact scan_account_file_step| |assumption].
    intros acc. unfold account_step. rewrite Hsig. reflexivity.
Qed.

(** An existing directory without table files decodes to the empty
    list: no file is opened and nothing is raised. *)
Theorem directory_without_table_files (db_path : path) (fs : filesystem)
    (entries : list dir_entry) :
  fs db_path = Some entries ->
  filter is_ldb entries = [] ->
  decode_transactions db_path fs
  = ([EvExists db_path; EvGlob db_path], inr []) /\
  decode_accounts db_path fs = ([EvExists db_path; EvGlob db_path], inr []).
Proof.
  intros Hdir Hnone. split.
  - unfold decode_transactions, bind.
    rewrite collect_transactions_unfold, Hdir, Hnone. reflexivity.
  - unfold decode_accounts, bind.
    rewrite collect_accounts_unfold, Hdir, Hnone. reflexivity.
Qed.

(* ================================================================== *)
(** * Record windows that cover the whole file *)
(* ================================================================== *)

Lemma slice_whole {A} (l : list A) (lo hi : Z) :
  lo = 0 -> len l <= hi -> slice l lo hi = l.
Proof.
  intros -> Hhi. pose proof (len_nonneg l). unfold slice, slice_bound.
  destruct (Z.ltb_spec 0 0); [lia|]. destruct (Z.ltb_spec hi 0); [lia|].
  replace (Z.min 0 (len l)) with 0 by lia.
  replace (Z.min hi (len l)) with (len l) by lia.
  cbn [Z.to_nat skipn]. apply firstn_all2. unfold len. lia.
Qed.

Lemma transaction_candidate_whole_file (data : bytes) (idx : Z)
    (t : Transaction.t) :
  0 <= idx <= 1500 -> len data <= idx + 1500 ->
  transaction_candidate data idx = Some t ->
  exists amount,
    assemble_transaction amount
      (extract_string_value data ([x0a; x04] ++ b_ "name"))
      (extract_string_value data (b_ "original_name"))
      (extract_string_value data (b_ "original_date"))
      (extract_string_value data (b_ "category_id"))
      (extract_string_value data (b_ "account_id"))
      (extract_string_value data (b_ "transaction_id"))
      (extract_string_value data (b_ "iso_currency_code"))
      (extract_boolean_value data (b_ "pending"))
      (extract_string_value data ([x0a; x04] ++ b_ "city"))
      (extract_string_value data ([x0a; x06] ++ b_ "region")) = Some t.
Proof.
  intros Hidx Hlen. unfold transaction_candidate.
  destruct (extract_double_value data (idx + 8) 20) as [amount|];
    [|discriminate].
  destruct (float_eq_int amount 0); [discriminate|]. cbv zeta.
  rewrite (slice_whole data (Z.max 0 (idx - 1500))
             (Z.min (len data) (idx + 1500)));
    [|lia|pose proof (len_nonneg data); lia].
  intros H. exists amount. exact H.
Qed.

(** The string fields of a candidate are looked up in the window of
    1500 bytes on either side of its anchor, from the start of the
    window.  When the windows of two anchors both cover the whole file
    -- as for every anchor of a file of at most 1500 bytes -- the two
    transactions differ in the amount at most: identifier, date and
    names are those found first in the file. *)
Theorem candidates_of_one_window_share_fields (data : bytes) (idx idx' : Z)
    (t t' : Transaction.t) :
  0 <= idx <= 1500 -> len data <= idx + 1500 ->
  0 <= idx' <= 1500 -> len data <= idx' + 1500 ->
  transaction_candidate data idx = Some t ->
  transaction_candidate data idx' = Some t' ->
  t' = with_amount t (Transaction.amount t').
Proof.
  intros H1 H2 H3 H4 Ht Ht'.
  apply transaction_candidate_whole_file in Ht; [|assumption|assumption].
  apply transaction_candidate_whole_file in Ht'; [|assumption|assumption].
  destruct Ht as (a & Ht). destruct Ht' as (a' & Ht').
  apply assemble_transaction_some in Ht, Ht'.
  destruct Ht as (_ & _ & _ & tid & d & Etid & Ed & ->).
  destruct Ht' as (_ & _ & _ & tid' & d' & Etid' & Ed' & ->).
  rewrite Etid in Etid'. rewrite Ed in Ed'.
  inversion Etid'. inversion Ed'. subst. reflexivity.
Qed.

(* ================================================================== *)
(** * The answers of the query layer *)
(* ================================================================== *)

Lemma sublist_refl {A} (l : list A) : sublist l l.
Proof. induction l; constructor; assumption. Qed.

Lemma sublist_trans {A} (a b c : list A) :
  sublist a b -> sublist b c -> sublist a c.
Proof.
  intros Hab Hbc. revert a Hab.
  induction Hbc as [|x b c Hbc IH|x b c Hbc IH]; intros a Hab.
  - assumption.
  - inversion Hab; subst; constructor; auto.
  - constructor. auto.
Qed.

Lemma sublist_filter {A} (p : A -> bool) (l : list A) : sublist (filter p l) l.
Proof.
  induction l as [|x l IH]; cbn [filter]; [constructor|].
  destruct (p x); constructor; assumption.
Qed.

Lemma sublist_firstn {A} (n : nat) (l : list A) : sublist (firstn n l) l.
Proof.
  revert n. induction l as [|x l IH]; intros [|n]; cbn [firstn];
    try constructor; auto.
  clear. induction l; constructor; assumption.
Qed.

Lemma sublist_In {A} (sub l : list A) (x : A) :
  sublist sub l -> In x sub -> In x l.
Proof.
  induction 1 as [|y sub l H IH|y sub l H IH]; cbn [In]; intuition.
Qed.

Lemma sublist_Forall {A} (P : A -> Prop) (sub l : list A) :
  sublist sub l -> Forall P l -> Forall P sub.
Proof.
  intros Hs Hl. rewrite Forall_forall in *. intros x Hx.
  apply Hl. eapply sublist_In; eassumption.
Qed.

Lemma sublist_NoDup {A} (sub l : list A) :
  sublist sub l -> NoDup l -> NoDup sub.
Proof.
  induction 1 as [|y sub l H IH|y sub l H IH]; intros Hnd.
  - constructor.
  - inversion Hnd; subst. constructor; [|auto].
    intros Hin. eapply sublist_In in Hin; [|eassumption]. contradiction.
  - inversion Hnd; subst. auto.
Qed.

Lemma sublist_StronglySorted {A} (R : A -> A -> Prop) (sub l : list A) :
  sublist sub l -> StronglySorted R l -> StronglySorted R sub.
Proof.
  induction 1 as [|y sub l H IH|y sub l H IH]; intros Hs.
  - constructor.
  - inversion Hs; subst. constructor; [auto|].
    eapply sublist_Forall; eassumption.
  - inversion Hs; subst. auto.
Qed.

Lemma slice_from_zero {A} (l : list A) : slice_from l 0 = l.
Proof.
  unfold slice_from, slice_bound. cbn [Z.ltb Z.compare].
  rewrite Z.min_l by apply len_nonneg. reflexivity.
Qed.

Lemma sublist_slice_to {A} (l : list A) (n : Z) : sublist (slice_to l n) l.
Proof. apply sublist_firstn. Qed.

Lemma len_slice_to {A} (l : list A) (n : Z) :
  0 <= n -> len (slice_to l n) <= n.
Proof.
  intros Hn. unfold slice_to, slice_bound.
  destruct (Z.ltb_spec n 0); [lia|]. unfold len. rewrite length_firstn. lia.
Qed.

(** What [result[:limit]] is: the first [limit] elements, or, for a
    negative [limit], all but the last [-limit]. *)
Lemma slice_to_firstn {A} (l : list A) (n : Z) :
  slice_to l n
  = firstn (if n <? 0 then length l - Z.to_nat (- n) else Z.to_nat n) l.
Proof.
  unfold slice_to, slice_bound. destruct (Z.ltb_spec n 0).
  - f_equal. unfold len. lia.
  - destruct (Z.le_gt_cases n (len l)).
    + rewrite Z.min_l by lia. reflexivity.
    + rewrite Z.min_r by lia. rewrite !firstn_all2; unfold len in *; try lia.
      reflexivity.
Qed.

Lemma filter_if_sublist {A} (arg : option str) (keep : str -> A -> bool)
    (l : list A) : sublist (filter_if arg keep l) l.
Proof.
  unfold filter_if. destruct (truthy arg); [|apply sublist_refl].
  destruct arg; [apply sublist_filter|apply sublist_refl].
Qed.

Lemma filter_if_In {A} (arg : option str) (keep : str -> A -> bool)
    (l : list A) (x : A) :
  In x (filter_if arg keep l) ->
  In x l /\ forall v, arg = Some v -> v <> [] -> keep v x = true.
Proof.
  unfold filter_if. destruct arg as [[|c v]|]; cbn [truthy].
  - intros H. split; [assumption|]. intros v E. inversion E. congruence.
  - intros H. apply filter_In in H. destruct H as [H1 H2].
    split; [assumption|]. intros w E _. inversion E; subst. assumption.
  - intros H. split; [assumption|]. discriminate.
Qed.

Lemma filter_if_not_none_sublist {A B} (arg : option B) (keep : B -> A -> bool)
    (l : list A) : sublist (filter_if_not_none arg keep l) l.
Proof. destruct arg; [apply sublist_filter|apply sublist_refl]. Qed.

Lemma filter_if_not_none_In {A B} (arg : option B) (keep : B -> A -> bool)
    (l : list A) (x : A) :
  In x (filter_if_not_none arg keep l) ->
  In x l /\ forall v, arg = Some v -> keep v x = true.
Proof.
  destruct arg as [v|]; cbn [filter_if_not_none].
  - intros H. apply filter_In in H. destruct H as [H1 H2].
    split; [assumption|]. intros w E. inversion E; subst. assumption.
  - intros H. split; [assumption|]. discriminate.
Qed.

Lemma method_map_inr {A B} (f : A -> B) (m : method A)
    (self self' : CopilotDatabase) (fs : filesystem) (tr : list event) (b : B) :
  method_map f m self fs = (tr, self', inr b) ->
  exists a, m self fs = (tr, self', inr a) /\ b = f a.
Proof.
  unfold method_map. destruct (m self fs) as [[tr0 s] [e|a]]; [discriminate|].
  intros H. inversion H; subst. eauto.
Qed.

(** A load that finds the cache empty returns what the decoder returns
    for the files as they are, and caches it. *)
Lemma load_transactions_fresh (self self' : CopilotDatabase) (fs : filesystem)
    (tr : list event) (txns : list Transaction.t) :
  _transactions self = None ->
  load_transactions self fs = (tr, self', inr txns) ->
  snd (decode_transactions (db_path self) fs) = inr txns /\
  _transactions self' = Some txns.
Proof.
  intros Hnone. unfold load_transactions, call_decoder. rewrite Hnone.
  destruct (decode_transactions (db_path self) fs) as [tr0 [e|l]];
    [discriminate|].
  intros H. inversion H; subst. split; reflexivity.
Qed.

Lemma load_accounts_fresh (self self' : CopilotDatabase) (fs : filesystem)
    (tr : list event) (accs : list Account.t) :
  _accounts self = None ->
  load_accounts self fs = (tr, self', inr accs) ->
  snd (decode_accounts (db_path self) fs) = inr accs /\
  _accounts self' = Some accs.
Proof.
  intros Hnone. unfold load_accounts, call_decoder. rewrite Hnone.
  destruct (decode_accounts (db_path self) fs) as [tr0 [e|l]];
    [discriminate|].
  intros H. inversion H; subst. split; reflexivity.
Qed.

(** The decoded transactions are sorted and free of repetitions. *)
Lemma decoded_sorted_nodup (p : path) (fs : filesystem)
    (txns : list Transaction.t) :
  snd (decode_transactions p fs) = inr txns ->
  StronglySorted (key_ge Transaction.date) txns /\ NoDup txns.
Proof.
  intros H. destruct (decode_transactions p fs) as [tr r] eqn:E.
  cbn [snd] in H. subst r.
  pose proof (decode_transactions_forall good_amount p fs tr txns
                transaction_candidate_amount E) as Hgood.
  apply decode_transactions_inr in E. destruct E as (cands & Hc & ->).
  split; [apply sort_desc_sorted|].
  destruct (dedup_spec transaction_key transaction_key_eqb
              transaction_key_eqb_trans cands) as (Hfresh & _ & _).
  set (unique := dedup transaction_key transaction_key_eqb cands) in *.
  pose proof (sort_desc_perm Transaction.date unique) as Hperm.
  destruct (fresh_keys_unique transaction_key transaction_key_eqb unique
              transaction_key_eqb_sym) as [Hnd _]; [|assumption|].
  - intros x Hx. apply good_amount_key_refl.
    rewrite Forall_forall in Hgood. apply Hgood.
    eapply Permutation_in; [apply Permutation_sym; exact Hperm|assumption].
  - eapply Permutation_NoDup; [apply Permutation_sym; exact Hperm|assumption].
Qed.

Lemma filter_transactions_sublist (sd ed cat mer aid : option str)
    (mn mx : option float) (limit : Z) (l : list Transaction.t) :
  sublist (filter_transactions sd ed cat mer aid mn mx limit l) l.
Proof.
  unfold filter_transactions. cbv zeta.
  eapply sublist_trans; [apply sublist_slice_to|].
  eapply sublist_trans; [apply filter_if_not_none_sublist|].
  eapply sublist_trans; [apply filter_if_not_none_sublist|].
  eapply sublist_trans; [apply filter_if_sublist|].
  eapply sublist_trans; [apply filter_if_sublist|].
  eapply sublist_trans; [apply filter_if_sublist|].
  eapply sublist_trans; [apply filter_if_sublist|].
  eapply sublist_trans; [apply filter_if_sublist|].
  rewrite slice_from_zero. apply sublist_refl.
Qed.

(** Every transaction that passes [filter_transactions] passes each
    filter that was given (a filter given as [None], or as the empty
    string where it is a string, is not applied). *)
Lemma filter_transactions_In (sd ed cat mer aid : option str)
    (mn mx : option float) (limit : Z) (l : list Transaction.t)
    (t : Transaction.t) :
  In t (filter_transactions sd ed cat mer aid mn mx limit l) ->
  (forall v, sd = Some v -> v <> [] -> str_leb v (Transaction.date t) = true) /\
  (forall v, ed = Some v -> v <> [] -> str_leb (Transaction.date t) v = true) /\
  (forall v, cat = Some v -> v <> [] ->
     exists cid, Transaction.category_id t = Some cid /\ cid <> [] /\
       str_contains (str_lower cid) (str_lower v) = true) /\
  (forall v, mer = Some v -> v <> [] ->
     str_contains (str_lower (Transaction.display_name t)) (str_lower v)
     = true) /\
  (forall v, aid = Some v -> v <> [] -> Transaction.account_id t = Some v) /\
  (forall m, mn = Some m -> float_geb (Transaction.amount t) m = true) /\
  (forall m, mx = Some m -> float_leb (Transaction.amount t) m = true).
Proof.
  unfold filter_transactions. cbv zeta. intros H.
  eapply sublist_In in H; [|apply sublist_slice_to].
  apply filter_if_not_none_In in H. destruct H as [H Hmx].
  apply filter_if_not_none_In in H. destruct H as [H Hmn].
  apply filter_if_In in H. destruct H as [H Haid].
  apply filter_if_In in H. destruct H as [H Hmer].
  apply filter_if_In in H. destruct H as [H Hcat].
  apply filter_if_In in H. destruct H as [H Hed].
  apply filter_if_In in H. destruct H as [H Hsd].
  repeat split; try assumption.
  - intros v E Hv. specialize (Hcat v E Hv). cbv beta in Hcat.
    apply andb_true_iff in Hcat. destruct Hcat as [Ht Hc].
    destruct (Transaction.category_id t) as [cid|]; [|discriminate].
    exists cid. split; [reflexivity|]. split; [|assumption].
    destruct cid; [discriminate|discriminate].
  - intros v E Hv. specialize (Haid v E Hv). cbv beta in Haid.
    apply opt_str_eqb_eq in Haid. assumption.
Qed.

(** [get_transactions] on an object that has not decoded yet: the
    answer is cut from the decoded list without reordering, so it is
    sorted by date, newest first, and free of repetitions; it holds at
    most [limit] transactions (for [limit >= 0]); and each transaction
    passes every filter given. *)
Theorem get_transactions_sound (sd ed cat mer aid : option str)
    (mn mx : option float) (limit : Z) (self self' : CopilotDatabase)
    (fs : filesystem) (tr : list event) (result : list Transaction.t) :
  _transactions self = None ->
  get_transactions sd ed cat mer aid mn mx limit self fs
  = (tr, self', inr result) ->
  exists decoded,
    snd (decode_transactions (db_path self) fs) = inr decoded /\
    _transactions self' = Some decoded /\
    sublist result decoded /\
    StronglySorted (key_ge Transaction.date) result /\ NoDup result /\
    (0 <= limit -> len result <= limit) /\
    forall t, In t result ->
      (forall v, sd = Some v -> v <> [] ->
         str_leb v (Transaction.date t) = true) /\
      (forall v, ed = Some v -> v <> [] ->
         str_leb (Transaction.date t) v = true) /\
      (forall v, cat = Some v -> v <> [] ->
         exists cid, Transaction.category_id t = Some cid /\ cid <> [] /\
           str_contains (str_lower cid) (str_lower v) = true) /\
      (forall v, mer = Some v -> v <> [] ->
         str_contains (str_lower (Transaction.display_name t)) (str_lower v)
         = true) /\
      (forall v, aid = Some v -> v <> [] ->
         Transaction.account_id t = Some v) /\
      (forall m, mn = Some m -> float_geb (Transaction.amount t) m = true) /\
      (forall m, mx = Some m -> float_leb (Transaction.amount t) m = true).
Proof.
  intros Hnone H. unfold get_transactions in H. apply method_map_inr in H.
  destruct H as (decoded & Hload & ->).
  apply load_transactions_fresh in Hload; [|assumption].
  destruct Hload as [Hdec Hcache].
  destruct (decoded_sorted_nodup _ _ _ Hdec) as [Hsorted Hnd].
  pose proof (filter_transactions_sublist sd ed cat mer aid mn mx limit decoded)
    as Hsub.
  exists decoded.
  split; [assumption|]. split; [assumption|]. split; [assumption|].
  split; [eapply sublist_StronglySorted; eassumption|].
  split; [eapply sublist_NoDup; eassumption|]. split.
  - intros Hl. unfold filter_transactions. cbv zeta.
    apply len_slice_to. assumption.
  - intros t Ht. apply filter_transactions_In in Ht. exact Ht.
Qed.

(** Without filters [get_transactions] answers the first [limit]
    decoded transactions; a negative [limit] does not limit but leaves
    out the last [-limit] of them. *)
Theorem get_transactions_unfiltered (limit : Z) (self self' : CopilotDatabase)
    (fs : filesystem) (tr : list event) (result : list Transaction.t) :
  _transactions self = None ->
  get_transactions None None None None None None None limit self fs
  = (tr, self', inr result) ->
  exists decoded,
    snd (decode_transactions (db_path self) fs) = inr decoded /\
    (0 <= limit -> result = firstn (Z.to_nat limit) decoded) /\
    (limit < 0 ->
     result = firstn (length decoded - Z.to_nat (- limit)) decoded).
Proof.
  intros Hnone H. unfold get_transactions in H. apply method_map_inr in H.
  destruct H as (decoded & Hload & ->).
  apply load_transactions_fresh in Hload; [|assumption].
  destruct Hload as [Hdec _]. exists decoded. split; [assumption|].
  unfold filter_transactions. cbv zeta.
  cbn [filter_if filter_if_not_none truthy]. rewrite slice_from_zero.
  rewrite slice_to_firstn. split; intros Hl.
  - destruct (Z.ltb_spec limit 0); [lia|reflexivity].
  - destruct (Z.ltb_spec limit 0); [reflexivity|lia].
Qed.

(** [search_transactions] on an object that has not decoded yet answers
    decoded transactions, in decoded order, whose lower-cased display
    name contains the lower-cased query, at most [limit] of them. *)
Theorem search_transactions_sound (query : str) (limit : Z)
    (self self' : CopilotDatabase) (fs : filesystem) (tr : list event)
    (result : list Transaction.t) :
  _transactions self = None ->
  search_transactions query limit self fs = (tr, self', inr result) ->
  exists decoded,
    snd (decode_transactions (db_path self) fs) = inr decoded /\
    sublist result decoded /\
    (0 <= limit -> len result <= limit) /\
    (forall t, In t result ->
       str_contains (str_lower (Transaction.display_name t)) (str_lower query)
       = true) /\
    (forall t, In t decoded ->
       str_contains (str_lower (Transaction.display_name t)) (str_lower query)
       = true ->
       len decoded <= limit -> In t result).
Proof.
  intros Hnone H. unfold search_transactions in H. apply method_map_inr in H.
  destruct H as (decoded & Hload & ->).
  apply load_transactions_fresh in Hload; [|assumption].
  destruct Hload as [Hdec _]. exists decoded. split; [assumption|].
  cbv zeta. split; [|split; [|split]].
  - eapply sublist_trans; [apply sublist_slice_to|apply sublist_filter].
  - apply len_slice_to.
  - intros t Ht. eapply sublist_In in Ht; [|apply sublist_slice_to].
    apply filter_In in Ht. tauto.
  - intros t Ht Hq Hl. rewrite slice_to_firstn.
    pose proof (len_nonneg decoded).
    destruct (Z.ltb_spec limit 0); [lia|].
    rewrite firstn_all2.
    + apply filter_In. auto.
    + pose proof (filter_length_le
                    (fun txn => str_contains
                       (str_lower (Transaction.display_name txn))
                       (str_lower query)) decoded).
      unfold len in *. lia.
Qed.

(** [get_accounts] on an object that has not decoded yet: without a
    type (or with the empty string) the answer is the decoded accounts;
    with a type it is, in the same order, the accounts that have a type
    whose lower-cased form contains the lower-cased argument. *)
Theorem get_accounts_sound (account_type : option str)
    (self self' : CopilotDatabase) (fs : filesystem) (tr : list event)
    (result : list Account.t) :
  _accounts self = None ->
  get_accounts account_type self fs = (tr, self', inr result) ->
  exists decoded,
    snd (decode_accounts (db_path self) fs) = inr decoded /\
    _accounts self' = Some decoded /\
    sublist result decoded /\
    (truthy account_type = false -> result = decoded) /\
    (forall v, account_type = Some v -> v <> [] ->
     forall a, In a result <->
       In a decoded /\
       exists ty, Account.account_type a = Some ty /\ ty <> [] /\
         str_contains (str_lower ty) (str_lower v) = true).
Proof.
  intros Hnone H. unfold get_accounts in H. apply method_map_inr in H.
  destruct H as (decoded & Hload & ->).
  apply load_accounts_fresh in Hload; [|assumption].
  destruct Hload as [Hdec Hcache]. exists decoded.
  split; [assumption|]. split; [assumption|]. cbv zeta.
  rewrite slice_from_zero. split; [apply filter_if_sublist|]. split.
  - intros Ht. unfold filter_if. rewrite Ht. reflexivity.
  - intros v -> Hv a. unfold filter_if.
    destruct v as [|c v]; [congruence|]. cbn [truthy].
    rewrite filter_In. split.
    + intros [Hin Hk]. split; [assumption|].
      apply andb_true_iff in Hk. destruct Hk as [Ht Hc].
      destruct (Account.account_type a) as [ty|]; [|discriminate].
      exists ty. split; [reflexivity|]. split; [|assumption].
      destruct ty; discriminate.
    + intros [Hin (ty & Ety & Hne & Hc)]. split; [assumption|].
      rewrite Ety. destruct ty as [|c0 ty]; [congruence|].
      cbn [truthy andb]. assumption.
Qed.

(* ================================================================== *)
(** * [get_categories] and [is_available] *)
(* ================================================================== *)

Lemma existsb_str_eqb (cid : str) (seen : list str) :
  existsb (str_eqb cid) seen = true <-> In cid seen.
Proof.
  rewrite existsb_exists. split.
  - intros (s & Hs & E). apply str_eqb_eq in E. subst. assumption.
  - intros H. exists cid. split; [assumption|apply str_eqb_refl].
Qed.

(** The loop of [get_categories]: one category per distinct non-empty
    category identifier, named after it. *)
Lemma categories_loop_spec (transactions : list Transaction.t) :
  forall seen unique,
    (forall k, In k seen <-> In k (map Category.category_id unique)) ->
    NoDup (map Category.category_id unique) ->
    Forall (fun c => Category.name c = Category.category_id c /\
                     Category.category_id c <> []) unique ->
    let out := categories_loop transactions seen unique in
    NoDup (map Category.category_id out) /\
    Forall (fun c => Category.name c = Category.category_id c /\
                     Category.category_id c <> []) out /\
    forall cid, In cid (map Category.category_id out) <->
      In cid (map Category.category_id unique) \/
      (cid <> [] /\ exists t, In t transactions /\
                              Transaction.category_id t = Some cid).
Proof.
  induction transactions as [|txn rest IH]; intros seen unique Hseen Hnd Hall;
    cbn [categories_loop].
  - cbv zeta. split; [assumption|]. split; [assumption|].
    intros cid. split; [auto|]. intros [H|(_ & t & [] & _)]. assumption.
  - assert (Hskip :
      (forall cid, Transaction.category_id txn = Some cid -> cid <> [] ->
                   In cid seen) ->
      let out := categories_loop rest seen unique in
      NoDup (map Category.category_id out) /\
      Forall (fun c => Category.name c = Category.category_id c /\
                       Category.category_id c <> []) out /\
      forall cid, In cid (map Category.category_id out) <->
        In cid (map Category.category_id unique) \/
        (cid <> [] /\ exists t, In t (txn :: rest) /\
                                Transaction.category_id t = Some cid)).
    { intros Hknown. destruct (IH seen unique Hseen Hnd Hall) as (H1 & H2 & H3).
      cbv zeta. split; [assumption|]. split; [assumption|].
      intros cid. rewrite H3. split.
      - intros [H|(Hne & t & Ht & Hc)]; [auto|].
        right. split; [assumption|]. exists t. split; [right|]; assumption.
      - intros [H|(Hne & t & [<-|Ht] & Hc)]; [auto| |].
        + left. apply Hseen. apply Hknown; assumption.
        + right. split; [assumption|]. exists t. auto. }
    destruct (Transaction.category_id txn) as [cid|] eqn:Ec;
      [|apply Hskip; discriminate].
    destruct cid as [|c cid].
    { cbn [truthy andb]. apply Hskip. intros ? E Hne. inversion E. congruence. }
    cbn [truthy andb].
    destruct (existsb (str_eqb (c :: cid)) seen) eqn:Ee; cbn [negb].
    { apply Hskip. intros ? E _. inversion E; subst.
      apply existsb_str_eqb. assumption. }
    assert (Hnew : ~ In (c :: cid) seen).
    { intros Hin. apply existsb_str_eqb in Hin. congruence. }
    destruct (IH ((c :: cid) :: seen)
                (unique ++ [Category.mk (c :: cid) (c :: cid)]))
      as (H1 & H2 & H3).
    + intros k. rewrite map_app, in_app_iff. cbn [map In Category.category_id].
      rewrite Hseen.
      split; [intros [H|H]; [right; left; exact H|left; exact H]
             |intros [H|[H|[]]]; [right; exact H|left; exact H]].
    + rewrite map_app. cbn [map Category.category_id].
      apply NoDup_app; [assumption|repeat constructor; intros []|].
      intros k Hk [<-|[]]. apply Hnew, Hseen. assumption.
    + apply Forall_app. split; [assumption|].
      constructor; [|constructor]. cbn. split; [reflexivity|discriminate].
    + cbv zeta. split; [assumption|]. split; [assumption|].
      intros k. rewrite H3, map_app, in_app_iff.
      cbn [map In Category.category_id]. split.
      * intros [[H|[<-|[]]]|(Hne & t & Ht & Hc)].
        -- auto.
        -- right. split; [discriminate|]. exists txn.
           split; [left; reflexivity|assumption].
        -- right. split; [assumption|]. exists t. split; [right|]; assumption.
      * intros [H|(Hne & t & [<-|Ht] & Hc)].
        -- auto.
        -- left. right. left. congruence.
        -- right. split; [assumption|]. exists t. auto.
Qed.

(** [get_categories] on an object that has not decoded yet answers one
    category for each distinct non-empty category identifier among the
    decoded transactions and no other; the name of a category is its
    identifier. *)
Theorem get_categories_distinct (self self' : CopilotDatabase)
    (fs : filesystem) (tr : list event) (result : list Category.t) :
  _transactions self = None ->
  get_categories self fs = (tr, self', inr result) ->
  exists decoded,
    snd (decode_transactions (db_path self) fs) = inr decoded /\
    NoDup (map Category.category_id result) /\
    Forall (fun c => Category.name c = Category.category_id c /\
                     Category.category_id c <> []) result /\
    forall cid, In cid (map Category.category_id result) <->
      cid <> [] /\ exists t, In t decoded /\
                             Transaction.category_id t = Some cid.
Proof.
  intros Hnone H. unfold get_categories in H. apply method_map_inr in H.
  destruct H as (decoded & Hload & ->).
  apply load_transactions_fresh in Hload; [|assumption].
  destruct Hload as [Hdec _]. exists decoded. split; [assumption|].
  destruct (categories_loop_spec decoded [] [])
    as (H1 & H2 & H3); [intros k; reflexivity|constructor|constructor|].
  split; [assumption|]. split; [assumption|].
  intros cid. rewrite H3. cbn [map In].
  split; [intros [[]|H]; exact H|intros H; right; exact H].
Qed.

(** What an answer of [is_available] tells about the transaction
    decoder run on the same files.  After [False] the decoder raises
    its own [FileNotFoundError] or returns the empty list, and opens no
    file; after [True] the decoder finds the directory and opens at
    least one file. *)
Theorem is_available_decode (self : CopilotDatabase) (fs : filesystem)
    (tr : list event) (b : bool) :
  is_available self fs = (tr, inr b) ->
  (b = false ->
   decode_transactions (db_path self) fs
   = ([EvExists (db_path self)], inl (FileNotFoundError (db_path self))) \/
   decode_transactions (db_path self) fs
   = ([EvExists (db_path self); EvGlob (db_path self)], inr [])) /\
  (b = true ->
   exists f rest,
     fst (decode_transactions (db_path self) fs)
     = EvExists (db_path self) :: EvGlob (db_path self)
       :: EvOpen (entry_name f) :: rest).
Proof.
  unfold is_available, bind, path_exists, glob_ldb. cbv beta.
  unfold decode_transactions. unfold bind.
  rewrite collect_transactions_unfold.
  destruct (fs (db_path self)) as [entries|] eqn:Hdir; cbv beta iota.
  - rewrite Hdir. unfold ret.
    destruct (filter is_ldb entries) as [|f files] eqn:Hf.
    + intros H. injection H as <- <-.
      split; [intros _; right; reflexivity|discriminate].
    + intros H. injection H as <- <-.
      split; [discriminate|]. intros _.
      pose proof (for_files_opens _ _ scan_transaction_file_step fs
                    (f :: files) []) as (opened & rest & E & Ht & Hr).
      destruct (for_files (f :: files) scan_transaction_file [] fs)
        as [tr0 r]. cbn [fst snd] in *. subst tr0.
      assert (Hopened : exists g more, opened = g :: more /\ g = f).
      { destruct opened as [|g more].
        - cbn [app] in E. subst rest. destruct r as [e|l].
          + destruct Hr as (before & g & Hb & _). destruct before; discriminate.
          + destruct Hr as [Hr _]. discriminate.
        - inversion E; subst. eauto. }
      destruct Hopened as (g & more & -> & ->).
      destruct r as [e|l]; cbn [fst opens map app]; eauto.
  - intros H. injection H as <- <-.
    split; [intros _; left; reflexivity|discriminate].
Qed.

(* ================================================================== *)
(** * [get_month_range] and [get_account_balance] *)
(* ================================================================== *)

Lemma month_ranges_checked :
  forallb (fun year =>
             forallb (fun month => month_range_ok (get_month_range year month))
                     months)
          years = true.
Proof. vm_compute. reflexivity. Qed.

Lemma In_years (year : Z) : 1 <= year <= 9999 -> In year years.
Proof.
  intros H. unfold years. apply in_map_iff. exists (Z.to_nat year).
  split; [lia|]. apply in_seq. lia.
Qed.

Lemma In_months (month : Z) : 1 <= month <= 12 -> In month months.
Proof.
  intros H. unfold months. apply in_map_iff. exists (Z.to_nat month).
  split; [lia|]. apply in_seq. lia.
Qed.

(** For a year a [datetime] can hold and a month from 1 to 12,
    [get_month_range] returns two dates of the form the model asks of a
    transaction date ([dddd-dd-dd]): the first day of the month and a
    day of the same month that is not before it in string order, so the
    pair can be used as a date filter.  For any other month it raises
    [ValueError], whatever the year. *)
Theorem get_month_range_valid (year month : Z) :
  (1 <= year <= 9999 -> 1 <= month <= 12 ->
   exists start end_,
     get_month_range year month = inr (start, end_) /\
     date_pattern start = true /\ date_pattern end_ = true /\
     str_leb start end_ = true /\
     firstn 8 start = firstn 8 end_ /\ skipn 8 start = s_ "01") /\
  (month < 1 \/ 12 < month ->
   exists message, get_month_range year month = inl (ValueError message)).
Proof.
  split.
  - intros Hy Hm. pose proof month_ranges_checked as H.
    rewrite forallb_forall in H. specialize (H year (In_years year Hy)).
    rewrite forallb_forall in H. specialize (H month (In_months month Hm)).
    unfold month_range_ok in H.
    destruct (get_month_range year month) as [e|[start end_]]; [discriminate|].
    repeat (apply andb_true_iff in H; destruct H as [H ?]).
    exists start, end_. repeat split; try assumption.
    + apply str_eqb_eq. assumption.
    + apply str_eqb_eq. assumption.
  - intros Hm. unfold get_month_range.
    replace ((1 <=? month) && (month <=? 12)) with false; [cbn; eauto|].
    symmetry. apply andb_false_iff. destruct Hm; [left|right]; lia.
Qed.

Lemma find_account_some (account_id : str) (accounts : list Account.t)
    (a : Account.t) :
  find_account account_id accounts = Some a ->
  exists before after,
    accounts = before ++ a :: after /\ Account.account_id a = account_id /\
    forall b, In b before -> Account.account_id b <> account_id.
Proof.
  unfold find_account.
  induction accounts as [|x accounts IH]; cbn [find]; [discriminate|].
  destruct (str_eqb (Account.account_id x) account_id) eqn:E.
  - intros H. inversion H; subst. exists [], accounts.
    split; [reflexivity|]. split; [apply str_eqb_eq; assumption|intros ? []].
  - intros H. destruct (IH H) as (before & after & -> & Ha & Hb).
    exists (x :: before), after. split; [reflexivity|]. split; [assumption|].
    intros b [<-|Hin]; [|auto]. intros Heq. apply str_eqb_eq in Heq. congruence.
Qed.

Lemma find_account_none (account_id : str) (accounts : list Account.t) :
  find_account account_id accounts = None <->
  forall b, In b accounts -> Account.account_id b <> account_id.
Proof.
  unfold find_account. split.
  - intros H b Hb Heq. eapply find_none in H; [|eassumption].
    apply str_eqb_eq in Heq. congruence.
  - intros H. induction accounts as [|x accounts IH]; cbn [find]; [reflexivity|].
    destruct (str_eqb (Account.account_id x) account_id) eqn:E.
    + apply str_eqb_eq in E. exfalso. apply (H x); [left; reflexivity|assumption].
    + apply IH. intros b Hb. apply H. right. assumption.
Qed.

(** [get_account_balance] on an object that has not decoded yet: it
    raises [ValueError] exactly when no decoded account has the
    identifier; otherwise it reports the first decoded account with that
    identifier (several can have it, the deduplication key being name
    and mask); an exception of the decoder is passed on. *)
Theorem get_account_balance_first_match (account_id : str)
    (self self' : CopilotDatabase) (fs : filesystem) (tr : list event)
    (r : tool_exn + balance_info) :
  _accounts self = None ->
  get_account_balance account_id self fs = (tr, self', r) ->
  match snd (decode_accounts (db_path self) fs) with
  | inl e => r = inl (Raised e)
  | inr decoded =>
      ((exists message, r = inl (ToolValueError message)) <->
       forall b, In b decoded -> Account.account_id b <> account_id) /\
      (forall info, r = inr info ->
         exists before a after,
           decoded = before ++ a :: after /\
           Account.account_id a = account_id /\
           (forall b, In b before -> Account.account_id b <> account_id) /\
           info_account_id info = account_id /\
           info_name info = Account.display_name a /\
           info_current_balance info = Account.current_balance a /\
           info_mask info = Account.mask a)
  end.
Proof.
  intros Hnone. unfold get_account_balance, get_accounts, method_map,
    load_accounts, call_decoder. rewrite Hnone.
  destruct (decode_accounts (db_path self) fs) as [tr0 [e|decoded]]; cbn [snd].
  - intros H. inversion H. reflexivity.
  - cbv zeta. rewrite slice_from_zero. cbn [filter_if truthy].
    destruct (find_account account_id decoded) as [a|] eqn:Ef.
    + intros H. inversion H; subst. clear H.
      apply find_account_some in Ef.
      destruct Ef as (before & after & -> & Ha & Hb). split.
      * split; [intros [m Hm]; discriminate|].
        intros Hnot. exfalso. apply (Hnot a); [|assumption].
        apply in_or_app. right. left. reflexivity.
      * intros info E. inversion E; subst info. clear E.
        exists before, a, after. cbn. auto 10.
    + intros H. inversion H; subst. clear H. split.
      * split; [intros _; apply find_account_none; assumption|eauto].
      * intros info E. discriminate.
Qed.

(* ================================================================== *)
(** * The flag [extract_boolean_value] reads *)
(* ================================================================== *)

(** An element of a slice is an element of the buffer. *)
Lemma py_getitem_slice {A} (l : list A) (lo hi k : Z) (x : A) :
  0 <= lo -> 0 <= hi -> 0 <= k ->
  py_getitem (slice l lo hi) k = Some x -> py_getitem l (lo + k) = Some x.
Proof.
  intros Hlo Hhi Hk. unfold py_getitem, slice, slice_bound.
  destruct (Z.ltb_spec k 0); [lia|]. destruct (Z.ltb_spec (lo + k) 0); [lia|].
  destruct (Z.ltb_spec lo 0); [lia|]. destruct (Z.ltb_spec hi 0); [lia|].
  intros E.
  assert (Hin : nth_error (skipn (Z.to_nat (Z.min lo (len l))) l) (Z.to_nat k)
                = Some x).
  { destruct (Nat.lt_ge_cases (Z.to_nat k)
                (Z.to_nat (Z.min hi (len l) - Z.min lo (len l)))) as [Hlt|Hge].
    - rewrite nth_error_firstn in E.
      destruct (Nat.ltb_spec (Z.to_nat k)
                  (Z.to_nat (Z.min hi (len l) - Z.min lo (len l))));
        [assumption|lia].
    - assert (N : nth_error
                    (firstn (Z.to_nat (Z.min hi (len l) - Z.min lo (len l)))
                       (skipn (Z.to_nat (Z.min lo (len l))) l)) (Z.to_nat k)
                  = None).
      { apply nth_error_None. rewrite length_firstn. lia. }
      congruence. }
  rewrite nth_error_skipn in Hin.
  assert (Hlt : (Z.to_nat (Z.min lo (len l)) + Z.to_nat k < length l)%nat).
  { apply nth_error_Some. congruence. }
  unfold len in *.
  replace (Z.to_nat (lo + k))
    with (Z.to_nat (Z.min lo (Z.of_nat (length l))) + Z.to_nat k)%nat by lia.
  assumption.
Qed.

(** The loop over [range(n)] from [start] on answers the byte behind
    the first tag. *)
Lemma boolean_scan_first_tag (after : bytes) (n : nat) :
  forall (start : nat) (b : bool),
    boolean_scan after (map Z.of_nat (seq start n)) = Some b ->
    exists i tag v,
      Z.of_nat start <= i < Z.of_nat (start + n) /\
      py_getitem after i = Some tag /\ byte_val tag = 0x08 /\
      py_getitem after (i + 1) = Some v /\
      b = negb (byte_val v =? 0) /\
      forall j, Z.of_nat start <= j < i ->
        exists c, py_getitem after j = Some c /\ byte_val c <> 0x08.
Proof.
  induction n as [|n IH]; intros start b H; cbn [seq map boolean_scan] in H;
    [discriminate|].
  destruct (py_getitem after (Z.of_nat start)) as [c|] eqn:Ec; [|discriminate].
  destruct (Z.eqb_spec (byte_val c) 0x08) as [Etag|Ntag].
  - destruct (py_getitem after (Z.of_nat start + 1)) as [v|] eqn:Ev;
      [|discriminate].
    injection H as <-. exists (Z.of_nat start), c, v.
    split; [lia|]. split; [assumption|]. split; [assumption|].
    split; [assumption|]. split; [reflexivity|]. intros j Hj. lia.
  - apply IH in H. destruct H as (i & tag & v & Hi & Ht & Etag & Hv & Hb & Hno).
    exists i, tag, v. split; [lia|]. split; [assumption|].
    split; [assumption|]. split; [assumption|]. split; [assumption|].
    intros j Hj. destruct (Z.eq_dec j (Z.of_nat start)) as [->|Hne].
    + exists c. split; assumption.
    + apply Hno. lia.
Qed.

(** The flag [extract_boolean_value] returns is the byte behind the
    first [0x08] that follows the first occurrence of the field name,
    and that [0x08] is among the 18 bytes behind the name: whatever
    stands between the name and the tag is passed over. *)
Theorem extract_boolean_value_first_tag (data field_name : bytes) (b : bool) :
  extract_boolean_value data field_name = Some b ->
  exists idx i tag v,
    bytes_find data field_name 0 = Some idx /\
    0 <= i < 18 /\
    py_getitem data (idx + len field_name + i) = Some tag /\
    byte_val tag = 0x08 /\
    py_getitem data (idx + len field_name + i + 1) = Some v /\
    b = negb (byte_val v =? 0) /\
    forall j, 0 <= j < i ->
      exists c, py_getitem data (idx + len field_name + j) = Some c /\
                byte_val c <> 0x08.
Proof.
  unfold extract_boolean_value.
  destruct (bytes_find data field_name 0) as [idx|] eqn:Ef; [|discriminate].
  cbv zeta. intros H.
  pose proof (bytes_find_bounds _ _ _ _ (Z.le_refl 0) Ef) as [Hidx Hend].
  pose proof (len_nonneg field_name) as Hf.
  pose proof (len_slice_le data (idx + len field_name)
                (Z.min (len data) (idx + len field_name + 20))
                ltac:(lia) ltac:(lia)) as Hlen.
  unfold py_range in H. apply boolean_scan_first_tag in H.
  destruct H as (i & tag & v & Hi & Ht & Etag & Hv & Hb & Hno).
  assert (Hi18 : 0 <= i < 18).
  { clear - Hi Hlen Hidx Hend Hf.
    set (n := len (slice data (idx + len field_name)
                     (Z.min (len data) (idx + len field_name + 20)))) in *.
    clearbody n. lia. }
  exists idx, i, tag, v. split; [reflexivity|]. split; [assumption|].
  split; [apply py_getitem_slice in Ht; [assumption|lia..]|].
  split; [assumption|].
  split; [apply py_getitem_slice in Hv; [|lia..];
          rewrite Z.add_assoc in Hv; assumption|].
  split; [assumption|].
  intros j Hj. destruct (Hno j ltac:(lia)) as (c & Hc & Nc).
  exists c. split; [|assumption].
  apply py_getitem_slice in Hc; [assumption|lia..].
Qed.

End Decoder.

(* ================================================================== *)
(** * Concrete runs *)
(* ================================================================== *)

Local Open Scope string_scope.

(** What [decode_transactions] returns for [sample_fs]. *)
Definition sample_decoded : list event * (exn + list Transaction.t) :=
  Eval vm_compute in decode_transactions ascii_only ascii_only "db"%string sample_fs.

Definition sample_transactions : list Transaction.t :=
  match sample_decoded with
  | (_, inr l) => l
  | _ => []
  end.

(** A session of three calls: the files vanish after the first call and
    the later calls still answer from the cache. *)
Definition sample_session : list (filesystem * call) :=
  [ (sample_fs, GetTransactions None None None None None None None 1000);
    (fun _ => None, SearchTransactions (s_ "cafe") 50);
    (fun _ => None, GetCategories) ].

(** What the sample session does. *)
Definition session_outcome : list event * CopilotDatabase :=
  Eval vm_compute in
    run_calls ascii_only ascii_only ascii_lower sample_session
      (CopilotDatabase_init "/Users/u" (Some "db")).

Lemma decode_varint_roundtrip_witness :
  exists v, decode_varint [x00; x00; x96; x01; x00] 2 = Some (v, 4) /\ v = 150.
Proof.
  destruct (decode_varint_roundtrip [x00; x00] [x96] [x00] x01)
    as (v & Hdec & Hv & _).
  - repeat constructor. unfold high_bit_set. vm_compute. discriminate.
  - reflexivity.
  - exists v. split; [exact Hdec | rewrite Hv; reflexivity].
Defined.

(** The sample directory decodes to the three distinct transactions,
    newest first. *)
Lemma sample_run :
  decode_transactions ascii_only ascii_only "db" sample_fs = sample_decoded.
Proof. vm_compute. reflexivity. Defined.

Lemma sample_transaction_ids :
  map Transaction.transaction_id sample_transactions
  = [s_ "t-2"; s_ "t-1"; s_ "t-4"].
Proof. vm_compute. reflexivity. Qed.

Lemma decode_transactions_unique_keys_witness : NoDup sample_transactions.
Proof.
  destruct (decode_transactions_unique_keys ascii_only ascii_only "db"
              sample_fs (fst sample_decoded) sample_transactions sample_run)
    as (candidates & _ & Hnodup & _).
  exact Hnodup.
Defined.

Lemma decode_transactions_sorted_witness :
  StronglySorted (key_ge Transaction.date) sample_transactions.
Proof.
  destruct (decode_transactions_sorted ascii_only ascii_only "db"
              sample_fs (fst sample_decoded) sample_transactions sample_run)
    as (candidates & unique & _ & _ & Hsorted & _).
  exact Hsorted.
Defined.

Lemma decode_transactions_amounts_witness :
  Forall (fun t => abs_le (Transaction.amount t) 10000000) sample_transactions.
Proof.
  apply Forall_forall. intros t Ht.
  destruct (decode_transactions_amounts ascii_only ascii_only "db"
              sample_fs (fst sample_decoded) sample_transactions t sample_run Ht)
    as (_ & Hle & _).
  exact Hle.
Defined.

(** C10 as stated fails: the amount 9999999.999 passes the plausibility
    test and is then rounded to 10000000.0, which the model validator
    accepts as well. *)
Lemma amount_reaches_ceiling :
  exists tr t,
    decode_transactions ascii_only ascii_only "db" ceiling_fs = (tr, inr [t]) /\
    float_compare_int (float_abs (Transaction.amount t)) 10000000 = Some Eq /\
    ~ abs_lt (Transaction.amount t) 10000000.
Proof.
  eexists. eexists. split; [vm_compute; reflexivity|].
  split; [reflexivity|]. unfold abs_lt. vm_compute. discriminate.
Qed.

Lemma missing_directory_not_found_witness :
  decode_transactions ascii_only ascii_only "elsewhere" sample_fs
  = ([EvExists "elsewhere"%string], inl (FileNotFoundError "elsewhere")) /\
  decode_accounts ascii_only "elsewhere" sample_fs
  = ([EvExists "elsewhere"%string], inl (FileNotFoundError "elsewhere")).
Proof.
  apply (missing_directory_not_found ascii_only ascii_only "elsewhere" sample_fs).
  reflexivity.
Defined.

(** C4 as stated fails: a table file that cannot be read is not
    skipped, the scan ends with its error although the other table
    files hold transactions. *)
Lemma unreadable_file_aborts_scan :
  snd (decode_transactions ascii_only ascii_only "db" unreadable_fs)
  = inl (OSError "000000.ldb") /\
  snd (decode_accounts ascii_only "db" unreadable_fs)
  = inl (OSError "000000.ldb") /\
  snd (decode_transactions ascii_only ascii_only "db" sample_fs)
  = inr sample_transactions.
Proof. vm_compute. repeat split; reflexivity. Qed.

Lemma table_file_failures_witness :
  (exists l, snd (decode_transactions ascii_only ascii_only "db" sample_fs)
             = inr l) /\
  snd (decode_transactions ascii_only ascii_only "db" unreadable_fs)
  = inl (OSError "000000.ldb").
Proof.
  split.
  - destruct (table_file_failures ascii_only ascii_only "db" sample_fs
                sample_entries eq_refl) as (Hreadable & _ & _).
    apply Hreadable.
    vm_compute. repeat constructor; eexists; reflexivity.
  - destruct (table_file_failures ascii_only ascii_only "db" unreadable_fs
                _ eq_refl) as (_ & _ & Hunreadable).
    apply (Hunreadable []
             {| entry_name := "000000.ldb"; entry_file := Unreadable |}
             (filter is_ldb sample_entries)).
    + reflexivity.
    + constructor.
    + reflexivity.
Defined.

Lemma assembler_presence_invariant_witness :
  assemble_transaction ascii_only (float_of_bits bits_12_34)
    None None (Some (s_ "2024-01-15")) None None (Some (s_ "t-1")) None
    None None None = None /\
  anchor_scan amount_anchor (transaction_candidate ascii_only ascii_only)
    incomplete_record 0 []
  = anchor_scan amount_anchor (transaction_candidate ascii_only ascii_only)
      incomplete_record 1 [].
Proof.
  destruct (assembler_presence_invariant ascii_only ascii_only)
    as (Htxn & _ & Hscan & _).
  split.
  - apply (proj2 (Htxn _ _ _ _ _ _ _ _ _ _ _)). reflexivity.
  - apply (Hscan _ 0 0 []).
    + lia.
    + vm_compute. reflexivity.
    + vm_compute. reflexivity.
Defined.

Lemma session_run :
  run_calls ascii_only ascii_only ascii_lower sample_session
    (CopilotDatabase_init "/Users/u" (Some "db"))
  = session_outcome.
Proof. vm_compute. reflexivity. Defined.

Lemma collection_decoded_once_witness :
  (count_event (is_return DecodeTransactions) (fst session_outcome) <= 1)%nat /\
  count_event (is_call DecodeTransactions) (fst session_outcome) = 1%nat /\
  cache DecodeTransactions (snd session_outcome)
  = Some (TransactionList sample_transactions).
Proof.
  destruct (collection_decoded_once ascii_only ascii_only ascii_lower
              DecodeTransactions sample_session
              (CopilotDatabase_init "/Users/u" (Some "db"))
              (snd session_outcome) (fst session_outcome) session_run)
    as (Hcount & _ & _ & _ & Hfirst).
  split.
  - cbn [cache_filled CopilotDatabase_init _transactions] in Hcount. lia.
  - apply (Hfirst sample_fs
             (GetTransactions None None None None None None None 1000)
             (tl sample_session) (TransactionList sample_transactions)).
    + reflexivity.
    + reflexivity.
    + reflexivity.
    + vm_compute. reflexivity.
Defined.

(** C9 as stated fails: a first call whose decoder raises stores
    nothing, and the next call on the same object invokes the decoder
    again. *)
Lemma raising_decode_is_repeated :
  run_call ascii_only ascii_only ascii_lower GetCategories
    (CopilotDatabase_init "/Users/u" (Some "db")) (fun _ => None)
  = ([EvCall DecodeTransactions; EvExists "db"],
     CopilotDatabase_init "/Users/u" (Some "db"),
     inl (FileNotFoundError "db")) /\
  count_event (is_call DecodeTransactions)
    (fst (run_calls ascii_only ascii_only ascii_lower
            [ (fun _ => None, GetCategories); (sample_fs, GetCategories) ]
            (CopilotDatabase_init "/Users/u" (Some "db")))) = 2%nat /\
  count_event (is_return DecodeTransactions)
    (fst (run_calls ascii_only ascii_only ascii_lower
            [ (fun _ => None, GetCategories); (sample_fs, GetCategories) ]
            (CopilotDatabase_init "/Users/u" (Some "db")))) = 1%nat.
Proof. vm_compute. repeat split; reflexivity. Qed.

(** In that session the decoder is called once and returns once. *)
Lemma session_decodes_once :
  count_event (is_call DecodeTransactions) (fst session_outcome) = 1%nat /\
  count_event (is_return DecodeTransactions) (fst session_outcome) = 1%nat /\
  count_event is_open (fst session_outcome) = 5%nat.
Proof. vm_compute. repeat split; reflexivity. Qed.

(** C6: the tag byte [0x19] followed by the eight bytes of 12.34 and
    nothing else is not found, because the loop stops one position
    short; with one more byte behind the number it is. *)
Lemma extract_double_value_misses_last_position :
  extract_double_value ([x19] ++ le_bytes 8 bits_12_34) 0 20 = None /\
  extract_double_value ([x19] ++ le_bytes 8 bits_12_34 ++ [x00]) 0 20
  = Some (float_of_cents 1234) /\
  float_of_bits bits_12_34 = float_of_cents 1234.
Proof. vm_compute. repeat split; reflexivity. Qed.

(** C5: a string of 48 bytes announced right after the field name is
    returned without its last byte, because the value is cut from the
    50-byte search window; the example of the claim is decoded in
    full. *)
Lemma extract_string_value_cuts_at_window :
  extract_string_value ascii_only
    (string_field (b_ "name") (repeat x61 48)) (b_ "name")
  = Some (repeat 0x61 47) /\
  extract_string_value ascii_only
    (string_field (b_ "amount") (b_ "hello")) (b_ "amount")
  = Some (s_ "hello").
Proof. vm_compute. split; reflexivity. Qed.

(* ================================================================== *)
(** * Further concrete runs *)
(* ================================================================== *)

(** An object that has not decoded yet. *)
Definition fresh_database : CopilotDatabase :=
  CopilotDatabase_init "/Users/u" (Some "db").

(** What [decode_accounts] returns for [accounts_fs]. *)
Definition accounts_decoded : list event * (exn + list Account.t) :=
  Eval vm_compute in decode_accounts ascii_only "db" accounts_fs.

Definition sample_accounts : list Account.t :=
  match accounts_decoded with
  | (_, inr l) => l
  | _ => []
  end.

(** The two accounts of [accounts_fs] have the same identifier and
    different names: both are kept, in file order. *)
Lemma accounts_run :
  decode_accounts ascii_only "db" accounts_fs
  = (fst accounts_decoded, inr sample_accounts).
Proof. vm_compute. reflexivity. Defined.

(** The answers of the query layer for some calls on a fresh object. *)
Definition answered {A} (outcome : list event * CopilotDatabase * (exn + list A))
  : list A :=
  match outcome with
  | (_, _, inr l) => l
  | _ => []
  end.

Definition filtered_outcome :=
  Eval vm_compute in
    get_transactions ascii_only ascii_only ascii_lower
      (Some (s_ "2024-01-01")) (Some (s_ "2024-02-01")) None
      (Some (s_ "CAFE")) None None None 10 fresh_database sample_fs.

Lemma filtered_run :
  get_transactions ascii_only ascii_only ascii_lower
    (Some (s_ "2024-01-01")) (Some (s_ "2024-02-01")) None
    (Some (s_ "CAFE")) None None None 10 fresh_database sample_fs
  = (fst (fst filtered_outcome), snd (fst filtered_outcome),
     inr (answered filtered_outcome)).
Proof. vm_compute. reflexivity. Defined.

Definition unfiltered_outcome :=
  Eval vm_compute in
    get_transactions ascii_only ascii_only ascii_lower
      None None None None None None None (-1) fresh_database sample_fs.

Lemma unfiltered_run :
  get_transactions ascii_only ascii_only ascii_lower
    None None None None None None None (-1) fresh_database sample_fs
  = (fst (fst unfiltered_outcome), snd (fst unfiltered_outcome),
     inr (answered unfiltered_outcome)).
Proof. vm_compute. reflexivity. Defined.

Definition search_outcome :=
  Eval vm_compute in
    search_transactions ascii_only ascii_only ascii_lower (s_ "CAFE") 50
      fresh_database sample_fs.

Lemma search_run :
  search_transactions ascii_only ascii_only ascii_lower (s_ "CAFE") 50
    fresh_database sample_fs
  = (fst (fst search_outcome), snd (fst search_outcome),
     inr (answered search_outcome)).
Proof. vm_compute. reflexivity. Defined.

Definition typed_accounts_outcome :=
  Eval vm_compute in
    get_accounts ascii_only ascii_lower (Some (s_ "CHECK")) fresh_database
      accounts_fs.

Lemma typed_accounts_run :
  get_accounts ascii_only ascii_lower (Some (s_ "CHECK")) fresh_database
    accounts_fs
  = (fst (fst typed_accounts_outcome), snd (fst typed_accounts_outcome),
     inr (answered typed_accounts_outcome)).
Proof. vm_compute. reflexivity. Defined.

Definition categories_outcome :=
  Eval vm_compute in
    get_categories ascii_only ascii_only fresh_database accounts_fs.

Lemma categories_run :
  get_categories ascii_only ascii_only fresh_database accounts_fs
  = (fst (fst categories_outcome), snd (fst categories_outcome),
     inr (answered categories_outcome)).
Proof. vm_compute. reflexivity. Defined.

Definition balance_outcome :=
  Eval vm_compute in
    get_account_balance ascii_only ascii_lower (s_ "acc-1") fresh_database
      accounts_fs.

Lemma balance_run :
  get_account_balance ascii_only ascii_lower (s_ "acc-1") fresh_database
    accounts_fs
  = (fst (fst balance_outcome), snd (fst balance_outcome),
     snd balance_outcome).
Proof. vm_compute. reflexivity. Defined.

(** ** [decode_varint] *)

Lemma decode_varint_total_witness :
  decode_varint [x96; x01] (-3) = None /\
  (exists v pos',
     decode_varint [x96; x01] (-2) = Some (v, pos') /\
     0 <= v < 2 ^ (7 * (pos' - -2))) /\
  decode_varint [x96; x01] 5 = Some (0, 5).
Proof.
  split; [|split].
  - apply (decode_varint_total [x96; x01] (-3)). reflexivity.
  - destruct (decode_varint_total [x96; x01] (-2)) as (_ & H & _).
    destruct H as (v & pos' & E & _ & Hv); [vm_compute; discriminate|].
    exists v, pos'. split; assumption.
  - apply (decode_varint_total [x96; x01] 5). vm_compute. discriminate.
Defined.

Lemma decode_varint_unterminated_witness :
  decode_varint [x00; x96; xff] 1 = Some (varint_value [x96; xff], 3).
Proof.
  apply (decode_varint_unterminated [x00] [x96; xff]).
  repeat constructor; vm_compute; discriminate.
Defined.

(** ** The anchor loop: overlapping occurrences *)

Lemma anchor_scan_visits_all_witness :
  exists offsets,
    anchor_scan (b_ "aa") (fun _ idx => Some idx) (b_ "aaaa") 0 []
    = visit_all (fun _ idx => Some idx) (b_ "aaaa") offsets [] /\
    In 1 offsets.
Proof.
  destruct (anchor_scan_visits_all (b_ "aa") (fun _ idx => Some idx)
              (b_ "aaaa") []) as (offsets & E & _ & Hmem).
  - reflexivity.
  - exists offsets. split; [exact E|]. apply Hmem.
    split; [lia|reflexivity].
Defined.

(** ** The field extractors *)

Lemma extract_string_value_result_witness :
  isprintable ascii_only (s_ "Cafe") = true /\ (length (s_ "Cafe") <= 47)%nat.
Proof.
  destruct (extract_string_value_result ascii_only
              (string_field (b_ "name") (b_ "Cafe")) (b_ "name") (s_ "Cafe"))
    as (_ & Hp & Hl & _).
  - vm_compute. reflexivity.
  - split; assumption.
Defined.

Lemma extractors_field_absent_witness :
  extract_string_value ascii_only [] (b_ "pending") = None /\
  extract_boolean_value [] (b_ "pending") = None.
Proof.
  apply extractors_field_absent.
  intros i [_ H]. unfold slice in H. cbv zeta in H.
  rewrite skipn_nil, firstn_nil in H. discriminate H.
Defined.

(** ** The decoded records *)

Lemma decode_transactions_well_formed_witness :
  Forall (well_formed_transaction ascii_only ascii_only) sample_transactions.
Proof.
  exact (decode_transactions_well_formed ascii_only ascii_only "db" sample_fs
           (fst sample_decoded) sample_transactions sample_run).
Defined.

Lemma decode_accounts_well_formed_witness :
  Forall (well_formed_account ascii_only) sample_accounts.
Proof.
  exact (decode_accounts_well_formed ascii_only "db" accounts_fs
           (fst accounts_decoded) sample_accounts accounts_run).
Defined.

Lemma decode_accounts_unique_keys_witness : NoDup sample_accounts.
Proof.
  destruct (decode_accounts_unique_keys ascii_only "db" accounts_fs
              (fst accounts_decoded) sample_accounts accounts_run)
    as (candidates & _ & Hnodup & _).
  exact Hnodup.
Defined.

(** ** File by file *)

Lemma decode_transactions_by_file_witness :
  decode_transactions ascii_only ascii_only "db" sample_fs
  = (EvExists "db" :: EvGlob "db" :: opens (filter is_ldb sample_entries),
     inr (sort_desc Transaction.date
            (dedup transaction_key transaction_key_eqb
               (flat_map (file_transactions ascii_only ascii_only)
                  (filter is_ldb sample_entries))))).
Proof.
  apply (decode_transactions_by_file ascii_only ascii_only "db" sample_fs
           sample_entries).
  - reflexivity.
  - vm_compute. repeat constructor; eexists; reflexivity.
Defined.

Lemma decode_accounts_by_file_witness :
  decode_accounts ascii_only "db" accounts_fs
  = (EvExists "db" :: EvGlob "db" :: opens (filter is_ldb accounts_entries),
     inr (dedup account_key account_key_eqb
            (flat_map (file_accounts ascii_only)
               (filter is_ldb accounts_entries)))).
Proof.
  apply (decode_accounts_by_file ascii_only "db" accounts_fs accounts_entries).
  - reflexivity.
  - vm_compute. repeat constructor; eexists; reflexivity.
Defined.

Lemma decoders_open_table_files_only_witness :
  exists opened rest,
    filter is_ldb ({| entry_name := "000000.ldb"; entry_file := Unreadable |}
                   :: sample_entries) = opened ++ rest /\
    fst (decode_transactions ascii_only ascii_only "db" unreadable_fs)
    = EvExists "db" :: EvGlob "db" :: opens opened.
Proof.
  destruct (decoders_open_table_files_only ascii_only ascii_only "db"
              unreadable_fs _ eq_refl) as [(opened & rest & E & Ho & _) _].
  exists opened, rest. split; assumption.
Defined.

Lemma files_without_signature_are_skipped_witness :
  snd (decode_transactions ascii_only ascii_only "db" sample_fs)
  = snd (decode_transactions ascii_only ascii_only "db"
           (directory (firstn 3 sample_entries ++ skipn 4 sample_entries))) /\
  snd (decode_accounts ascii_only "db" sample_fs)
  = snd (decode_accounts ascii_only "db"
           (directory (firstn 3 sample_entries ++ skipn 4 sample_entries))).
Proof.
  destruct (files_without_signature_are_skipped ascii_only ascii_only "db"
              sample_fs
              (directory (firstn 3 sample_entries ++ skipn 4 sample_entries))
              (firstn 3 sample_entries) (skipn 4 sample_entries)
              (table_file "000004.ldb" []) [] eq_refl eq_refl eq_refl)
    as [Ht Ha].
  split; [apply Ht|apply Ha]; reflexivity.
Defined.

Lemma directory_without_table_files_witness :
  decode_transactions ascii_only ascii_only "db" no_tables_fs
  = ([EvExists "db"; EvGlob "db"], inr []) /\
  decode_accounts ascii_only "db" no_tables_fs
  = ([EvExists "db"; EvGlob "db"], inr []).
Proof.
  apply (directory_without_table_files ascii_only ascii_only "db" no_tables_fs
           _ eq_refl).
  reflexivity.
Defined.

(** ** Two anchors in one window *)

Lemma candidates_of_one_window_share_fields_witness :
  exists t t',
    transaction_candidate ascii_only ascii_only two_amounts_record 0 = Some t /\
    transaction_candidate ascii_only ascii_only two_amounts_record 18
    = Some t' /\
    Transaction.amount t <> Transaction.amount t' /\
    t' = with_amount t (Transaction.amount t').
Proof.
  eexists. eexists.
  split; [vm_compute; reflexivity|].
  split; [vm_compute; reflexivity|].
  split; [discriminate|].
  apply (candidates_of_one_window_share_fields ascii_only ascii_only
           two_amounts_record 0 18).
  - lia.
  - vm_compute. discriminate.
  - lia.
  - vm_compute. discriminate.
  - vm_compute. reflexivity.
  - vm_compute. reflexivity.
Defined.

(** ** The query layer *)

Lemma get_transactions_sound_witness :
  map Transaction.transaction_id (answered filtered_outcome) = [s_ "t-1"] /\
  StronglySorted (key_ge Transaction.date) (answered filtered_outcome) /\
  len (answered filtered_outcome) <= 10.
Proof.
  destruct (get_transactions_sound ascii_only ascii_only ascii_lower
              _ _ _ _ _ _ _ _ fresh_database _ _ _ _ eq_refl filtered_run)
    as (decoded & _ & _ & _ & Hsorted & _ & Hlimit & _).
  split; [reflexivity|]. split; [exact Hsorted|apply Hlimit; lia].
Defined.

Lemma get_transactions_unfiltered_witness :
  exists decoded,
    snd (decode_transactions ascii_only ascii_only "db" sample_fs)
    = inr decoded /\
    answered unfiltered_outcome = firstn (length decoded - 1) decoded.
Proof.
  destruct (get_transactions_unfiltered ascii_only ascii_only ascii_lower
              _ fresh_database _ _ _ _ eq_refl unfiltered_run)
    as (decoded & Hdec & _ & Hneg).
  exists decoded. split; [exact Hdec|]. apply Hneg. lia.
Defined.

Lemma search_transactions_sound_witness :
  map Transaction.transaction_id (answered search_outcome) = [s_ "t-1"] /\
  len (answered search_outcome) <= 50 /\
  forall t, In t (answered search_outcome) ->
    str_contains (ascii_lower (Transaction.display_name t)) (s_ "cafe") = true.
Proof.
  destruct (search_transactions_sound ascii_only ascii_only ascii_lower
              _ _ fresh_database _ _ _ _ eq_refl search_run)
    as (decoded & _ & _ & Hlimit & Hmatch & _).
  split; [reflexivity|]. split; [apply Hlimit; lia|exact Hmatch].
Defined.

Lemma get_accounts_sound_witness :
  exists decoded,
    snd (decode_accounts ascii_only "db" accounts_fs) = inr decoded /\
    sublist (answered typed_accounts_outcome) decoded /\
    length (answered typed_accounts_outcome) = 2%nat.
Proof.
  destruct (get_accounts_sound ascii_only ascii_lower
              _ fresh_database _ _ _ _ eq_refl typed_accounts_run)
    as (decoded & Hdec & _ & Hsub & _).
  exists decoded. split; [exact Hdec|]. split; [exact Hsub|reflexivity].
Defined.

Lemma get_categories_distinct_witness :
  map Category.category_id (answered categories_outcome) = [s_ "Food"] /\
  NoDup (map Category.category_id (answered categories_outcome)).
Proof.
  destruct (get_categories_distinct ascii_only ascii_only
              fresh_database _ _ _ _ eq_refl categories_run)
    as (decoded & _ & Hnodup & _).
  split; [reflexivity|exact Hnodup].
Defined.

Lemma is_available_decode_witness :
  (exists f rest,
     fst (decode_transactions ascii_only ascii_only "db" sample_fs)
     = EvExists "db" :: EvGlob "db" :: EvOpen (entry_name f) :: rest) /\
  (decode_transactions ascii_only ascii_only "db" no_tables_fs
   = ([EvExists "db"], inl (FileNotFoundError "db")) \/
   decode_transactions ascii_only ascii_only "db" no_tables_fs
   = ([EvExists "db"; EvGlob "db"], inr [])).
Proof.
  split.
  - apply (is_available_decode ascii_only ascii_only fresh_database sample_fs
             [EvExists "db"; EvGlob "db"] true); reflexivity.
  - apply (is_available_decode ascii_only ascii_only fresh_database
             no_tables_fs [EvExists "db"; EvGlob "db"] false); reflexivity.
Defined.

(** ** Dates and the balance tool *)

Lemma get_month_range_valid_witness :
  (exists start end_,
     get_month_range 2024 2 = inr (start, end_) /\
     date_pattern ascii_only end_ = true) /\
  exists message, get_month_range 2024 13 = inl (ValueError message).
Proof.
  split.
  - destruct (get_month_range_valid ascii_only 2024 2) as [H _].
    destruct H as (start & end_ & E & _ & Hend & _); [lia|lia|].
    exists start, end_. split; assumption.
  - destruct (get_month_range_valid ascii_only 2024 13) as [_ H].
    apply H. right. lia.
Defined.

Lemma get_account_balance_first_match_witness :
  exists info before a after,
    snd balance_outcome = inr info /\
    info_name info = s_ "Everyday" /\
    sample_accounts = before ++ a :: after /\
    (forall b, In b before -> Account.account_id b <> s_ "acc-1") /\
    info_name info = Account.display_name a.
Proof.
  pose proof (get_account_balance_first_match ascii_only ascii_lower
                (s_ "acc-1") fresh_database _ accounts_fs _ _
                eq_refl balance_run) as H.
  change (snd (decode_accounts ascii_only (db_path fresh_database)
                 accounts_fs))
    with (@inr exn _ sample_accounts) in H.
  destruct H as [_ H].
  destruct (H _ eq_refl)
    as (before & a & after & Hsplit & _ & Hfirst & _ & Hname & _).
  eexists. exists before, a, after.
  split; [reflexivity|]. split; [reflexivity|].
  split; [exact Hsplit|]. split; [exact Hfirst|exact Hname].
Defined.

(** ** The boolean extractor *)

Lemma extract_boolean_value_first_tag_witness :
  exists i tag,
    0 <= i < 18 /\
    py_getitem (b_ "pending" ++ [x00; x08; x01; x00]) (7 + i) = Some tag /\
    byte_val tag = 0x08.
Proof.
  destruct (extract_boolean_value_first_tag (b_ "pending" ++ [x00; x08; x01; x00])
              (b_ "pending") true)
    as (idx & i & tag & v & Ef & Hi & Ht & Etag & _).
  - vm_compute. reflexivity.
  - exists i, tag. split; [assumption|]. split; [|assumption].
    vm_compute in Ef. injection Ef as <-. exact Ht.
Defined.
